(** * phaser-game-core: a shallow embedding of the utility and manager classes

    The development follows the layout of the repository:

    - [ColorUtils]   : [const/ColorDef] (hex colour strings and numbers),
    - [AssetManager] : [systems/AssetsManager] (registration and the
      [loadAssets] entry point, run against a model of the host loader),
    - [SoundManager] : [systems/SoundManager] (categories, playback
      bookkeeping, background music, volumes, mute, settings).

    Conventions.  A JavaScript [Map] that the code iterates is an
    association list in insertion order; a [Map] or plain object that is only
    looked up is a [gmap], and a plain object the code writes to is a [gmap]
    written through [object_set].  Objects that the code shares by reference
    (category records captured by listeners, host sound objects) live in a
    store and are named by their address.  Numbers that carry volumes are
    exact rationals ([Qc]): the managers are run on finite numbers, without
    the rounding of IEEE doubles; what the clamp makes of NaN and of the
    infinities is given apart ([Math_Clamp]).  Counts and durations are
    integers.  What the host engine does is an input of the model where the
    code cannot know it ([StartOutcome]). *)

From Equations Require Import Equations.
From stdpp Require Import gmap strings list fin_maps.
From Stdlib Require Import ZArith NArith Ascii String QArith Qcanon Lia.

Local Open Scope Z_scope.

(* ===================================================================== *)
(** * ColorUtils                                                          *)
(* ===================================================================== *)

Module ColorUtils.

Local Open Scope string_scope.

(** ** The string primitives used by the class *)

(** One digit of [Number.prototype.toString(16)]: lower case. *)
Definition digit_char (d : N) : ascii :=
  if (d <? 10)%N then ascii_of_N (48 + d) else ascii_of_N (87 + d).

Definition inspect {A} (a : A) : {b | a = b} := exist _ a eq_refl.

(** The digits of a natural number in base 16, most significant first. *)
Equations? digits16 (n : N) : list N by wf (N.to_nat n) lt :=
  digits16 n with inspect (n <? 16)%N => {
    | exist _ true _ := [n];
    | exist _ false Hge := digits16 (n / 16)%N ++ [(n mod 16)%N] }.
Proof.
  apply N.ltb_ge in Hge.
  assert (n / 16 < n)%N by (apply N.div_lt; lia). lia.
Qed.

Definition string_of_chars (l : list ascii) : string :=
  fold_right String EmptyString l.

(** [n.toString(16)] for an integer [n]: a minus sign for negative numbers,
    then the base-16 digits of the magnitude. *)
Definition toString16 (n : Z) : string :=
  let body := string_of_chars (map digit_char (digits16 (Z.abs_N n))) in
  if (n <? 0)%Z then String "-" body else body.

Definition upper_char (c : ascii) : ascii :=
  let k := N_of_ascii c in
  if ((97 <=? k) && (k <=? 122))%N then ascii_of_N (k - 32) else c.

(** [s.toUpperCase()] on ASCII text. *)
Fixpoint toUpperCase (s : string) : string :=
  match s with
  | EmptyString => EmptyString
  | String c s' => String (upper_char c) (toUpperCase s')
  end.

(** [fill] repeated and cut to exactly [k] characters; [cur] is what is
    left of the copy of [fill] being written. *)
Fixpoint fill_to (k : nat) (fill cur : string) : string :=
  match k with
  | O => EmptyString
  | S k' =>
      match cur with
      | String c cur' => String c (fill_to k' fill cur')
      | EmptyString =>
          match fill with
          | String c fill' => String c (fill_to k' fill fill')
          | EmptyString => EmptyString
          end
      end
  end.

(** [s.padStart(target, fill)]. *)
Definition padStart (target : nat) (fill s : string) : string :=
  if (target <=? String.length s)%nat then s
  else fill_to (target - String.length s) fill fill ++ s.

Fixpoint drop_chars (k : nat) (s : string) : string :=
  match k, s with
  | O, _ => s
  | S k', String _ s' => drop_chars k' s'
  | S _, EmptyString => EmptyString
  end.

(** [s.replace(pat, repl)] with a string pattern: only the first occurrence
    is replaced. *)
Fixpoint replace (pat repl s : string) : string :=
  if String.prefix pat s then repl ++ drop_chars (String.length pat) s
  else
    match s with
    | EmptyString => EmptyString
    | String c s' => String c (replace pat repl s')
    end.

(** The value of a character as a base-16 digit, if it is one. *)
Definition hex_value (c : ascii) : option Z :=
  let k := Z.of_N (N_of_ascii c) in
  if ((48 <=? k) && (k <=? 57))%Z then Some (k - 48)%Z
  else if ((65 <=? k) && (k <=? 70))%Z then Some (k - 55)%Z
  else if ((97 <=? k) && (k <=? 102))%Z then Some (k - 87)%Z
  else None.

Definition is_space (c : ascii) : bool :=
  let k := N_of_ascii c in
  ((k =? 9) || (k =? 10) || (k =? 11) || (k =? 12) || (k =? 13) || (k =? 32))%N.

Fixpoint skip_spaces (s : string) : string :=
  match s with
  | String c s' => if is_space c then skip_spaces s' else s
  | EmptyString => EmptyString
  end.

(** The longest prefix of base-16 digits, read left to right; [acc] is
    [None] until a digit has been seen. *)
Fixpoint read_digits (acc : option Z) (s : string) : option Z :=
  match s with
  | String c s' =>
      match hex_value c with
      | Some d => read_digits (Some (16 * default 0 acc + d)%Z) s'
      | None => acc
      end
  | EmptyString => acc
  end.

Definition strip_sign (s : string) : Z * string :=
  match s with
  | String c s' =>
      if Ascii.eqb c "-" then ((-1)%Z, s')
      else if Ascii.eqb c "+" then (1%Z, s')
      else (1%Z, s)
  | EmptyString => (1%Z, s)
  end.

Definition strip_0x (s : string) : string :=
  match s with
  | String a (String b s') =>
      if Ascii.eqb a "0" && (Ascii.eqb b "x" || Ascii.eqb b "X") then s' else s
  | _ => s
  end.

(** [parseInt(s, 16)]: leading white space (of the ASCII range), an optional
    sign and an optional [0x] are skipped, then the longest run of digits is
    read.  [None] is NaN (no digit found). *)
Definition parseInt16 (s : string) : option Z :=
  let '(sign, body) := strip_sign (skip_spaces s) in
  (fun v => (sign * v)%Z) <$> read_digits None (strip_0x body).

(** ** The two conversions of the class *)

Definition hexToNumber (hexColor : string) : option Z :=
  let hex := replace "#" "" hexColor in
  parseInt16 hex.

Definition numberToHex (colorNumber : Z) : string :=
  "#" ++ padStart 6 "0" (toUpperCase (toString16 colorNumber)).

(** ** Vocabulary for the properties below *)

(** The character written for digit [d] after [toUpperCase]. *)
Definition hexchar (d : N) : ascii := upper_char (digit_char d).

Definition hexstr (ds : list N) : string := string_of_chars (map hexchar ds).

Definition is_upper_hex (c : ascii) : bool :=
  let k := N_of_ascii c in
  (((48 <=? k) && (k <=? 57)) || ((65 <=? k) && (k <=? 70)))%N.

Fixpoint all_chars (p : ascii -> bool) (s : string) : bool :=
  match s with
  | EmptyString => true
  | String c s' => p c && all_chars p s'
  end.

Definition horner (acc : Z) (ds : list N) : Z :=
  fold_left (fun a d => 16 * a + Z.of_N d)%Z ds acc.

(** ** The colour table and the functions that read it *)

(** The object [ColorDef], in the order it is written. *)
Definition ColorDef : list (string * string) :=
  [ ("RED", "#FF0000"); ("GREEN", "#00FF00"); ("BLUE", "#0000FF");
    ("YELLOW", "#FFFF00"); ("CYAN", "#00FFFF"); ("MAGENTA", "#FF00FF");
    ("BLACK", "#000000"); ("WHITE", "#FFFFFF");
    ("LIGHT_RED", "#FF7F7F"); ("DARK_RED", "#8B0000"); ("MAROON", "#800000");
    ("LIGHT_GREEN", "#90EE90"); ("DARK_GREEN", "#006400"); ("LIME", "#00FF00");
    ("LIGHT_CYAN", "#E0FFFF"); ("DARK_CYAN", "#008B8B"); ("SKY_BLUE", "#87CEEB");
    ("DEEP_SKY_BLUE", "#00BFFF") ]%string.

(** The property names an object literal inherits from [Object.prototype]. *)
Definition Object_prototype : list string :=
  [ "constructor"; "__defineGetter__"; "__defineSetter__"; "hasOwnProperty";
    "__lookupGetter__"; "__lookupSetter__"; "isPrototypeOf";
    "propertyIsEnumerable"; "toString"; "valueOf"; "__proto__";
    "toLocaleString" ]%string.

(** An own property of an object literal with string values. *)
Fixpoint own_property (k : string) (o : list (string * string)) : option string :=
  match o with
  | [] => None
  | (k', v) :: o' => if String.eqb k' k then Some v else own_property k o'
  end.

(** [getColorNumber(colorKey)].  The outer [None] is the TypeError raised
    when [ColorDef[colorKey]] is not a string: for a key outside the table
    the lookup gives [undefined] or a member of [Object.prototype], and
    neither has a [replace] method. *)
Definition getColorNumber (colorKey : string) : option (option Z) :=
  hexToNumber <$> own_property colorKey ColorDef.

(** [Object.keys(ColorDef)]. *)
Definition getColorNames : list string := ColorDef.*1.

(** [colorName in ColorDef]: own and inherited properties count. *)
Definition hasColor (colorName : string) : bool :=
  bool_decide (colorName ∈ ColorDef.*1 ∨ colorName ∈ Object_prototype).

(** Characters of the ASCII range. *)
Definition is_ascii (c : ascii) : bool := (N_of_ascii c <? 128)%N.

Definition not_hash (c : ascii) : bool := negb (Ascii.eqb c "#").

(** The largest integer below which every integer is a JavaScript number. *)
Definition MAX_SAFE_INTEGER : Z := 9007199254740991.

End ColorUtils.

(* ===================================================================== *)
(** * AssetManager                                                        *)
(* ===================================================================== *)

Module AssetManager.

Inductive AssetType :=
  IMAGE | SPRITESHEET | ATLAS | AUDIO | JSON | XML | FONT.

(** A registered asset.  The option objects that are handed through to the
    loader unread are not part of the record. *)
Record AssetConfig := mkAsset {
  key : string;
  type : AssetType;
  path : list string;
  atlasPath : option string
}.

Record LoadedInfo := mkLoaded {
  l_key : string;
  l_type : AssetType;
  loadedAt : Z
}.

(** ** The host loader ([scene.load])

    The engine is not part of the repository.  The model keeps, of the
    loader, the files handed to it by [load.image] and the like since it
    last completed, whether a load is running, and the listeners the
    manager installs: progress callbacks (named by a number), the one-shot
    [complete] listeners, each closed over the batch it reports, and the
    one-shot [loaderror] listeners.  Which of the files handed over the
    loader has to fetch (it takes up no file for a key its caches hold
    already) is known to the host alone; it shows in what [load.start()]
    does. *)
Record Loader := mkLoader {
  files : list (AssetType * string);
  running : bool;
  on_progress : list nat;
  once_complete : list (list AssetConfig);
  once_loaderror : nat
}.

Definition loader_add (t : AssetType) (k : string) (l : Loader) : Loader :=
  mkLoader (files l ++ [(t, k)]) (running l) (on_progress l)
           (once_complete l) (once_loaderror l).

Definition loader_on_progress (cb : nat) (l : Loader) : Loader :=
  mkLoader (files l) (running l) (on_progress l ++ [cb])
           (once_complete l) (once_loaderror l).

Definition loader_off_progress (cb : nat) (l : Loader) : Loader :=
  mkLoader (files l) (running l) (filter (fun c => c ≠ cb) (on_progress l))
           (once_complete l) (once_loaderror l).

Definition loader_once_complete (batch : list AssetConfig) (l : Loader) : Loader :=
  mkLoader (files l) (running l) (on_progress l)
           (once_complete l ++ [batch]) (once_loaderror l).

Definition loader_once_loaderror (l : Loader) : Loader :=
  mkLoader (files l) (running l) (on_progress l)
           (once_complete l) (S (once_loaderror l)).

(** The loader takes up a load. *)
Definition loader_run (l : Loader) : Loader :=
  mkLoader (files l) true (on_progress l) (once_complete l) (once_loaderror l).

(** What [load.start()] does on a loader that is not running.  With a file
    to fetch the loader begins to load and reports later.  With none, as
    when every key handed over is in the caches already, it completes before
    [start] returns: the [complete] listeners run inside the call, at the
    time [Date.now()] gives them.  Which of the two happens is the host's
    to say. *)
Inductive StartOutcome :=
| Loads
| CompletesAt (now : Z).

(** ** The manager *)

Record State := mkState {
  assetRegistry : list (string * AssetConfig);
  loadedAssets : gmap string LoadedInfo;
  loadQueue : list AssetConfig;
  isLoading : bool;
  load : Loader;
  console : list string
}.

Definition init (l : Loader) : State := mkState [] ∅ [] false l [].

(** [Map.prototype.set] on a map kept in insertion order: an existing key
    keeps its place. *)
Fixpoint map_set {V} (k : string) (v : V) (m : list (string * V)) : list (string * V) :=
  match m with
  | [] => [(k, v)]
  | (k', v') :: m' =>
      if decide (k' = k) then (k, v) :: m' else (k', v') :: map_set k v m'
  end.

Fixpoint map_get {V} (k : string) (m : list (string * V)) : option V :=
  match m with
  | [] => None
  | (k', v') :: m' => if decide (k' = k) then Some v' else map_get k m'
  end.

Definition register (a : AssetConfig) (st : State) : State :=
  mkState (map_set (key a) a (assetRegistry st)) (loadedAssets st)
          (loadQueue st) (isLoading st) (load st) (console st).

Definition registerImage (k p : string) : State -> State :=
  register (mkAsset k IMAGE [p] None).

Definition registerSpritesheet (k p : string) : State -> State :=
  register (mkAsset k SPRITESHEET [p] None).

Definition registerAtlas (k textureURL atlasURL : string) : State -> State :=
  register (mkAsset k ATLAS [textureURL] (Some atlasURL)).

Definition registerAudio (k : string) (p : list string) : State -> State :=
  register (mkAsset k AUDIO p None).

Definition registerJSON (k p : string) : State -> State :=
  register (mkAsset k JSON [p] None).

Definition registerXML (k p : string) : State -> State :=
  register (mkAsset k XML [p] None).

Definition registerFont (k p : string) : State -> State :=
  register (mkAsset k FONT [p] None).

Definition set_isLoading (b : bool) (st : State) : State :=
  mkState (assetRegistry st) (loadedAssets st) (loadQueue st) b (load st) (console st).

Definition set_load (f : Loader -> Loader) (st : State) : State :=
  mkState (assetRegistry st) (loadedAssets st) (loadQueue st) (isLoading st)
          (f (load st)) (console st).

Definition warn (msg : string) (st : State) : State :=
  mkState (assetRegistry st) (loadedAssets st) (loadQueue st) (isLoading st)
          (load st) (console st ++ [msg]).

(** [addToLoadQueue]: every asset type maps to one loader call. *)
Definition addToLoadQueue (a : AssetConfig) (st : State) : State :=
  set_load (loader_add (type a) (key a)) st.

(** [onLoadComplete], run by a [complete] listener at time [now]. *)
Definition onLoadComplete (now : Z) (batch : list AssetConfig) (st : State) : State :=
  mkState (assetRegistry st)
          (foldl (fun m a => <[key a := mkLoaded (key a) (type a) now]> m)
                 (loadedAssets st) batch)
          (loadQueue st) (isLoading st) (load st) (console st).

(** The host loader finishes: its list is empty again, it stops running,
    and the one-shot [complete] listeners are taken off and run.  The
    [loaderror] listeners stay: only an error takes them off. *)
Definition loader_complete (now : Z) (st : State) : State :=
  let batches := once_complete (load st) in
  let st := set_load (fun l => mkLoader [] false (on_progress l) []
                                        (once_loaderror l)) st in
  foldl (fun s b => onLoadComplete now b s) st batches.

(** [load.start()], with what the host makes of it. *)
Definition loader_start (o : StartOutcome) (st : State) : State :=
  match o with
  | Loads => set_load loader_run st
  | CompletesAt now => loader_complete now st
  end.

(** What the caller holds after [loadAssets] returns: a promise that
    settles without a further event of the loader (the function returned
    nothing, or the [complete] listener has run and resolved it already), or
    one that follows the host loader's next [complete] / [loaderror]
    event. *)
Inductive LoadPromise := Fulfilled | AwaitingLoader.

(** The [finally] block.  The function body contains no [await], so the
    block runs before [loadAssets] returns, whichever way the [try] block
    is left. *)
Definition finally (onProgress : option nat) (st : State) : State :=
  let st := set_isLoading false st in
  match onProgress with
  | Some cb => set_load (loader_off_progress cb) st
  | None => st
  end.

Definition loadAssets (keys : option (list string)) (onProgress : option nat)
    (start : StartOutcome) (st : State) : LoadPromise * State :=
  if isLoading st then (Fulfilled, warn "Already loading assets" st)
  else
    let st := set_isLoading true st in
    let assetsToLoad :=
      match keys with
      | Some ks => omap (fun k => map_get k (assetRegistry st)) ks
      | None => (assetRegistry st).*2
      end in
    match assetsToLoad with
    | [] => (Fulfilled, finally onProgress (warn "No assets to load" st))
    | _ =>
        let st := match onProgress with
                  | Some cb => set_load (loader_on_progress cb) st
                  | None => st
                  end in
        let st := foldl (fun s a => addToLoadQueue a s) st assetsToLoad in
        if negb (running (load st)) then
          let st := set_load (loader_once_complete assetsToLoad) st in
          let st := set_load loader_once_loaderror st in
          let st := loader_start start st in
          (match start with Loads => AwaitingLoader | CompletesAt _ => Fulfilled end,
           finally onProgress st)
        else (Fulfilled, finally onProgress st)
    end.

(** ** A concrete registry *)

Definition idle_loader : Loader := mkLoader [] false [] [] 0%nat.

(** Two images registered, nothing loading. *)
Definition two_images : State :=
  registerImage "b" "b.png" (registerImage "a" "a.png" (init idle_loader)).

(** ** The rest of the class *)

(** [console.log] and [console.error]: [console] holds the lines the class
    itself writes, whatever their level. *)
Definition log (msg : string) (st : State) : State := warn msg st.

Definition isRegistered (k : string) (st : State) : bool :=
  bool_decide (is_Some (map_get k (assetRegistry st))).

Definition getRegisteredAssets (st : State) : list string := (assetRegistry st).*1.

(** [Map.prototype.delete] on a map kept in insertion order. *)
Definition map_delete {V} (k : string) (m : list (string * V)) : list (string * V) :=
  filter (λ e, e.1 ≠ k) m.

(** What the host holds of loaded data: the keys in [scene.textures] and
    in the audio, JSON and XML caches. *)
Record Caches := mkCaches {
  textures : gset string;
  audio : gset string;
  json : gset string;
  xml : gset string
}.

Record World := mkWorld {
  manager : State;
  host : Caches
}.

Definition isLoaded (k : string) (w : World) : bool :=
  bool_decide (is_Some (loadedAssets (manager w) !! k)) &&
  (bool_decide (k ∈ textures (host w)) || bool_decide (k ∈ audio (host w)) ||
   bool_decide (k ∈ json (host w)) || bool_decide (k ∈ xml (host w))).

Definition removeAsset (k : string) (w : World) : World :=
  let st := manager w in
  let h := host w in
  mkWorld (mkState (map_delete k (assetRegistry st)) (delete k (loadedAssets st))
                   (loadQueue st) (isLoading st) (load st) (console st))
          (mkCaches (textures h ∖ {[k]}) (audio h ∖ {[k]})
                    (json h ∖ {[k]}) (xml h ∖ {[k]})).

Definition clear (st : State) : State :=
  mkState [] ∅ [] (isLoading st) (load st) (console st).

(** One turn of the loop of [registerAssets]: the [switch] hands the entry
    to the method of its type; only [registerAtlas] is given the
    [atlasPath]. *)
Definition registerAsset (a : AssetConfig) : State → State :=
  match type a with
  | IMAGE => register (mkAsset (key a) IMAGE (path a) None)
  | SPRITESHEET => register (mkAsset (key a) SPRITESHEET (path a) None)
  | ATLAS => register (mkAsset (key a) ATLAS (path a) (atlasPath a))
  | AUDIO => register (mkAsset (key a) AUDIO (path a) None)
  | JSON => register (mkAsset (key a) JSON (path a) None)
  | XML => register (mkAsset (key a) XML (path a) None)
  | FONT => register (mkAsset (key a) FONT (path a) None)
  end.

Definition registerAssets (assets : list AssetConfig) (st : State) : State :=
  foldl (λ s a, registerAsset a s) st assets.

(** What the caller of [preloadEssentialAssets] holds: a promise rejected
    with an error, or the promise of [loadAssets]. *)
Inductive PreloadPromise :=
| Rejected (msg : string)
| Follows (p : LoadPromise).

Definition preloadEssentialAssets (essentialKeys : list string) (onProgress : option nat)
    (start : StartOutcome) (st : State) : PreloadPromise * State :=
  match omap (λ k, map_get k (assetRegistry st)) essentialKeys with
  | [] => (Rejected "No essential assets found", st)
  | _ => let '(p, st) := loadAssets (Some essentialKeys) onProgress start st in
         (Follows p, st)
  end.

Definition loadLevelAssets (levelName : string) (assetKeys : list string)
    (onProgress : option nat) (start : StartOutcome) (st : State) : LoadPromise * State :=
  loadAssets (Some assetKeys) onProgress start
             (log ("Loading assets for level: " +:+ levelName) st).

Global Instance AssetType_eq_dec : EqDecision AssetType.
Proof. solve_decision. Defined.

(** The size [getEstimatedSize] assumes for an asset of a type, in KB. *)
Definition estimatedSize (t : AssetType) : Z :=
  match t with
  | IMAGE | SPRITESHEET => 100
  | ATLAS => 200
  | AUDIO => 500
  | JSON | XML => 10
  | FONT => 50
  end.

Record SizeEstimate := mkEstimate {
  totalSizeKB : Z;
  sizeByType : AssetType → Z;
  assetCount : nat
}.

Definition getEstimatedSize (st : State) : SizeEstimate :=
  let '(total, byType) :=
    foldl (λ (acc : Z * (AssetType → Z)) (e : string * AssetConfig),
             let t := type e.2 in
             (acc.1 + estimatedSize t,
              λ t', if decide (t' = t) then acc.2 t' + estimatedSize t else acc.2 t'))
          (0, λ _, 0) (assetRegistry st) in
  mkEstimate total byType (List.length (assetRegistry st)).

(** ** Host events *)

(** The host loader reports a file that failed: the [loaderror] listeners
    are taken off and run. *)
Definition loader_error (file : string) (st : State) : State :=
  let n := once_loaderror (load st) in
  let st := set_load (λ l, mkLoader (files l) (running l) (on_progress l)
                                    (once_complete l) 0) st in
  Nat.iter n (log ("Failed to load asset: " +:+ file)) st.

(** ** Histories *)

(** A call of a public method (those that load come with what the host
    makes of [load.start()], should the call reach it), or something the
    host does: its loader is started from elsewhere, reports a failed file,
    or finishes (at a time, leaving the caches in some state). *)
Inductive Event :=
| RegisterImage (k p : string)
| RegisterSpritesheet (k p : string)
| RegisterAtlas (k textureURL atlasURL : string)
| RegisterAudio (k : string) (p : list string)
| RegisterJSON (k p : string)
| RegisterXML (k p : string)
| RegisterFont (k p : string)
| RegisterAssets (assets : list AssetConfig)
| LoadAssets (keys : option (list string)) (onProgress : option nat)
             (start : StartOutcome)
| PreloadEssentialAssets (keys : list string) (onProgress : option nat)
                         (start : StartOutcome)
| LoadLevelAssets (levelName : string) (keys : list string) (onProgress : option nat)
                  (start : StartOutcome)
| RemoveAsset (k : string)
| Clear
| LoaderStarted
| LoaderFailed (file : string)
| LoaderDone (now : Z) (h : Caches).

Definition on_manager (f : State → State) (w : World) : World :=
  mkWorld (f (manager w)) (host w).

Definition step (ev : Event) (w : World) : World :=
  match ev with
  | RegisterImage k p => on_manager (registerImage k p) w
  | RegisterSpritesheet k p => on_manager (registerSpritesheet k p) w
  | RegisterAtlas k t a => on_manager (registerAtlas k t a) w
  | RegisterAudio k p => on_manager (registerAudio k p) w
  | RegisterJSON k p => on_manager (registerJSON k p) w
  | RegisterXML k p => on_manager (registerXML k p) w
  | RegisterFont k p => on_manager (registerFont k p) w
  | RegisterAssets l => on_manager (registerAssets l) w
  | LoadAssets keys cb o => on_manager (λ st, (loadAssets keys cb o st).2) w
  | PreloadEssentialAssets keys cb o =>
      on_manager (λ st, (preloadEssentialAssets keys cb o st).2) w
  | LoadLevelAssets lv keys cb o =>
      on_manager (λ st, (loadLevelAssets lv keys cb o st).2) w
  | RemoveAsset k => removeAsset k w
  | Clear => on_manager clear w
  | LoaderStarted => on_manager (loader_start Loads) w
  | LoaderFailed file => on_manager (loader_error file) w
  | LoaderDone now h => mkWorld (loader_complete now (manager w)) h
  end.

Definition steps (evs : list Event) (w : World) : World :=
  foldl (λ w ev, step ev w) w evs.

(** A new manager on a scene whose loader is [l] and whose caches are [h]. *)
Definition new_world (l : Loader) (h : Caches) : World := mkWorld (init l) h.

(** The events that take entries out of the registry. *)
Definition forgets (ev : Event) : bool :=
  match ev with
  | RemoveAsset _ | Clear => true
  | _ => false
  end.

(** Every entry of the registry is stored once, under its own key. *)
Definition registry_ok (reg : list (string * AssetConfig)) : Prop :=
  NoDup reg.*1 ∧ ∀ k a, (k, a) ∈ reg → key a = k.

(** The assets a call of [loadAssets] selects. *)
Definition selected (keys : option (list string)) (st : State) : list AssetConfig :=
  match keys with
  | Some ks => omap (λ k, map_get k (assetRegistry st)) ks
  | None => (assetRegistry st).*2
  end.

(** The last entry of a list with a given key. *)
Definition last_with_key (k : string) (l : list AssetConfig) : option AssetConfig :=
  last (filter (λ a, key a = k) l).

(** What [registerAssets] stores for an entry. *)
Definition stored (a : AssetConfig) : AssetConfig :=
  mkAsset (key a) (type a) (path a)
          (match type a with ATLAS => atlasPath a | _ => None end).

Definition empty_caches : Caches := mkCaches ∅ ∅ ∅ ∅.

Definition busy_loader : Loader := mkLoader [] true [] [] 0%nat.

(** The flag is down and the warning of the guard was never written. *)
Definition quiet (st : State) : Prop :=
  isLoading st = false ∧ "Already loading assets" ∉ console st.

(** Nothing is reported as loaded, and no batch is waiting, that the
    registry does not hold. *)
Definition tracked (st : State) : Prop :=
  registry_ok (assetRegistry st) ∧
  (∀ k, is_Some (loadedAssets st !! k) → is_Some (map_get k (assetRegistry st))) ∧
  (∀ b a, b ∈ once_complete (load st) → a ∈ b →
          is_Some (map_get (key a) (assetRegistry st))).

(** Two images registered, one load started, then the registry cleared
    before the loader finishes. *)
Definition cleared_while_loading : list Event :=
  [ RegisterImage "a" "a.png"; RegisterImage "b" "b.png";
    LoadAssets None None Loads; Clear; LoaderDone 5 empty_caches ].

End AssetManager.

(* ===================================================================== *)
(** * SoundManager                                                        *)
(* ===================================================================== *)

Module SoundManager.

Import AssetManager (map_get, map_set).

Local Open Scope Qc_scope.

(** Addresses of host sound objects and of category records. *)
Definition handle := nat.
Definition catref := nat.

(** ** Numbers *)

Definition num_min (a b : Qc) : Qc := if decide (a ≤ b) then a else b.
Definition num_max (a b : Qc) : Qc := if decide (a ≤ b) then b else a.

(** [Phaser.Math.Clamp(value, min, max)], that is
    [Math.max(min, Math.min(max, value))], on finite numbers. *)
Definition Clamp (value min max : Qc) : Qc := num_max min (num_min max value).

(** The same on all that a JavaScript number can be: [Math.min] and
    [Math.max] give NaN as soon as one argument is NaN, and compare the
    infinities with every number. *)
Inductive Number := NaN | MinusInfinity | Finite (x : Qc) | PlusInfinity.

Definition number_le (a b : Number) : bool :=
  match a, b with
  | NaN, _ | _, NaN => false
  | MinusInfinity, _ | _, PlusInfinity => true
  | Finite x, Finite y => bool_decide (x ≤ y)
  | _, _ => false
  end.

Definition Math_min (a b : Number) : Number :=
  match a, b with
  | NaN, _ | _, NaN => NaN
  | _, _ => if number_le a b then a else b
  end.

Definition Math_max (a b : Number) : Number :=
  match a, b with
  | NaN, _ | _, NaN => NaN
  | _, _ => if number_le a b then b else a
  end.

Definition Math_Clamp (value min max : Number) : Number :=
  Math_max min (Math_min max value).

(** ** Records of the module *)

Record SoundConfig := mkSoundConfig {
  cfg_volume : option Qc;
  cfg_rate : option Qc;
  cfg_detune : option Qc;
  cfg_seek : option Qc;
  cfg_loop : option bool;
  cfg_delay : option Qc
}.

Definition no_config : SoundConfig := mkSoundConfig None None None None None None.

Definition or_else {A} (over base : option A) : option A :=
  match over with Some x => Some x | None => base end.

(** Object spread [{...base, ...over}]. *)
Definition spread (base over : SoundConfig) : SoundConfig :=
  mkSoundConfig (or_else (cfg_volume over) (cfg_volume base))
                (or_else (cfg_rate over) (cfg_rate base))
                (or_else (cfg_detune over) (cfg_detune base))
                (or_else (cfg_seek over) (cfg_seek base))
                (or_else (cfg_loop over) (cfg_loop base))
                (or_else (cfg_delay over) (cfg_delay base)).

Record SoundCategoryConfig := mkCategoryConfig {
  cc_volume : option Qc;
  cc_loop : option bool;
  cc_maxConcurrent : option Z;
  cc_interrupts : option bool;
  cc_fadeInDuration : option Z;
  cc_fadeOutDuration : option Z
}.

Definition no_category_config : SoundCategoryConfig :=
  mkCategoryConfig None None None None None None.

Record SoundCategory := mkCategory {
  name : string;
  volume : Qc;
  loop : bool;
  maxConcurrent : Z;
  interrupts : bool;
  fadeInDuration : option Z;
  fadeOutDuration : option Z;
  playingSounds : list handle
}.

Record SoundEntry := mkEntry {
  key : string;
  category : string;
  path : list string;
  config : SoundConfig;
  isLoaded : bool
}.

Record SoundManagerSettings := mkSettings {
  s_globalVolume : Qc;
  s_isMuted : bool;
  s_categoryVolumes : gmap string Qc
}.

(** ** The host engine ([scene])

    The engine is not part of the repository; the model keeps what the
    manager relies on.

    - [scene.sound.add] returns a new sound object, neither playing nor
      paused, and throws when the key is not in the audio cache.  No other
      host call throws.
    - [stop] on a sound that is playing or paused makes it idle and emits
      [stop]; on an idle sound it does nothing.  A playing sound that does
      not loop can end by itself, which emits [complete].
    - [pauseAll] pauses the playing sounds, [resumeAll] resumes the paused
      ones, [stopAll] stops every sound.
    - A tween runs until the host completes it (the target then has the
      final value and [onComplete] runs) or the manager stops it (nothing
      runs).  The values a tween writes on the way are not modelled.

    A sound object holds its playback state, its volume, and the one-shot
    listeners the manager attaches; a listener is the category record it
    closes over (its body is always [removeFromCategory]). *)
Inductive Playback := Idle | Playing | Paused.

Record Sound := mkSound {
  s_key : string;
  s_volume : Qc;
  s_loop : bool;
  s_config : SoundConfig;
  s_state : Playback;
  s_once_complete : list catref;
  s_once_stop : list catref
}.

(** The callback [stopBGM] hands to [fadeOutSound]. *)
Inductive FadeCallback := ClearBGM.

(** A running tween on the [volume] of a sound.  [tw_done] is [None] for a
    tween without [onComplete] (fade in), and [Some cb] for the fade-out
    tween, whose [onComplete] stops the sound and then runs [cb], if any. *)
Record Tween := mkTween {
  tw_target : handle;
  tw_volume : Qc;
  tw_duration : Z;
  tw_done : option (option FadeCallback)
}.

Record Scene := mkScene {
  cache_audio : gset string;
  objects : gmap handle Sound;
  next_handle : handle;
  tweens : gmap nat Tween;
  next_tween : nat
}.

(** ** The manager

    [store] holds the category records; [categories] maps a name to the
    record currently registered under it.  A record that was replaced by
    [defineCategory] stays in the store: listeners of sounds started
    earlier still refer to it. *)
Record Manager := mkManager {
  scene : Scene;
  assetManager : option AssetManager.State;
  sounds : gmap string SoundEntry;
  categories : list (string * catref);
  currentBGM : option string;
  bgmSound : option handle;
  globalVolume : Qc;
  isMuted : bool;
  fadeTweens : list (string * nat);
  store : gmap catref SoundCategory;
  next_ref : catref
}.

(** *** Field updates *)

Definition set_scene (f : Scene -> Scene) (m : Manager) : Manager :=
  mkManager (f (scene m)) (assetManager m) (sounds m) (categories m) (currentBGM m)
            (bgmSound m) (globalVolume m) (isMuted m) (fadeTweens m) (store m)
            (next_ref m).

Definition set_store (f : gmap catref SoundCategory -> gmap catref SoundCategory)
    (m : Manager) : Manager :=
  mkManager (scene m) (assetManager m) (sounds m) (categories m) (currentBGM m)
            (bgmSound m) (globalVolume m) (isMuted m) (fadeTweens m) (f (store m))
            (next_ref m).

Definition set_bgm (k : option string) (h : option handle) (m : Manager) : Manager :=
  mkManager (scene m) (assetManager m) (sounds m) (categories m) k h
            (globalVolume m) (isMuted m) (fadeTweens m) (store m) (next_ref m).

Definition set_globalVolume (v : Qc) (m : Manager) : Manager :=
  mkManager (scene m) (assetManager m) (sounds m) (categories m) (currentBGM m)
            (bgmSound m) v (isMuted m) (fadeTweens m) (store m) (next_ref m).

Definition set_isMuted (b : bool) (m : Manager) : Manager :=
  mkManager (scene m) (assetManager m) (sounds m) (categories m) (currentBGM m)
            (bgmSound m) (globalVolume m) b (fadeTweens m) (store m) (next_ref m).

Definition set_fadeTweens (t : list (string * nat)) (m : Manager) : Manager :=
  mkManager (scene m) (assetManager m) (sounds m) (categories m) (currentBGM m)
            (bgmSound m) (globalVolume m) (isMuted m) t (store m) (next_ref m).

Definition set_objects (f : gmap handle Sound -> gmap handle Sound) (sc : Scene) : Scene :=
  mkScene (cache_audio sc) (f (objects sc)) (next_handle sc) (tweens sc) (next_tween sc).

Definition set_tweens (f : gmap nat Tween -> gmap nat Tween) (sc : Scene) : Scene :=
  mkScene (cache_audio sc) (objects sc) (next_handle sc) (f (tweens sc)) (next_tween sc).

Definition set_cache (f : gset string -> gset string) (sc : Scene) : Scene :=
  mkScene (f (cache_audio sc)) (objects sc) (next_handle sc) (tweens sc) (next_tween sc).

Definition with_playing (l : list handle) (c : SoundCategory) : SoundCategory :=
  mkCategory (name c) (volume c) (loop c) (maxConcurrent c) (interrupts c)
             (fadeInDuration c) (fadeOutDuration c) l.

Definition with_volume (v : Qc) (c : SoundCategory) : SoundCategory :=
  mkCategory (name c) v (loop c) (maxConcurrent c) (interrupts c)
             (fadeInDuration c) (fadeOutDuration c) (playingSounds c).

Definition sound_with_volume (v : Qc) (s : Sound) : Sound :=
  mkSound (s_key s) v (s_loop s) (s_config s) (s_state s)
          (s_once_complete s) (s_once_stop s).

Definition sound_with_state (p : Playback) (s : Sound) : Sound :=
  mkSound (s_key s) (s_volume s) (s_loop s) (s_config s) p
          (s_once_complete s) (s_once_stop s).

(** *** Category lookup *)

Definition get_category (m : Manager) (n : string) : option (catref * SoundCategory) :=
  match map_get n (categories m) with
  | Some r => match store m !! r with Some c => Some (r, c) | None => None end
  | None => None
  end.

(** [removeFromCategory(sound, category)]: [indexOf], then [splice(index, 1)]
    when the sound was found. *)
Fixpoint indexOf (h : handle) (l : list handle) : option nat :=
  match l with
  | [] => None
  | x :: l' => if decide (x = h) then Some 0%nat else S <$> indexOf h l'
  end.

Definition removeFromCategory (h : handle) (r : catref) (m : Manager) : Manager :=
  match store m !! r with
  | Some c =>
      match indexOf h (playingSounds c) with
      | Some i => set_store <[r := with_playing (delete i (playingSounds c)) c]> m
      | None => m
      end
  | None => m
  end.

(** ** Host operations on one sound *)

(** [sound.setVolume(v)]. *)
Definition sound_setVolume (h : handle) (v : Qc) (m : Manager) : Manager :=
  set_scene (set_objects (fun o =>
    match o !! h with
    | Some s => <[h := sound_with_volume v s]> o
    | None => o
    end)) m.

(** [sound.play()]. *)
Definition sound_play (h : handle) (m : Manager) : Manager :=
  set_scene (set_objects (fun o =>
    match o !! h with
    | Some s => <[h := sound_with_state Playing s]> o
    | None => o
    end)) m.

(** [sound.stop()]: nothing happens unless the sound is playing or paused;
    otherwise it becomes idle and its [stop] listeners run, once. *)
Definition sound_stop (h : handle) (m : Manager) : Manager :=
  match objects (scene m) !! h with
  | Some s =>
      match s_state s with
      | Idle => m
      | _ =>
          let s' := mkSound (s_key s) (s_volume s) (s_loop s) (s_config s) Idle
                            (s_once_complete s) [] in
          let m := set_scene (set_objects <[h := s']>) m in
          foldl (fun m r => removeFromCategory h r m) m (s_once_stop s)
      end
  | None => m
  end.

(** The host reports that a sound played to its end: a playing sound that
    does not loop becomes idle and its [complete] listeners run, once. *)
Definition sound_complete (h : handle) (m : Manager) : Manager :=
  match objects (scene m) !! h with
  | Some s =>
      match s_state s, s_loop s with
      | Playing, false =>
          let s' := mkSound (s_key s) (s_volume s) (s_loop s) (s_config s) Idle
                            [] (s_once_stop s) in
          let m := set_scene (set_objects <[h := s']>) m in
          foldl (fun m r => removeFromCategory h r m) m (s_once_complete s)
      | _, _ => m
      end
  | None => m
  end.

(** [scene.sound.add(key, config)]: a new idle sound object.  The call
    throws when the key is not in the audio cache; that is [None]. *)
Definition sound_add (k : string) (cfg : SoundConfig) (v : Qc) (lp : bool)
    (sc : Scene) : option (handle * Scene) :=
  if decide (k ∈ cache_audio sc) then
    let h := next_handle sc in
    Some (h, mkScene (cache_audio sc)
                     (<[h := mkSound k v lp cfg Idle [] []]> (objects sc))
                     (S h) (tweens sc) (next_tween sc))
  else None.

Definition sound_once_complete (h : handle) (r : catref) (sc : Scene) : Scene :=
  set_objects (fun o =>
    match o !! h with
    | Some s => <[h := mkSound (s_key s) (s_volume s) (s_loop s) (s_config s)
                              (s_state s) (s_once_complete s ++ [r]) (s_once_stop s)]> o
    | None => o
    end) sc.

Definition sound_once_stop (h : handle) (r : catref) (sc : Scene) : Scene :=
  set_objects (fun o =>
    match o !! h with
    | Some s => <[h := mkSound (s_key s) (s_volume s) (s_loop s) (s_config s)
                              (s_state s) (s_once_complete s) (s_once_stop s ++ [r])]> o
    | None => o
    end) sc.

(** [scene.tweens.add(...)]. *)
Definition tweens_add (tw : Tween) (sc : Scene) : nat * Scene :=
  let i := next_tween sc in
  (i, mkScene (cache_audio sc) (objects sc) (next_handle sc)
              (<[i := tw]> (tweens sc)) (S i)).

(** [scene.sound.pauseAll()] and [resumeAll()]. *)
Definition pause_one (s : Sound) : Sound :=
  match s_state s with Playing => sound_with_state Paused s | _ => s end.

Definition resume_one (s : Sound) : Sound :=
  match s_state s with Paused => sound_with_state Playing s | _ => s end.

Definition pauseAll (sc : Scene) : Scene := set_objects (fmap pause_one) sc.
Definition resumeAll (sc : Scene) : Scene := set_objects (fmap resume_one) sc.

(** [scene.sound.stopAll()]: every sound the host holds is stopped. *)
Definition scene_stopAll (m : Manager) : Manager :=
  foldl (fun m h => sound_stop h m) m (map_to_list (objects (scene m))).*1.

(** ** The methods of the class *)

Definition defineCategory (n : string) (cfg : SoundCategoryConfig) (m : Manager) : Manager :=
  let r := next_ref m in
  let c := mkCategory n
             (default 1 (cc_volume cfg))
             (default false (cc_loop cfg))
             (default 5%Z (cc_maxConcurrent cfg))
             (default false (cc_interrupts cfg))
             (cc_fadeInDuration cfg)
             (cc_fadeOutDuration cfg)
             [] in
  mkManager (scene m) (assetManager m) (sounds m) (map_set n r (categories m))
            (currentBGM m) (bgmSound m) (globalVolume m) (isMuted m) (fadeTweens m)
            (<[r := c]> (store m)) (S r).

(** The number [n/d]. *)
Definition q (n : Z) (d : positive) : Qc := Q2Qc (n # d).

Definition setupDefaultCategories (m : Manager) : Manager :=
  let m := defineCategory "ui"
             (mkCategoryConfig (Some (q 4 5)) None (Some 5%Z) (Some false) None None) m in
  let m := defineCategory "sfx"
             (mkCategoryConfig (Some 1) None (Some 10%Z) (Some false) None None) m in
  let m := defineCategory "bgm"
             (mkCategoryConfig (Some (q 7 10)) (Some true) (Some 1%Z) (Some true)
                               (Some 1000%Z) (Some 1000%Z)) m in
  let m := defineCategory "voice"
             (mkCategoryConfig (Some (q 9 10)) None (Some 1%Z) (Some true) None None) m in
  defineCategory "ambient"
    (mkCategoryConfig (Some (q 1 2)) (Some true) (Some 3%Z) (Some false) None None) m.

(** [new SoundManager(scene, assetManager)]. *)
Definition new_manager (sc : Scene) (am : option AssetManager.State) : Manager :=
  setupDefaultCategories (mkManager sc am ∅ [] None None 1 false [] ∅ 0%nat).

Definition registerSound (k cat : string) (p : list string) (cfg : option SoundConfig)
    (m : Manager) : Manager :=
  let m := match map_get cat (categories m) with
           | Some _ => m
           | None => defineCategory cat no_category_config m
           end in
  mkManager (scene m)
            (AssetManager.registerAudio k p <$> assetManager m)
            (<[k := mkEntry k cat p (default no_config cfg) false]> (sounds m))
            (categories m) (currentBGM m) (bgmSound m) (globalVolume m) (isMuted m)
            (fadeTweens m) (store m) (next_ref m).

(** A duration that is set and positive. *)
Definition fade_duration (d : option Z) : option Z :=
  match d with
  | Some t => if (0 <? t)%Z then Some t else None
  | None => None
  end.

(** The [try] block of [playSound]; [r] is the category record the method
    resolved, read again after the eviction.  When [scene.sound.add] throws,
    the [catch] branch returns [null] with nothing else done. *)
Definition start_sound (k : string) (e : SoundEntry) (cfg : SoundConfig) (r : catref)
    (m : Manager) : option handle * Manager :=
  match store m !! r with
  | None => (None, m)
  | Some c =>
      let merged := spread (config e) cfg in
      let v := default (volume c * globalVolume m) (cfg_volume merged) in
      let lp := default (loop c) (cfg_loop merged) in
      match sound_add k merged v lp (scene m) with
      | None => (None, m)
      | Some (h, sc) =>
          let m := set_scene (fun _ => sc) m in
          let m := set_store <[r := with_playing (playingSounds c ++ [h]) c]> m in
          let m := set_scene (sound_once_complete h r) m in
          let m := set_scene (sound_once_stop h r) m in
          match fade_duration (fadeInDuration c) with
          | Some d =>
              let m := sound_setVolume h 0 m in
              let m := sound_play h m in
              let '(i, sc) :=
                tweens_add (mkTween h (volume c * globalVolume m) d None) (scene m) in
              let m := set_scene (fun _ => sc) m in
              (Some h, set_fadeTweens (map_set (k +:+ "_fadein") i (fadeTweens m)) m)
          | None => (Some h, sound_play h m)
          end
      end
  end.

(** [category.playingSounds.shift()] followed by [stop()] on what came out. *)
Definition evict_oldest (r : catref) (m : Manager) : Manager :=
  match store m !! r with
  | Some c =>
      match playingSounds c with
      | oldest :: rest =>
          sound_stop oldest (set_store <[r := with_playing rest c]> m)
      | [] => m
      end
  | None => m
  end.

Definition playSound (k : string) (cfg : SoundConfig) (m : Manager)
    : option handle * Manager :=
  if isMuted m then (None, m)
  else
    match sounds m !! k with
    | None => (None, m)
    | Some e =>
        match get_category m (category e) with
        | None => (None, m)
        | Some (r, c) =>
            if decide (k ∈ cache_audio (scene m)) then
              if (maxConcurrent c <=? Z.of_nat (List.length (playingSounds c)))%Z then
                if interrupts c then start_sound k e cfg r (evict_oldest r m)
                else (None, m)
              else start_sound k e cfg r m
            else (None, m)
        end
    end.

(** [fadeOutSound(sound, duration, onComplete)]: the tween is handed to the
    host and not kept in [fadeTweens]. *)
Definition fadeOutSound (h : handle) (d : Z) (cb : option FadeCallback)
    (m : Manager) : Manager :=
  set_scene (fun sc => (tweens_add (mkTween h 0 d (Some cb)) sc).2) m.

Definition getCategoryBySound (m : Manager) (k : string) : option SoundCategory :=
  match sounds m !! k with
  | Some e => snd <$> get_category m (category e)
  | None => None
  end.

Definition stopBGM (m : Manager) : Manager :=
  match bgmSound m, currentBGM m with
  | Some h, Some k =>
      if decide (k = "") then m
      else
        match fade_duration (getCategoryBySound m k ≫= fadeOutDuration) with
        | Some d => fadeOutSound h d (Some ClearBGM) m
        | None => set_bgm None None (sound_stop h m)
        end
  | _, _ => m
  end.

Definition playBGM (k : string) (cfg : SoundConfig) (m : Manager) : Manager :=
  let m := stopBGM m in
  match playSound k cfg m with
  | (Some h, m) => set_bgm (Some k) (Some h) m
  | (None, m) => m
  end.

(** [category.playingSounds.length = 0] on the record at [r]. *)
Definition clear_playing (r : catref) (m : Manager) : Manager :=
  match store m !! r with
  | Some c => set_store <[r := with_playing [] c]> m
  | None => m
  end.

Definition stopCategory (n : string) (m : Manager) : Manager :=
  match get_category m n with
  | Some (r, c) =>
      clear_playing r (foldl (fun m h => sound_stop h m) m (playingSounds c))
  | None => m
  end.

(** [clearFadeTweens]: a tween that is still running is stopped, which takes
    it off the host without running its completion. *)
Definition clearFadeTweens (m : Manager) : Manager :=
  let m := foldl (fun m e => set_scene (set_tweens (delete e.2)) m) m (fadeTweens m) in
  set_fadeTweens [] m.

Definition stopAll (m : Manager) : Manager :=
  let m := scene_stopAll m in
  let m := foldl (fun m e => clear_playing e.2 m) m (categories m) in
  let m := set_bgm None None m in
  clearFadeTweens m.

(** The loop both volume setters run over the playing sounds of a record. *)
Definition apply_volume (r : catref) (m : Manager) : Manager :=
  match store m !! r with
  | Some c =>
      foldl (fun m h => sound_setVolume h (volume c * globalVolume m) m) m
            (playingSounds c)
  | None => m
  end.

Definition setCategoryVolume (n : string) (v : Qc) (m : Manager) : Manager :=
  match get_category m n with
  | Some (r, c) =>
      apply_volume r (set_store <[r := with_volume (Clamp v 0 1) c]> m)
  | None => m
  end.

Definition setGlobalVolume (v : Qc) (m : Manager) : Manager :=
  let m := set_globalVolume (Clamp v 0 1) m in
  foldl (fun m e => apply_volume e.2 m) m (categories m).

Definition setMuted (muted : bool) (m : Manager) : Manager :=
  let m := set_isMuted muted m in
  if muted then set_scene pauseAll m else set_scene resumeAll m.

Definition toggleMute (m : Manager) : Manager := setMuted (negb (isMuted m)) m.

Definition getCurrentBGM (m : Manager) : option string := currentBGM m.

Definition isMutedState (m : Manager) : bool := isMuted m.

(** [o[name] = v] on an object made by [{}], for a number [v].  The name
    [__proto__] is the accessor that every such object inherits; its setter
    ignores a value that is neither an object nor [null], so the assignment
    makes no property.  Under every other name, the name of an inherited
    method too, the object gets a property of its own. *)
Definition object_set (k : string) (v : Qc) (o : gmap string Qc) : gmap string Qc :=
  if decide (k = "__proto__") then o else <[k := v]> o.

Definition saveSettings (m : Manager) : SoundManagerSettings :=
  let categoryVolumes :=
    foldl (fun o e =>
             match store m !! e.2 with
             | Some c => object_set e.1 (volume c) o
             | None => o
             end) ∅ (categories m) in
  mkSettings (globalVolume m) (isMuted m) categoryVolumes.

Definition loadSettings (s : SoundManagerSettings) (m : Manager) : Manager :=
  let m := setGlobalVolume (s_globalVolume s) m in
  let m := setMuted (s_isMuted s) m in
  foldl (fun m e => setCategoryVolume e.1 e.2 m) m (map_to_list (s_categoryVolumes s)).

Definition dispose (m : Manager) : Manager :=
  let m := stopAll m in
  let m := clearFadeTweens m in
  mkManager (scene m) (assetManager m) ∅ [] (currentBGM m) (bgmSound m)
            (globalVolume m) (isMuted m) (fadeTweens m) (store m) (next_ref m).

(** ** Host events *)

(** A tween reaches its end: the target takes the final volume, the tween
    leaves the host, and its completion runs. *)
Definition tween_complete (i : nat) (m : Manager) : Manager :=
  match tweens (scene m) !! i with
  | Some tw =>
      let m := set_scene (set_tweens (delete i)) m in
      let m := sound_setVolume (tw_target tw) (tw_volume tw) m in
      match tw_done tw with
      | None => m
      | Some cb =>
          let m := sound_stop (tw_target tw) m in
          match cb with
          | Some ClearBGM => set_bgm None None m
          | None => m
          end
      end
  | None => m
  end.

(** ** Histories

    Everything that can happen to a manager between two observations: a call
    of a public method, or an event delivered by the host.  The scene events
    [shutdown] and [destroy] run [stopAll] and [dispose]; [SoundStopped] is
    a [stop] on a handle from outside the manager (the caller holds what
    [playSound] returned); [AssetCached] and [AssetUncached] are changes of
    the audio cache. *)
Inductive Op :=
| DefineCategory (n : string) (cfg : SoundCategoryConfig)
| RegisterSound (k cat : string) (p : list string) (cfg : option SoundConfig)
| PlaySound (k : string) (cfg : SoundConfig)
| PlayBGM (k : string) (cfg : SoundConfig)
| StopBGM
| FadeOutSound (h : handle) (d : Z)
| StopCategory (n : string)
| StopAll
| SetCategoryVolume (n : string) (v : Qc)
| SetGlobalVolume (v : Qc)
| SetMuted (b : bool)
| ToggleMute
| LoadSettings (s : SoundManagerSettings)
| Dispose
| SoundCompleted (h : handle)
| SoundStopped (h : handle)
| TweenCompleted (i : nat)
| AssetCached (k : string)
| AssetUncached (k : string).

Definition run (op : Op) (m : Manager) : Manager :=
  match op with
  | DefineCategory n cfg => defineCategory n cfg m
  | RegisterSound k cat p cfg => registerSound k cat p cfg m
  | PlaySound k cfg => (playSound k cfg m).2
  | PlayBGM k cfg => playBGM k cfg m
  | StopBGM => stopBGM m
  | FadeOutSound h d => fadeOutSound h d None m
  | StopCategory n => stopCategory n m
  | StopAll => stopAll m
  | SetCategoryVolume n v => setCategoryVolume n v m
  | SetGlobalVolume v => setGlobalVolume v m
  | SetMuted b => setMuted b m
  | ToggleMute => toggleMute m
  | LoadSettings s => loadSettings s m
  | Dispose => dispose m
  | SoundCompleted h => sound_complete h m
  | SoundStopped h => sound_stop h m
  | TweenCompleted i => tween_complete i m
  | AssetCached k => set_scene (set_cache (union {[k]})) m
  | AssetUncached k => set_scene (set_cache (fun s => s ∖ {[k]})) m
  end.

Definition run_all (ops : list Op) (m : Manager) : Manager :=
  foldl (fun m op => run op m) m ops.

(** A host scene as the manager may find it: every sound it holds was
    created before [next_handle]. *)
Definition scene_ok (sc : Scene) : Prop :=
  ∀ h, is_Some (objects sc !! h) → (h < next_handle sc)%nat.

Inductive reachable : Manager -> Prop :=
| reach_new sc am : scene_ok sc -> reachable (new_manager sc am)
| reach_step m op : reachable m -> reachable (run op m).

(** ** Invariants, observations and concrete histories *)

Local Close Scope Qc_scope.

(** A volume of the unit interval. *)
Definition in_unit (x : Qc) : Prop := (0 ≤ x)%Qc ∧ (x ≤ 1)%Qc.

Global Instance in_unit_dec x : Decision (in_unit x).
Proof. unfold in_unit. apply _. Defined.

(** [shrinks m m']: from [m] to [m'] no record gained a playing sound or
    changed its limit, every volume is either the one it was or a clamped
    one, no record and no sound object appeared or vanished, and the table
    of categories is the same. *)
Record shrinks (m m' : Manager) : Prop := mkShrinks {
  shr_store : ∀ r c', store m' !! r = Some c' →
    ∃ c, store m !! r = Some c ∧ playingSounds c' `sublist_of` playingSounds c ∧
         maxConcurrent c' = maxConcurrent c ∧
         (volume c' = volume c ∨ in_unit (volume c'));
  shr_refs : ∀ r, is_Some (store m !! r) → is_Some (store m' !! r);
  shr_objs : ∀ h, is_Some (objects (scene m) !! h) ↔ is_Some (objects (scene m') !! h);
  shr_next : next_handle (scene m') = next_handle (scene m);
  shr_cats : categories m' = categories m;
  shr_nref : next_ref m' = next_ref m;
  shr_gvol : globalVolume m' = globalVolume m ∨ in_unit (globalVolume m')
}.

(** Host-side updates that keep the set of sound objects. *)
Definition keeps_sounds (f : Scene → Scene) : Prop :=
  ∀ sc, next_handle (f sc) = next_handle sc ∧
        ∀ h, is_Some (objects sc !! h) ↔ is_Some (objects (f sc) !! h).

(** The concurrency bound, for every category record that has a positive
    limit. *)
Definition within_limit (m : Manager) : Prop :=
  ∀ r c, store m !! r = Some c → 0 < maxConcurrent c →
         Z.of_nat (List.length (playingSounds c)) ≤ maxConcurrent c.

(** How handles and records hang together: a list of playing sounds has no
    repetition, holds only sounds the host knows, and shares no sound with
    another record; new handles and new records get unused addresses;
    category names and the records registered under them are pairwise
    distinct. *)
Record well_formed (m : Manager) : Prop := mkWellFormed {
  wf_nodup : ∀ r c, store m !! r = Some c → NoDup (playingSounds c);
  wf_live : ∀ r c h, store m !! r = Some c → h ∈ playingSounds c →
                     is_Some (objects (scene m) !! h);
  wf_owner : ∀ r1 r2 c1 c2 h, store m !! r1 = Some c1 → store m !! r2 = Some c2 →
                     h ∈ playingSounds c1 → h ∈ playingSounds c2 → r1 = r2;
  wf_fresh : ∀ h, is_Some (objects (scene m) !! h) → (h < next_handle (scene m))%nat;
  wf_names : NoDup (categories m).*1;
  wf_refs : NoDup (categories m).*2;
  wf_stored : ∀ n r, (n, r) ∈ categories m → is_Some (store m !! r);
  wf_next : ∀ r, is_Some (store m !! r) → (r < next_ref m)%nat
}.

(** The operations that can lower the mute flag. *)
Definition unmutes (op : Op) : bool :=
  match op with
  | SetMuted b => negb b
  | ToggleMute => true
  | LoadSettings s => negb (s_isMuted s)
  | _ => false
  end.

Definition empty_scene : Scene := mkScene ∅ ∅ 0%nat ∅ 0%nat.

Definition voice_history : list Op :=
  [ RegisterSound "line" "voice" ["line.mp3"] None;
    AssetCached "line";
    PlaySound "line" no_config;
    PlaySound "line" no_config ].

(** The cases in which [playSound] declines to play [k]. *)
Definition refused (m : Manager) (k : string) : Prop :=
  isMuted m = true ∨
  sounds m !! k = None ∨
  (∃ e, sounds m !! k = Some e ∧ get_category m (category e) = None) ∨
  k ∉ cache_audio (scene m) ∨
  (∃ e r c, sounds m !! k = Some e ∧ get_category m (category e) = Some (r, c) ∧
            maxConcurrent c ≤ Z.of_nat (List.length (playingSounds c)) ∧
            interrupts c = false).

Definition paused (p : Playback) : Playback :=
  match p with Playing => Paused | _ => p end.

Definition resumed (p : Playback) : Playback :=
  match p with Paused => Playing | _ => p end.

(** What reading the volume of a sound object gives. *)
Definition volume_of (m : Manager) (h : handle) : option Qc :=
  s_volume <$> objects (scene m) !! h.

Definition ui_history : list Op :=
  [ RegisterSound "click" "ui" ["click.mp3"] None;
    AssetCached "click";
    PlaySound "click" no_config ].

(** The stored volume of the category registered under a name. *)
Definition category_volume (m : Manager) (n : string) : option Qc :=
  (λ rc, volume rc.2) <$> get_category m n.

Definition volumes_in_unit (m : Manager) : bool :=
  forallb (λ e, match store m !! e.2 with
                | Some c => bool_decide (in_unit (volume c))
                | None => true
                end) (categories m).

Definition tuned_history : list Op :=
  [ SetCategoryVolume "ui" (q 1 2); SetGlobalVolume (q 3 4); SetMuted true ].

Definition loud : SoundCategoryConfig :=
  mkCategoryConfig (Some (q 2 1)) None None None None None.

Definition soft : SoundCategoryConfig :=
  mkCategoryConfig (Some (q 1 2)) None None None None None.

Definition bgm_scene : Scene := mkScene {["a"; "b"]} ∅ 0%nat ∅ 0%nat.

Definition bgm_history : list Op :=
  [ DefineCategory "bgm"
      (mkCategoryConfig None None (Some 1) (Some true) None (Some 1000));
    RegisterSound "a" "bgm" ["a.mp3"] None;
    RegisterSound "b" "bgm" ["b.mp3"] None ].

Definition muted_history : list Op :=
  [ RegisterSound "line" "voice" ["line.mp3"] None;
    AssetCached "line";
    PlaySound "line" no_config;
    SetMuted true ].

Definition limit_zero_history : list Op :=
  [ DefineCategory "none"
      (mkCategoryConfig None None (Some 0) (Some true) None None);
    RegisterSound "x" "none" ["x.mp3"] None;
    AssetCached "x" ].

Definition voice_playing : list Op :=
  [ RegisterSound "line" "voice" ["line.mp3"] None;
    AssetCached "line";
    PlaySound "line" no_config ].

(** Every stored volume lies in the unit interval. *)
Definition unit_volumes (m : Manager) : Prop :=
  in_unit (globalVolume m) ∧ ∀ r c, store m !! r = Some c → in_unit (volume c).

(** [defineCategory] is called with a volume of the unit interval, or with
    none. *)
Definition defines_in_unit (op : Op) : Prop :=
  match op with
  | DefineCategory _ cfg => from_option in_unit True (cc_volume cfg)
  | _ => True
  end.

Global Instance Playback_eq_dec : EqDecision Playback.
Proof. solve_decision. Defined.

(** Every sound a record tracks is a host sound that is playing or paused
    and still carries the two listeners that take it off that record. *)
Definition alive (m : Manager) : Prop :=
  ∀ r c h, store m !! r = Some c → h ∈ playingSounds c →
    ∃ s, objects (scene m) !! h = Some s ∧ s_state s ≠ Idle ∧
         r ∈ s_once_complete s ∧ r ∈ s_once_stop s.

(** From [m] to [m'] no sound that was playing or paused became idle or
    lost a listener. *)
Definition keeps_alive (m m' : Manager) : Prop :=
  ∀ h s, objects (scene m) !! h = Some s → s_state s ≠ Idle →
    ∃ s', objects (scene m') !! h = Some s' ∧ s_state s' ≠ Idle ∧
          s_once_complete s' = s_once_complete s ∧ s_once_stop s' = s_once_stop s.

Definition sane (m : Manager) : Prop := well_formed m ∧ alive m.

(** The sound object at a handle is idle, or there is none. *)
Definition silent (m : Manager) (h : handle) : Prop :=
  ∀ s, objects (scene m) !! h = Some s → s_state s = Idle.

(** No record of the store tracks the handle. *)
Definition untracked (m : Manager) (h : handle) : Prop :=
  ∀ r c, store m !! r = Some c → h ∉ playingSounds c.

(** The registered sounds, the table of categories, the audio cache, the
    global volume and the mute flag are the same in [m'] as in [m]. *)
Definition same_book (m m' : Manager) : Prop :=
  sounds m' = sounds m ∧ categories m' = categories m ∧
  cache_audio (scene m') = cache_audio (scene m) ∧
  globalVolume m' = globalVolume m ∧ isMuted m' = isMuted m.

(** The state a sound that is not idle is left in by two calls of
    [toggleMute], the first of which found the flag at [muted]. *)
Definition settled (muted : bool) (p : Playback) : Playback :=
  match p with
  | Idle => Idle
  | _ => if muted then Paused else Playing
  end.

(** A registered sound names itself and a category that exists. *)
Definition sounds_ok (m : Manager) : Prop :=
  ∀ k e, sounds m !! k = Some e →
         key e = k ∧ category e ∈ (categories m).*1.

(** A scene with one sound in the audio cache, and the sound registered as
    music. *)
Definition theme_scene : Scene := mkScene {["theme"]} ∅ 0%nat ∅ 0%nat.

Definition theme_registered : list Op :=
  [ RegisterSound "theme" "bgm" ["theme.mp3"] None ].

(** A line of the category [voice] played as music. *)
Definition voice_as_music : list Op :=
  [ RegisterSound "line" "voice" ["line.mp3"] None;
    AssetCached "line";
    PlayBGM "line" no_config ].

(** A call that asks for half volume. *)
Definition half_volume : SoundConfig :=
  mkSoundConfig (Some (q 1 2)) None None None None None.

End SoundManager.

(* ===================================================================== *)
(** * Properties of ColorUtils *)
(* ===================================================================== *)

Module ColorUtilsSpec.
Import ColorUtils.

Example numberToHex_red : numberToHex 16711680 = "#FF0000".
Proof. reflexivity. Qed.

Example numberToHex_small : numberToHex 171 = "#0000AB".
Proof. reflexivity. Qed.

Example hexToNumber_sky : hexToNumber "#87CEEB" = Some 8900331.
Proof. reflexivity. Qed.

Example hexToNumber_nohash : hexToNumber "00bfff" = Some 49151.
Proof. reflexivity. Qed.

Example roundtrip_negative : hexToNumber (numberToHex (-255)) = Some 0.
Proof. reflexivity. Qed.

Lemma small_digit_cases (d : N) (P : N -> Prop) :
  (d < 16)%N ->
  P 0%N -> P 1%N -> P 2%N -> P 3%N -> P 4%N -> P 5%N -> P 6%N -> P 7%N ->
  P 8%N -> P 9%N -> P 10%N -> P 11%N -> P 12%N -> P 13%N -> P 14%N -> P 15%N ->
  P d.
Proof.
  intros Hd.
  destruct d as [|p]; [tauto|].
  do 4 (destruct p as [p|p|]; try tauto; try (exfalso; lia)).
Qed.

Lemma hexchar_value d : (d < 16)%N -> hex_value (hexchar d) = Some (Z.of_N d).
Proof. intros Hd. pattern d. apply small_digit_cases; auto. Qed.

Lemma hexchar_upper d : (d < 16)%N -> is_upper_hex (hexchar d) = true.
Proof. intros Hd. pattern d. apply small_digit_cases; auto. Qed.

Lemma hexchar_plain d :
  (d < 16)%N ->
  is_space (hexchar d) = false /\ Ascii.eqb (hexchar d) "-" = false /\
  Ascii.eqb (hexchar d) "+" = false /\ Ascii.eqb (hexchar d) "x" = false /\
  Ascii.eqb (hexchar d) "X" = false.
Proof. intros Hd. pattern d. apply small_digit_cases; auto. Qed.

Lemma digits16_unfold n :
  digits16 n = if (n <? 16)%N then [n] else (digits16 (n / 16)%N ++ [(n mod 16)%N])%list.
Proof.
  funelim (digits16 n).
  - rewrite e. reflexivity.
  - rewrite Hge. reflexivity.
Qed.

Lemma digits16_small n : Forall (fun d => (d < 16)%N) (digits16 n).
Proof.
  funelim (digits16 n).
  - constructor; [|constructor]. apply N.ltb_lt; assumption.
  - apply Forall_app; split; [assumption|].
    constructor; [|constructor]. apply N.mod_lt. lia.
Qed.

Lemma horner_app acc ds es : horner acc (ds ++ es)%list = horner (horner acc ds) es.
Proof. unfold horner. apply fold_left_app. Qed.

Lemma digits16_horner n : horner 0 (digits16 n) = Z.of_N n.
Proof.
  funelim (digits16 n).
  - cbn. lia.
  - rewrite horner_app. 
    match goal with IH : horner _ _ = _ |- _ => rewrite IH end.
    cbn. rewrite (N.div_mod n 16) at 3 by lia. lia.
Qed.

Lemma digits16_length n k :
  (n < 16 ^ N.of_nat k)%N -> (0 < k)%nat -> (List.length (digits16 n) <= k)%nat.
Proof.
  revert k. funelim (digits16 n); intros k Hn Hk.
  - cbn. lia.
  - rewrite length_app. cbn. pose proof (proj1 (N.ltb_ge _ _) Hge) as Hge'.
    destruct k as [|k]; [lia|].
    destruct k as [|k]; [cbn in Hn; lia|].
    assert ((List.length (digits16 (n / 16)%N) <= S k)%nat); [|lia].
    match goal with IH : forall k, _ -> _ -> (List.length _ <= k)%nat |- _ => apply IH end; [|lia].
    apply N.Div0.div_lt_upper_bound.
    replace (N.of_nat (S (S k))) with (N.succ (N.of_nat (S k))) in Hn by lia.
    rewrite N.pow_succ_r' in Hn. assumption.
Qed.

Lemma horner_zeros k ds : horner 0 (replicate k 0%N ++ ds)%list = horner 0 ds.
Proof. induction k; [reflexivity|]. cbn. exact IHk. Qed.

Lemma hexstr_cons d ds : hexstr (d :: ds) = String (hexchar d) (hexstr ds).
Proof. reflexivity. Qed.

Lemma read_digits_hexstr acc ds :
  Forall (fun d => (d < 16)%N) ds ->
  read_digits acc (hexstr ds) =
    match ds with [] => acc | _ => Some (horner (default 0%Z acc) ds) end.
Proof.
  intros H. revert acc. induction H as [|d ds Hd Hds IH]; intros acc; [reflexivity|].
  rewrite hexstr_cons. cbn [read_digits]. rewrite (hexchar_value d Hd).
  rewrite IH. destruct ds; reflexivity.
Qed.

Lemma parseInt16_hexstr ds :
  Forall (fun d => (d < 16)%N) ds -> ds <> [] ->
  parseInt16 (hexstr ds) = Some (horner 0 ds).
Proof.
  intros H Hne. destruct H as [|d ds Hd Hds]; [congruence|].
  destruct (hexchar_plain d Hd) as (Hsp & Hm & Hp & Hx & HX).
  unfold parseInt16. rewrite hexstr_cons. cbn [skip_spaces]. rewrite Hsp.
  cbn [strip_sign]. rewrite Hm, Hp.
  assert (Hs : strip_0x (String (hexchar d) (hexstr ds)) = String (hexchar d) (hexstr ds)).
  { destruct Hds as [|d' ds' Hd' Hds']; [reflexivity|].
    rewrite hexstr_cons. cbn [strip_0x].
    destruct (hexchar_plain d' Hd') as (_ & _ & _ & Hx' & HX').
    rewrite Hx', HX'. rewrite andb_false_r. reflexivity. }
  rewrite Hs. rewrite <- hexstr_cons.
  rewrite read_digits_hexstr by (constructor; assumption).
  cbn [fmap option_fmap option_map default]. f_equal. lia.
Qed.

Lemma toUpperCase_digits ds :
  toUpperCase (string_of_chars (map digit_char ds)) = hexstr ds.
Proof.
  unfold hexstr, string_of_chars.
  induction ds as [|d ds IH]; [reflexivity|].
  cbn [map fold_right toUpperCase]. rewrite IH. reflexivity.
Qed.

Lemma hexstr_length ds : String.length (hexstr ds) = List.length ds.
Proof.
  induction ds as [|d ds IH]; [reflexivity|].
  rewrite hexstr_cons. cbn [String.length List.length]. rewrite IH. reflexivity.
Qed.

Lemma fill_zero k cur :
  cur = ""%string \/ cur = "0"%string -> fill_to k "0"%string cur = hexstr (replicate k 0%N).
Proof.
  revert cur. induction k; intros cur Hc; [reflexivity|].
  destruct Hc; subst; cbn [fill_to replicate]; rewrite hexstr_cons;
    (f_equal; try reflexivity; apply IHk; auto).
Qed.

Lemma hexstr_app ds es : hexstr (ds ++ es)%list = (hexstr ds ++ hexstr es)%string.
Proof.
  induction ds as [|d ds IH]; [reflexivity|].
  cbn [app]. rewrite !hexstr_cons. cbn [String.append]. rewrite IH. reflexivity.
Qed.

Lemma padStart_hexstr ds :
  padStart 6 "0"%string (hexstr ds) = hexstr (replicate (6 - List.length ds) 0%N ++ ds)%list.
Proof.
  unfold padStart. rewrite hexstr_length.
  destruct (Nat.leb_spec 6 (List.length ds)) as [H|H].
  - replace (6 - List.length ds)%nat with 0%nat by lia. reflexivity.
  - rewrite hexstr_app. f_equal. apply fill_zero. auto.
Qed.

Lemma numberToHex_hexstr n :
  (0 <= n)%Z ->
  numberToHex n =
    String "#"%char (hexstr (replicate (6 - List.length (digits16 (Z.to_N n))) 0%N ++ digits16 (Z.to_N n))%list).
Proof.
  intros Hn. unfold numberToHex, toString16.
  destruct (Z.ltb_spec n 0); [lia|].
  replace (Z.abs_N n) with (Z.to_N n) by lia.
  rewrite toUpperCase_digits, padStart_hexstr. reflexivity.
Qed.

Lemma all_upper_hexstr ds :
  Forall (fun d => (d < 16)%N) ds -> all_chars is_upper_hex (hexstr ds) = true.
Proof.
  induction 1 as [|d ds Hd Hds IH]; [reflexivity|].
  rewrite hexstr_cons. cbn. rewrite hexchar_upper by assumption. exact IH.
Qed.

Lemma digits16_nonempty n : digits16 n <> [].
Proof.
  rewrite digits16_unfold. destruct (n <? 16)%N; [discriminate|].
  destruct (digits16 (n / 16)); discriminate.
Qed.

Lemma replace_hash s : replace "#"%string ""%string (String "#"%char s) = s.
Proof. destruct s; reflexivity. Qed.

(** Claim C10.  For every integer [n] from 0 to 0xFFFFFF, [numberToHex n] is
    a [#] followed by six upper-case hexadecimal digits, and [hexToNumber]
    reads it back as [n]. *)
Theorem hex_roundtrip (n : Z) :
  (0 <= n <= 16777215)%Z ->
  hexToNumber (numberToHex n) = Some n /\
  exists body, numberToHex n = String "#"%char body /\
               String.length body = 6%nat /\
               all_chars is_upper_hex body = true.
Proof.
  intros [Hlo Hhi].
  rewrite (numberToHex_hexstr n Hlo).
  set (ds := (replicate _ _ ++ _)%list).
  assert (Hds : Forall (fun d => (d < 16)%N) ds).
  { apply Forall_app; split; [|apply digits16_small].
    apply Forall_replicate. lia. }
  assert (Hlen : (List.length (digits16 (Z.to_N n)) <= 6)%nat).
  { apply digits16_length; [|lia]. change (16 ^ N.of_nat 6)%N with 16777216%N. lia. }
  split.
  - unfold hexToNumber.
    rewrite replace_hash.
    rewrite parseInt16_hexstr; try assumption.
    + subst ds. rewrite horner_zeros, digits16_horner. f_equal. lia.
    + subst ds. intros Heq. apply app_eq_nil in Heq. destruct Heq as [_ Heq].
      exact (digits16_nonempty _ Heq).
  - exists (hexstr ds). split; [reflexivity|]. split.
    + rewrite hexstr_length. subst ds. rewrite length_app, length_replicate. lia.
    + apply all_upper_hexstr. assumption.
Qed.

(** Claim C10, at the colour 0x00BFFF. *)
Lemma hex_roundtrip_witness :
  (0 <= 49151 <= 16777215)%Z ∧
  numberToHex 49151 = "#00BFFF"%string ∧
  hexToNumber (numberToHex 49151) = Some 49151%Z.
Proof.
  assert (H : (0 <= 49151 <= 16777215)%Z) by lia.
  split; [exact H|]. split; [reflexivity|].
  exact (proj1 (hex_roundtrip 49151 H)).
Defined.

(** *** More on digits *)

Lemma append_cons a s t : (String a s ++ t)%string = String a (s ++ t)%string.
Proof. reflexivity. Qed.

Lemma digits16_digit d : (d < 16)%N → digits16 d = [d].
Proof.
  intros Hd. rewrite digits16_unfold.
  destruct (N.ltb_spec d 16); [reflexivity|lia].
Qed.

Lemma digits16_snoc h d :
  (0 < h)%N → (d < 16)%N → digits16 (16 * h + d) = (digits16 h ++ [d])%list.
Proof.
  intros Hh Hd. rewrite digits16_unfold.
  destruct (N.ltb_spec (16 * h + d) 16); [lia|].
  assert (Hq : ((16 * h + d) / 16 = h)%N).
  { symmetry. apply (N.div_unique _ _ h d); [assumption|lia]. }
  assert (Hr : ((16 * h + d) mod 16 = d)%N).
  { symmetry. apply (N.mod_unique _ _ h d); [assumption|lia]. }
  rewrite Hq, Hr. reflexivity.
Qed.

Lemma digits16_length_lower n k :
  (16 ^ N.of_nat k ≤ n)%N → (k < List.length (digits16 n))%nat.
Proof.
  revert n. induction k as [|k IH]; intros n Hn.
  - pose proof (digits16_nonempty n). destruct (digits16 n); [congruence|cbn; lia].
  - replace (N.of_nat (S k)) with (N.succ (N.of_nat k)) in Hn by lia.
    rewrite N.pow_succ_r' in Hn.
    assert (1 ≤ 16 ^ N.of_nat k)%N.
    { pose proof (N.pow_nonzero 16 (N.of_nat k)). lia. }
    rewrite digits16_unfold. destruct (N.ltb_spec n 16); [lia|].
    rewrite length_app. cbn.
    assert (k < List.length (digits16 (n / 16)))%nat; [|lia].
    apply IH. apply N.div_le_lower_bound; lia.
Qed.

Lemma horner_nonneg ds : 0 ≤ horner 0 ds.
Proof.
  induction ds as [|d ds IH] using rev_ind; [done|].
  rewrite horner_app. cbn. lia.
Qed.

Lemma horner_snoc ds d : horner 0 (ds ++ [d]) = 16 * horner 0 ds + Z.of_N d.
Proof. rewrite horner_app. reflexivity. Qed.

Lemma horner_zero ds : horner 0 ds = 0 → ds = replicate (List.length ds) 0%N.
Proof.
  induction ds as [|d ds IH] using rev_ind; [done|].
  rewrite horner_snoc. intros H. pose proof (horner_nonneg ds).
  rewrite length_app. cbn [List.length].
  replace (List.length ds + 1)%nat with (S (List.length ds)) by lia.
  rewrite replicate_S_end. rewrite <- IH by lia. f_equal. f_equal. lia.
Qed.

(** Writing the value of a digit string gives the string back, but for
    leading zeros. *)
Lemma digits16_of_horner ds :
  Forall (λ d, (d < 16)%N) ds → ds ≠ [] →
  (replicate (List.length ds - List.length (digits16 (Z.to_N (horner 0 ds)))) 0%N
     ++ digits16 (Z.to_N (horner 0 ds)))%list = ds.
Proof.
  induction ds as [|d ds IH] using rev_ind; [done|].
  intros Hall _. apply Forall_app in Hall as [Hds Hd].
  rewrite Forall_singleton in Hd.
  rewrite horner_snoc. pose proof (horner_nonneg ds) as Hnn.
  replace (Z.to_N (16 * horner 0 ds + Z.of_N d))
    with (16 * Z.to_N (horner 0 ds) + d)%N by lia.
  rewrite length_app. cbn [List.length].
  destruct (decide (horner 0 ds = 0)) as [Hz|Hz].
  - rewrite Hz. change (16 * Z.to_N 0 + d)%N with d.
    rewrite digits16_digit by (cbv beta in Hd; lia). cbn [List.length].
    replace (List.length ds + 1 - 1)%nat with (List.length ds) by lia.
    rewrite <- (horner_zero ds Hz). reflexivity.
  - assert (Hne : ds ≠ []) by (intros ->; apply Hz; reflexivity).
    rewrite digits16_snoc by (cbv beta in Hd; lia).
    rewrite length_app. cbn [List.length].
    replace (List.length ds + 1 - (List.length (digits16 (Z.to_N (horner 0 ds))) + 1))%nat
      with (List.length ds - List.length (digits16 (Z.to_N (horner 0 ds))))%nat by lia.
    rewrite app_assoc. rewrite (IH Hds Hne). reflexivity.
Qed.

Lemma upper_hex_char c :
  is_upper_hex c = true → ∃ d, (d < 16)%N ∧ hexchar d = c.
Proof.
  intros H. exists (Z.to_N (default 0 (hex_value c))).
  destruct c as [[] [] [] [] [] [] [] []]; try discriminate H; split; reflexivity.
Qed.

Lemma upper_hex_string body :
  all_chars is_upper_hex body = true →
  ∃ ds, Forall (λ d, (d < 16)%N) ds ∧ hexstr ds = body ∧
        List.length ds = String.length body.
Proof.
  induction body as [|c body IH]; intros H.
  - exists []. repeat split. constructor.
  - cbn [all_chars] in H. apply andb_prop in H as [Hc Hb].
    destruct (upper_hex_char c Hc) as (d & Hd & <-).
    destruct (IH Hb) as (ds & Hds & <- & Hlen).
    exists (d :: ds). split; [constructor; assumption|]. split; [reflexivity|].
    cbn [List.length String.length]. rewrite Hlen. reflexivity.
Qed.

Lemma strip_0x_hexstr ds :
  Forall (λ d, (d < 16)%N) ds → strip_0x (hexstr ds) = hexstr ds.
Proof.
  intros H. destruct H as [|d ds Hd Hds]; [reflexivity|].
  destruct Hds as [|d' ds' Hd' Hds']; [reflexivity|].
  rewrite !hexstr_cons. cbn [strip_0x].
  destruct (hexchar_plain d' Hd') as (_ & _ & _ & Hx' & HX').
  rewrite Hx', HX'. rewrite andb_false_r. reflexivity.
Qed.

Lemma read_digits_stop acc ds c t :
  Forall (λ d, (d < 16)%N) ds → hex_value c = None →
  read_digits acc (hexstr ds ++ String c t) = read_digits acc (hexstr ds).
Proof.
  intros H Hc. revert acc. induction H as [|d ds Hd Hds IH]; intros acc.
  - change (hexstr [] ++ String c t)%string with (String c t).
    cbn [read_digits]. rewrite Hc. reflexivity.
  - rewrite hexstr_cons.
    change (read_digits acc (String (hexchar d) (hexstr ds ++ String c t)) =
            read_digits acc (String (hexchar d) (hexstr ds))).
    cbn [read_digits]. rewrite (hexchar_value d Hd). apply IH.
Qed.

(** *** Characters under [toUpperCase] *)

Lemma upper_char_hex_value c : hex_value (upper_char c) = hex_value c.
Proof. destruct c as [[] [] [] [] [] [] [] []]; reflexivity. Qed.

Lemma upper_char_space c : is_space (upper_char c) = is_space c.
Proof. destruct c as [[] [] [] [] [] [] [] []]; reflexivity. Qed.

Lemma upper_char_marks c :
  Ascii.eqb (upper_char c) "-" = Ascii.eqb c "-" ∧
  Ascii.eqb (upper_char c) "+" = Ascii.eqb c "+" ∧
  Ascii.eqb (upper_char c) "#" = Ascii.eqb c "#" ∧
  Ascii.eqb (upper_char c) "0" = Ascii.eqb c "0" ∧
  (Ascii.eqb (upper_char c) "x" || Ascii.eqb (upper_char c) "X") =
    (Ascii.eqb c "x" || Ascii.eqb c "X").
Proof. destruct c as [[] [] [] [] [] [] [] []]; repeat split; reflexivity. Qed.

Lemma replace_hash_cons c s :
  replace "#" "" (String c s) =
    if Ascii.eqb c "#" then s else String c (replace "#" "" s).
Proof. destruct c as [[] [] [] [] [] [] [] []]; destruct s; reflexivity. Qed.

Lemma replace_hash_upper s :
  replace "#" "" (toUpperCase s) = toUpperCase (replace "#" "" s).
Proof.
  induction s as [|c s IH]; [reflexivity|].
  cbn [toUpperCase]. rewrite !replace_hash_cons.
  destruct (upper_char_marks c) as (_ & _ & -> & _).
  destruct (Ascii.eqb c "#"); [reflexivity|].
  cbn [toUpperCase]. rewrite IH. reflexivity.
Qed.

Lemma skip_spaces_upper s :
  skip_spaces (toUpperCase s) = toUpperCase (skip_spaces s).
Proof.
  induction s as [|c s IH]; [reflexivity|].
  cbn [toUpperCase skip_spaces]. rewrite upper_char_space.
  destruct (is_space c); [exact IH|reflexivity].
Qed.

Lemma strip_sign_upper s :
  strip_sign (toUpperCase s) = ((strip_sign s).1, toUpperCase (strip_sign s).2).
Proof.
  destruct s as [|c s]; [reflexivity|].
  cbn [toUpperCase strip_sign].
  destruct (upper_char_marks c) as (-> & -> & _).
  destruct (Ascii.eqb c "-"); [reflexivity|].
  destruct (Ascii.eqb c "+"); reflexivity.
Qed.

Lemma strip_0x_upper s : strip_0x (toUpperCase s) = toUpperCase (strip_0x s).
Proof.
  destruct s as [|a [|b s]]; try reflexivity.
  cbn [toUpperCase strip_0x].
  destruct (upper_char_marks a) as (_ & _ & _ & -> & _).
  destruct (upper_char_marks b) as (_ & _ & _ & _ & ->).
  destruct (Ascii.eqb a "0" && (Ascii.eqb b "x" || Ascii.eqb b "X")); reflexivity.
Qed.

Lemma read_digits_upper acc s : read_digits acc (toUpperCase s) = read_digits acc s.
Proof.
  revert acc. induction s as [|c s IH]; intros acc; [reflexivity|].
  cbn [toUpperCase read_digits]. rewrite upper_char_hex_value.
  destruct (hex_value c); [apply IH|reflexivity].
Qed.

Lemma parseInt16_upper s : parseInt16 (toUpperCase s) = parseInt16 s.
Proof.
  unfold parseInt16. rewrite skip_spaces_upper, strip_sign_upper.
  destruct (strip_sign (skip_spaces s)) as [sign body]. cbn [fst snd].
  rewrite strip_0x_upper, read_digits_upper. reflexivity.
Qed.

(** *** The properties *)

(** Property X1.  For every integer [n] from 0 to [Number.MAX_SAFE_INTEGER],
    [hexToNumber] reads [numberToHex n] back as [n]; above 0xFFFFFF nothing
    is cut off: the string then has more than six digits. *)
Theorem hex_roundtrip_unbounded (n : Z) :
  0 ≤ n ≤ MAX_SAFE_INTEGER →
  hexToNumber (numberToHex n) = Some n ∧
  (16777215 < n → (7 < String.length (numberToHex n))%nat).
Proof.
  intros [Hlo _].
  rewrite (numberToHex_hexstr n Hlo).
  set (ds := (replicate _ _ ++ _)%list).
  assert (Hds : Forall (λ d, (d < 16)%N) ds).
  { apply Forall_app; split; [|apply digits16_small].
    apply Forall_replicate. lia. }
  split.
  - unfold hexToNumber. rewrite replace_hash.
    rewrite parseInt16_hexstr; try assumption.
    + subst ds. rewrite horner_zeros, digits16_horner. f_equal. lia.
    + subst ds. intros Heq. apply app_eq_nil in Heq. destruct Heq as [_ Heq].
      exact (digits16_nonempty _ Heq).
  - intros Hbig. cbn [String.length]. rewrite hexstr_length. subst ds.
    rewrite length_app.
    assert (6 < List.length (digits16 (Z.to_N n)))%nat; [|lia].
    apply digits16_length_lower. change (16 ^ N.of_nat 6)%N with 16777216%N. lia.
Qed.

(** Property X1, at 0x1000000. *)
Lemma hex_roundtrip_unbounded_witness :
  numberToHex 16777216 = "#1000000"%string ∧
  hexToNumber (numberToHex 16777216) = Some 16777216.
Proof.
  split; [reflexivity|].
  refine (proj1 (hex_roundtrip_unbounded 16777216 _)).
  unfold MAX_SAFE_INTEGER. lia.
Defined.

(** Property X2.  Every string made of [#] and six upper-case hexadecimal
    digits is read by [hexToNumber] as a number from 0 to 0xFFFFFF, and
    [numberToHex] writes that number as the same string. *)
Theorem hex_string_roundtrip (body : string) :
  String.length body = 6%nat →
  all_chars is_upper_hex body = true →
  ∃ n, hexToNumber (String "#" body) = Some n ∧
       0 ≤ n ≤ 16777215 ∧
       numberToHex n = String "#" body.
Proof.
  intros Hlen Hall.
  destruct (upper_hex_string body Hall) as (ds & Hds & <- & Hl).
  rewrite Hlen in Hl.
  assert (Hne : ds ≠ []) by (intros ->; discriminate Hl).
  exists (horner 0 ds). split; [|split].
  - unfold hexToNumber. rewrite replace_hash. apply parseInt16_hexstr; assumption.
  - split; [apply horner_nonneg|].
    pose proof (digits16_of_horner ds Hds Hne) as Hback.
    destruct (Z.le_gt_cases (horner 0 ds) 16777215) as [|Hbig]; [assumption|].
    exfalso.
    assert (6 < List.length (digits16 (Z.to_N (horner 0 ds))))%nat.
    { apply digits16_length_lower. change (16 ^ N.of_nat 6)%N with 16777216%N. lia. }
    apply (f_equal List.length) in Hback. rewrite length_app, length_replicate in Hback.
    lia.
  - rewrite (numberToHex_hexstr _ (horner_nonneg ds)).
    pose proof (digits16_of_horner ds Hds Hne) as Hback.
    rewrite Hl in Hback. rewrite Hback. reflexivity.
Qed.

(** Property X2, at the colour of [SKY_BLUE]. *)
Lemma hex_string_roundtrip_witness :
  ∃ n, hexToNumber "#87CEEB" = Some n ∧ 0 ≤ n ≤ 16777215 ∧
       numberToHex n = "#87CEEB"%string.
Proof. exact (hex_string_roundtrip "87CEEB" eq_refl eq_refl). Defined.

(** Property X3.  [hexToNumber] does not tell lower-case from upper-case
    letters: on ASCII text, a string and its [toUpperCase] are read as the
    same number (or both as NaN). *)
Theorem hexToNumber_ignores_case (s : string) :
  all_chars is_ascii s = true →
  hexToNumber (toUpperCase s) = hexToNumber s.
Proof.
  intros _. unfold hexToNumber. rewrite replace_hash_upper. apply parseInt16_upper.
Qed.

(** Property X3, at a lower-case colour. *)
Lemma hexToNumber_ignores_case_witness :
  hexToNumber "#00BFFF" = hexToNumber "#00bfff" ∧
  hexToNumber "#00bfff" = Some 49151.
Proof.
  split; [|reflexivity].
  exact (hexToNumber_ignores_case "#00bfff" eq_refl).
Defined.

(** Property X4.  [hexToNumber] removes the first [#] wherever it stands,
    and only that one: what is parsed is the text before it followed by
    the text after it. *)
Theorem hexToNumber_drops_first_hash (s1 s2 : string) :
  all_chars not_hash s1 = true →
  hexToNumber (s1 ++ String "#" s2) = parseInt16 (s1 ++ s2).
Proof.
  intros H. unfold hexToNumber. f_equal.
  induction s1 as [|c s1 IH]; [apply replace_hash|].
  cbn [all_chars] in H. apply andb_prop in H as [Hc Hs].
  rewrite append_cons, replace_hash_cons.
  unfold not_hash in Hc. apply negb_true_iff in Hc. rewrite Hc.
  rewrite (IH Hs). reflexivity.
Qed.

(** Property X4, with the [#] in the middle and with two of them. *)
Lemma hexToNumber_drops_first_hash_witness :
  hexToNumber "FF#00" = Some 65280 ∧ hexToNumber "##FF" = None.
Proof.
  split.
  - exact (hexToNumber_drops_first_hash "FF" "00" eq_refl).
  - exact (hexToNumber_drops_first_hash "" "#FF" eq_refl).
Defined.

(** Property X5.  A negative number does not survive the round trip unless
    it has at least five hexadecimal digits: above -0x10000 the minus sign
    ends up behind the padding zeros, and [hexToNumber] reads 0; from
    -0x10000 down nothing is padded and the number is read back. *)
Theorem hex_roundtrip_negative (n : Z) :
  - MAX_SAFE_INTEGER ≤ n < 0 →
  hexToNumber (numberToHex n) = Some (if -65536 <? n then 0 else n).
Proof.
  intros [_ Hneg].
  unfold numberToHex, toString16.
  destruct (Z.ltb_spec n 0) as [_|]; [|lia].
  change (toUpperCase (String "-" ?s)) with (String "-"%char (toUpperCase s)).
  rewrite toUpperCase_digits.
  set (ds := digits16 (Z.abs_N n)).
  assert (Hds : Forall (λ d, (d < 16)%N) ds) by apply digits16_small.
  assert (Hval : horner 0 ds = - n).
  { subst ds. rewrite digits16_horner. lia. }
  assert (Hne : ds ≠ []) by apply digits16_nonempty.
  unfold padStart. cbn [String.length]. rewrite hexstr_length.
  change (String "#" ?s) with (String "#"%char s) at 1.
  destruct (Z.ltb_spec (-65536) n) as [Hsmall|Hbig].
  - assert (Hlen : (List.length ds ≤ 4)%nat).
    { subst ds. apply digits16_length; [|lia].
      change (16 ^ N.of_nat 4)%N with 65536%N. lia. }
    destruct (Nat.leb_spec 6 (S (List.length ds))) as [|_]; [lia|].
    rewrite (fill_zero _ "0"%string) by auto.
    destruct (6 - S (List.length ds))%nat as [|k] eqn:Hk; [lia|].
    unfold hexToNumber.
    change (String.append "#" ?s) with (String "#"%char s).
    rewrite replace_hash.
    cbn [replicate]. rewrite hexstr_cons, append_cons.
    unfold parseInt16.
    change (skip_spaces (String (hexchar 0) ?s)) with (String (hexchar 0) s).
    change (strip_sign (String (hexchar 0) ?s)) with (1, String (hexchar 0) s).
    assert (Hs : ∀ t, strip_0x (String (hexchar 0) (hexstr (replicate k 0%N) ++ String "-" t))
                      = String (hexchar 0) (hexstr (replicate k 0%N) ++ String "-" t)).
    { intros t. destruct k; reflexivity. }
    cbv beta iota. rewrite Hs.
    change (String (hexchar 0) (hexstr (replicate k 0%N) ++ ?t))
      with (hexstr (0%N :: replicate k 0%N) ++ t)%string.
    rewrite read_digits_stop; [|constructor; [lia|apply Forall_replicate; lia]|reflexivity].
    rewrite read_digits_hexstr by (constructor; [lia|apply Forall_replicate; lia]).
    change (0%N :: replicate k 0%N) with (replicate (S k) 0%N).
    rewrite <- (app_nil_r (replicate (S k) 0%N)). rewrite horner_zeros.
    reflexivity.
  - assert (Hlen : (4 < List.length ds)%nat).
    { subst ds. apply digits16_length_lower.
      change (16 ^ N.of_nat 4)%N with 65536%N. lia. }
    destruct (Nat.leb_spec 6 (S (List.length ds))) as [_|]; [|lia].
    unfold hexToNumber.
    change (String.append "#" ?s) with (String "#"%char s).
    rewrite replace_hash.
    unfold parseInt16.
    change (skip_spaces (String "-" ?s)) with (String "-"%char s).
    change (strip_sign (String "-" ?s)) with (-1, s).
    cbv beta iota. rewrite strip_0x_hexstr by assumption.
    rewrite read_digits_hexstr by assumption.
    destruct ds; [congruence|].
    cbn [fmap option_fmap option_map default]. f_equal. lia.
Qed.

(** Property X5, at -255 and at -0x10000. *)
Lemma hex_roundtrip_negative_witness :
  numberToHex (-255) = "#000-FF"%string ∧
  hexToNumber (numberToHex (-255)) = Some 0 ∧
  hexToNumber (numberToHex (-65536)) = Some (-65536).
Proof.
  split; [reflexivity|]. split.
  - refine (hex_roundtrip_negative (-255) _). unfold MAX_SAFE_INTEGER. lia.
  - refine (hex_roundtrip_negative (-65536) _). unfold MAX_SAFE_INTEGER. lia.
Defined.

(** Property X6.  Every entry of [ColorDef] is a [#] with six upper-case
    hexadecimal digits; so every name of [getColorNames] passes [hasColor],
    [getColorNumber] gives it a number from 0 to 0xFFFFFF, and [numberToHex]
    turns that number back into the string of the table. *)
Theorem color_table_roundtrip :
  Forall (λ e : string * string,
            hasColor e.1 = true ∧
            ∃ n, getColorNumber e.1 = Some (Some n) ∧ 0 ≤ n ≤ 16777215 ∧
                 numberToHex n = e.2) ColorDef ∧
  getColorNames = ColorDef.*1 ∧ NoDup getColorNames.
Proof.
  split; [|split; [reflexivity|]].
  - unfold ColorDef.
    repeat (apply List.Forall_cons;
            [split; [reflexivity|
                     eexists; split; [vm_compute; reflexivity|split; [lia|reflexivity]]]|]).
    apply List.Forall_nil.
  - apply (bool_decide_unpack _). vm_compute. reflexivity.
Qed.

(** [hasColor] also answers [true] for the twelve names an object inherits,
    none of which [getColorNames] lists; for such a name [getColorNumber]
    raises a TypeError.  For any other name [hasColor] answers [false]. *)
Lemma hasColor_inherited (k : string) :
  (hasColor k = true ↔ k ∈ getColorNames ∨ k ∈ Object_prototype) ∧
  (k ∈ Object_prototype → k ∉ getColorNames ∧ getColorNumber k = None).
Proof.
  split.
  - unfold hasColor, getColorNames. apply bool_decide_eq_true.
  - intros Hk. unfold Object_prototype in Hk.
    repeat (apply elem_of_cons in Hk as [->|Hk];
            [split; [apply (bool_decide_unpack _); vm_compute; reflexivity|reflexivity]|]).
    apply elem_of_nil in Hk. destruct Hk.
Qed.

End ColorUtilsSpec.

(* ===================================================================== *)
(** * Properties of AssetManager *)
(* ===================================================================== *)

Module AssetManagerSpec.
Import AssetManager.

Lemma finally_lowers_flag cb st : isLoading (finally cb st) = false.
Proof. unfold finally. by destruct cb. Qed.

(** Whenever [loadAssets] gets past its guard, the flag is down again when
    it returns. *)
Lemma loadAssets_lowers_flag keys cb o st :
  isLoading st = false → isLoading (loadAssets keys cb o st).2 = false.
Proof.
  intros Hst. unfold loadAssets. rewrite Hst.
  destruct (match keys with Some ks => _ | None => _ end); simpl.
  - apply finally_lowers_flag.
  - destruct (negb _); simpl; apply finally_lowers_flag.
Qed.

(** Claim C9 fails.  While the first [loadAssets] call is still waiting for
    the host loader, which has begun to load, the [isLoading] flag is
    already down, so a second call passes the guard: it logs no warning and
    hands its file to the loader. *)
Theorem loadAssets_second_call_not_rejected :
  let (p1, st1) := loadAssets (Some ["a"]) None Loads two_images in
  let (p2, st2) := loadAssets (Some ["b"]) None Loads st1 in
  (p1 = AwaitingLoader ∧ running (load st1) = true ∧ isLoading st1 = false) ∧
  (p2 = Fulfilled ∧ console st2 = [] ∧
   files (load st2) = [(IMAGE, "a"); (IMAGE, "b")]).
Proof. vm_compute. repeat split. Qed.

End AssetManagerSpec.

(* ===================================================================== *)
(** * Properties of SoundManager *)
(* ===================================================================== *)

Module SoundManagerSpec.
Import SoundManager.

(** *** Clamping *)

Lemma Clamp_unit_id (v : Qc) : (0 ≤ v)%Qc → (v ≤ 1)%Qc → Clamp v 0 1 = v.
Proof.
  intros H0 H1. unfold Clamp, num_min, num_max.
  destruct (decide (1 ≤ v)%Qc) as [H|H].
  - assert (v = 1%Qc) as -> by (by apply Qcle_antisym). by rewrite decide_True.
  - by rewrite decide_True.
Qed.

Lemma Clamp_unit_range (v : Qc) : in_unit (Clamp v 0 1).
Proof.
  unfold in_unit, Clamp, num_min, num_max.
  destruct (decide (1 ≤ v)%Qc) as [H|H].
  - rewrite decide_True by done. done.
  - destruct (decide (0 ≤ v)%Qc) as [H'|H'].
    + split; [done|]. apply Qclt_le_weak. by apply Qcnot_le_lt.
    + done.
Qed.

(** *** Steps that only take sounds off the lists *)

Lemma shrinks_refl m : shrinks m m.
Proof. split; eauto 10. Qed.

Lemma shrinks_trans m1 m2 m3 : shrinks m1 m2 → shrinks m2 m3 → shrinks m1 m3.
Proof.
  intros [S1 R1 O1 N1 C1 F1 G1] [S2 R2 O2 N2 C2 F2 G2]. split.
  - intros r c3 H3. destruct (S2 r c3 H3) as (c2 & H2 & Hs2 & Hm2 & Hv2).
    destruct (S1 r c2 H2) as (c1 & H1 & Hs1 & Hm1 & Hv1).
    exists c1. split; [done|]. split; [by etrans|]. split; [congruence|].
    destruct Hv2 as [->|Hv2]; [exact Hv1|by right].
  - eauto.
  - intros h. rewrite O1. apply O2.
  - congruence.
  - congruence.
  - congruence.
  - destruct G2 as [->|G2]; [exact G1|by right].
Qed.

Lemma shrinks_foldl {A} (f : Manager → A → Manager) (l : list A) m :
  (∀ m x, shrinks m (f m x)) → shrinks m (foldl f m l).
Proof.
  intros Hf. revert m. induction l as [|x l IH]; intros m; [apply shrinks_refl|].
  simpl. eapply shrinks_trans; [apply Hf|apply IH].
Qed.

Lemma shrinks_set_scene f m : keeps_sounds f → shrinks m (set_scene f m).
Proof.
  intros Hf. destruct (Hf (scene m)) as [Hn Ho]. split; simpl; eauto 10.
Qed.

Lemma keeps_update_one h (g : Sound → Sound) :
  keeps_sounds (set_objects (λ o, match o !! h with
                                  | Some s => <[h := g s]> o
                                  | None => o
                                  end)).
Proof.
  intros sc. split; [done|]. intros h'. simpl.
  destruct (objects sc !! h) as [s|] eqn:E; [|done].
  destruct (decide (h = h')) as [->|Hne].
  - rewrite lookup_insert_eq, E. split; eauto.
  - by rewrite lookup_insert_ne.
Qed.

Lemma keeps_fmap (g : Sound → Sound) : keeps_sounds (set_objects (fmap g)).
Proof.
  intros sc. split; [done|]. intros h. simpl. rewrite lookup_fmap.
  destruct (objects sc !! h); simpl; split; intros [? ?]; eauto; done.
Qed.

Lemma keeps_set_tweens g : keeps_sounds (set_tweens g).
Proof. intros sc. split; done. Qed.

Lemma keeps_set_cache g : keeps_sounds (set_cache g).
Proof. intros sc. split; done. Qed.

Lemma keeps_tweens_add tw : keeps_sounds (λ sc, (tweens_add tw sc).2).
Proof. intros sc. split; done. Qed.

Lemma sound_setVolume_shrinks h v m : shrinks m (sound_setVolume h v m).
Proof. apply shrinks_set_scene, keeps_update_one. Qed.

Lemma sound_play_shrinks h m : shrinks m (sound_play h m).
Proof. apply shrinks_set_scene, keeps_update_one. Qed.

Lemma shrinks_set_bgm k h m : shrinks m (set_bgm k h m).
Proof. split; simpl; eauto 10. Qed.

Lemma shrinks_set_globalVolume v m : in_unit v → shrinks m (set_globalVolume v m).
Proof. split; simpl; eauto 10. Qed.

Lemma shrinks_set_isMuted b m : shrinks m (set_isMuted b m).
Proof. split; simpl; eauto 10. Qed.

Lemma shrinks_set_fadeTweens t m : shrinks m (set_fadeTweens t m).
Proof. split; simpl; eauto 10. Qed.

(** Replacing a record by one with fewer playing sounds, the same limit, and
    the same or a clamped volume. *)
Lemma shrinks_set_store r c c' m :
  store m !! r = Some c →
  playingSounds c' `sublist_of` playingSounds c →
  maxConcurrent c' = maxConcurrent c →
  volume c' = volume c ∨ in_unit (volume c') →
  shrinks m (set_store <[r := c']> m).
Proof.
  intros Hr Hs Hm Hv. split; simpl; eauto.
  - intros r' c'' H.
    destruct (decide (r = r')) as [->|Hne].
    + rewrite lookup_insert_eq in H. injection H as <-. eauto 10.
    + rewrite lookup_insert_ne in H by done. eauto 10.
  - intros r' H. destruct (decide (r = r')) as [->|Hne].
    + rewrite lookup_insert_eq. eauto.
    + by rewrite lookup_insert_ne.
Qed.

Lemma removeFromCategory_shrinks h r m : shrinks m (removeFromCategory h r m).
Proof.
  unfold removeFromCategory.
  destruct (store m !! r) as [c|] eqn:E; [|apply shrinks_refl].
  destruct (indexOf h (playingSounds c)); [|apply shrinks_refl].
  eapply shrinks_set_store; eauto. apply sublist_delete.
Qed.

Lemma shrinks_replace_sound h s s' m :
  objects (scene m) !! h = Some s →
  shrinks m (set_scene (set_objects <[h := s']>) m).
Proof.
  intros E. apply (shrinks_trans _ (set_scene (set_objects (λ o,
    match o !! h with Some s => <[h := s']> o | None => o end)) m)).
  - apply shrinks_set_scene. apply (keeps_update_one h (λ _, s')).
  - unfold set_scene, set_objects. simpl. rewrite E. apply shrinks_refl.
Qed.

Lemma sound_stop_shrinks h m : shrinks m (sound_stop h m).
Proof.
  unfold sound_stop.
  destruct (objects (scene m) !! h) as [s|] eqn:E; [|apply shrinks_refl].
  destruct (s_state s); try apply shrinks_refl;
    (eapply shrinks_trans; [eapply shrinks_replace_sound; eauto|];
     apply shrinks_foldl; intros; apply removeFromCategory_shrinks).
Qed.

Lemma sound_complete_shrinks h m : shrinks m (sound_complete h m).
Proof.
  unfold sound_complete.
  destruct (objects (scene m) !! h) as [s|] eqn:E; [|apply shrinks_refl].
  destruct (s_state s), (s_loop s); try apply shrinks_refl.
  eapply shrinks_trans; [eapply shrinks_replace_sound; eauto|].
  apply shrinks_foldl; intros; apply removeFromCategory_shrinks.
Qed.

Lemma scene_stopAll_shrinks m : shrinks m (scene_stopAll m).
Proof. apply shrinks_foldl. intros. apply sound_stop_shrinks. Qed.

Lemma fadeOutSound_shrinks h d cb m : shrinks m (fadeOutSound h d cb m).
Proof. apply shrinks_set_scene, keeps_tweens_add. Qed.

Lemma stopBGM_shrinks m : shrinks m (stopBGM m).
Proof.
  unfold stopBGM.
  destruct (bgmSound m), (currentBGM m); try apply shrinks_refl.
  case_decide; [apply shrinks_refl|].
  destruct (fade_duration _).
  - apply fadeOutSound_shrinks.
  - eapply shrinks_trans; [apply sound_stop_shrinks|apply shrinks_set_bgm].
Qed.

Lemma clear_playing_shrinks r m : shrinks m (clear_playing r m).
Proof.
  unfold clear_playing. destruct (store m !! r) as [c|] eqn:E; [|apply shrinks_refl].
  eapply shrinks_set_store; eauto. apply sublist_nil_l.
Qed.

Lemma stopCategory_shrinks n m : shrinks m (stopCategory n m).
Proof.
  unfold stopCategory. destruct (get_category m n) as [[r c]|]; [|apply shrinks_refl].
  eapply shrinks_trans; [|apply clear_playing_shrinks].
  apply shrinks_foldl. intros. apply sound_stop_shrinks.
Qed.

Lemma clearFadeTweens_shrinks m : shrinks m (clearFadeTweens m).
Proof.
  unfold clearFadeTweens.
  eapply shrinks_trans; [|apply shrinks_set_fadeTweens].
  apply shrinks_foldl. intros. apply shrinks_set_scene, keeps_set_tweens.
Qed.

Lemma stopAll_shrinks m : shrinks m (stopAll m).
Proof.
  unfold stopAll.
  eapply shrinks_trans; [apply scene_stopAll_shrinks|].
  eapply shrinks_trans; [|apply clearFadeTweens_shrinks].
  eapply shrinks_trans; [|apply shrinks_set_bgm].
  apply shrinks_foldl. intros. apply clear_playing_shrinks.
Qed.

Lemma apply_volume_shrinks r m : shrinks m (apply_volume r m).
Proof.
  unfold apply_volume. destruct (store m !! r); [|apply shrinks_refl].
  apply shrinks_foldl. intros. apply sound_setVolume_shrinks.
Qed.

Lemma get_category_store m n r c : get_category m n = Some (r, c) → store m !! r = Some c.
Proof.
  unfold get_category. destruct (AssetManager.map_get n (categories m)) as [r'|]; [|done].
  destruct (store m !! r') eqn:E; [|done]. intros [= <- <-]. done.
Qed.

Lemma setCategoryVolume_shrinks n v m : shrinks m (setCategoryVolume n v m).
Proof.
  unfold setCategoryVolume.
  destruct (get_category m n) as [[r c]|] eqn:E; [|apply shrinks_refl].
  eapply shrinks_trans; [|apply apply_volume_shrinks].
  eapply shrinks_set_store; eauto using get_category_store.
  right. apply Clamp_unit_range.
Qed.

Lemma setGlobalVolume_shrinks v m : shrinks m (setGlobalVolume v m).
Proof.
  unfold setGlobalVolume.
  eapply shrinks_trans; [apply shrinks_set_globalVolume, Clamp_unit_range|].
  apply shrinks_foldl. intros. apply apply_volume_shrinks.
Qed.

Lemma setMuted_shrinks b m : shrinks m (setMuted b m).
Proof.
  unfold setMuted.
  eapply shrinks_trans; [apply shrinks_set_isMuted|].
  destruct b; apply shrinks_set_scene, keeps_fmap.
Qed.

Lemma loadSettings_shrinks s m : shrinks m (loadSettings s m).
Proof.
  unfold loadSettings.
  eapply shrinks_trans; [apply setGlobalVolume_shrinks|].
  eapply shrinks_trans; [apply setMuted_shrinks|].
  apply shrinks_foldl. intros. apply setCategoryVolume_shrinks.
Qed.

Lemma tween_complete_shrinks i m : shrinks m (tween_complete i m).
Proof.
  unfold tween_complete. destruct (tweens (scene m) !! i) as [tw|]; [|apply shrinks_refl].
  eapply shrinks_trans; [apply shrinks_set_scene, keeps_set_tweens|].
  eapply shrinks_trans; [apply sound_setVolume_shrinks|].
  destruct (tw_done tw) as [cb|]; [|apply shrinks_refl].
  eapply shrinks_trans; [apply sound_stop_shrinks|].
  destruct cb as [[]|]; [apply shrinks_set_bgm|apply shrinks_refl].
Qed.

Lemma set_cache_shrinks g m : shrinks m (set_scene (set_cache g) m).
Proof. apply shrinks_set_scene, keeps_set_cache. Qed.

Create HintDb shrinks discriminated.

#[export] Hint Resolve shrinks_refl stopBGM_shrinks fadeOutSound_shrinks
  stopCategory_shrinks stopAll_shrinks setCategoryVolume_shrinks
  setGlobalVolume_shrinks setMuted_shrinks loadSettings_shrinks
  sound_complete_shrinks sound_stop_shrinks tween_complete_shrinks
  set_cache_shrinks : shrinks.

Lemma within_limit_shrinks m m' : within_limit m → shrinks m m' → within_limit m'.
Proof.
  intros Hm [S _ _ _ _ _ _] r c' Hc' Hpos.
  destruct (S r c' Hc') as (c & Hc & Hsub & Hmax & _).
  rewrite Hmax in *. specialize (Hm r c Hc Hpos).
  apply sublist_length in Hsub. lia.
Qed.

Lemma well_formed_shrinks m m' : well_formed m → shrinks m m' → well_formed m'.
Proof.
  intros [W1 W2 W3 W4 W5 W6 W7 W8] [S R O N C F _]. split.
  - intros r c' Hc'. destruct (S r c' Hc') as (c & Hc & Hsub & _).
    eapply (sublist_NoDup _ (playingSounds c)); eauto.
  - intros r c' h Hc' Hh. destruct (S r c' Hc') as (c & Hc & Hsub & _).
    apply O. eapply W2; eauto. eapply sublist_subseteq; eauto.
  - intros r1 r2 c1' c2' h H1 H2 Hh1 Hh2.
    destruct (S r1 c1' H1) as (c1 & Hc1 & Hs1 & _).
    destruct (S r2 c2' H2) as (c2 & Hc2 & Hs2 & _).
    eapply (W3 r1 r2 c1 c2 h); eauto; eapply sublist_subseteq; eauto.
  - intros h Hh. rewrite N. apply W4, O, Hh.
  - by rewrite C.
  - by rewrite C.
  - intros n r Hin. rewrite C in Hin. eauto.
  - intros r [c' Hc']. destruct (S r c' Hc') as (c & Hc & _). rewrite F. eauto.
Qed.

(** *** Maps in insertion order *)

Section InsertionOrder.

Context {V : Type}.

Implicit Types (L : list (string * V)) (n : string) (v : V).

Lemma map_get_Some n L v :
  AssetManager.map_get n L = Some v → (n, v) ∈ L.
Proof.
  induction L as [|[n' v'] L IH]; simpl; [done|].
  destruct (decide (n' = n)) as [->|Hne].
  - intros [= ->]. left.
  - intros Hg. right. auto.
Qed.

Lemma map_get_None n L :
  AssetManager.map_get n L = None ↔ n ∉ L.*1.
Proof.
  induction L as [|[n' v'] L IH]; simpl.
  - split; [intros _; apply not_elem_of_nil|done].
  - destruct (decide (n' = n)) as [->|Hne].
    + split; [done|]. intros Hn. exfalso. apply Hn. left.
    + rewrite IH. rewrite not_elem_of_cons. naive_solver.
Qed.

Lemma map_get_elem_of n L v :
  NoDup L.*1 → (n, v) ∈ L → AssetManager.map_get n L = Some v.
Proof.
  induction L as [|[n' v'] L IH]; simpl; intros Hnd Hin.
  - by apply elem_of_nil in Hin.
  - apply NoDup_cons in Hnd as [Hn Hnd].
    apply elem_of_cons in Hin as [[= <- <-]|Hin].
    + by rewrite decide_True.
    + rewrite decide_False; [by apply IH|].
      intros ->. apply Hn. apply (list_elem_of_fmap_2 fst) in Hin. done.
Qed.

Lemma map_set_elem_of n v L n' v' :
  (n', v') ∈ AssetManager.map_set n v L → (n', v') = (n, v) ∨ (n', v') ∈ L.
Proof.
  induction L as [|[n1 v1] L IH]; simpl.
  - intros H. apply list_elem_of_singleton in H. by left.
  - destruct (decide (n1 = n)) as [->|Hne].
    + intros H. apply elem_of_cons in H as [H|H]; [by left|right; by right].
    + intros H. apply elem_of_cons in H as [H|H]; [right; rewrite H; left|].
      destruct (IH H); [by left|right; by right].
Qed.

Lemma map_set_names n v L n' :
  n' ∈ (AssetManager.map_set n v L).*1 ↔ n' = n ∨ n' ∈ L.*1.
Proof.
  induction L as [|[n1 v1] L IH]; simpl.
  - rewrite list_elem_of_singleton. split; [by left|]. intros [?|H]; [done|].
    by apply elem_of_nil in H.
  - destruct (decide (n1 = n)) as [->|Hne]; simpl; rewrite !elem_of_cons;
      [naive_solver|].
    rewrite IH. naive_solver.
Qed.

Lemma map_set_NoDup_names n v L :
  NoDup L.*1 → NoDup (AssetManager.map_set n v L).*1.
Proof.
  induction L as [|[n1 v1] L IH]; simpl; intros Hnd.
  - apply NoDup_singleton.
  - apply NoDup_cons in Hnd as [Hn Hnd].
    destruct (decide (n1 = n)) as [->|Hne]; simpl.
    + by apply NoDup_cons.
    + apply NoDup_cons. split; [|by apply IH].
      rewrite map_set_names. naive_solver.
Qed.

Lemma map_set_values n v L v' :
  v' ∈ (AssetManager.map_set n v L).*2 → v' = v ∨ v' ∈ L.*2.
Proof.
  intros H. apply list_elem_of_fmap in H as [[n1 v1] [-> H]].
  apply map_set_elem_of in H as [[= -> ->]|H]; [by left|right].
  by apply (list_elem_of_fmap_2 snd) in H.
Qed.

Lemma map_set_NoDup_values n v L :
  NoDup L.*2 → v ∉ L.*2 → NoDup (AssetManager.map_set n v L).*2.
Proof.
  induction L as [|[n1 v1] L IH]; simpl; intros Hnd Hv.
  - apply NoDup_singleton.
  - apply NoDup_cons in Hnd as [Hn Hnd].
    apply not_elem_of_cons in Hv as [Hne Hv].
    destruct (decide (n1 = n)) as [->|Hne']; simpl.
    + by apply NoDup_cons.
    + apply NoDup_cons. split; [|by apply IH].
      intros H'. apply map_set_values in H' as [->|H']; done.
Qed.

Lemma map_get_set n v L n' :
  AssetManager.map_get n' (AssetManager.map_set n v L) =
    if decide (n = n') then Some v else AssetManager.map_get n' L.
Proof.
  induction L as [|[n1 v1] L IH]; simpl.
  - destruct (decide (n = n')); done.
  - destruct (decide (n1 = n)) as [->|Hne]; simpl.
    + destruct (decide (n = n')); done.
    + destruct (decide (n1 = n')) as [->|Hne'].
      * by rewrite decide_False.
      * apply IH.
Qed.

End InsertionOrder.

(** *** [defineCategory] *)

Lemma defineCategory_within_limit n cfg m :
  within_limit m → within_limit (defineCategory n cfg m).
Proof.
  intros Hm r c. unfold defineCategory. simpl.
  destruct (decide (next_ref m = r)) as [<-|Hne].
  - rewrite lookup_insert_eq. intros [= <-]. simpl. lia.
  - rewrite lookup_insert_ne by done. apply Hm.
Qed.

Lemma defineCategory_well_formed n cfg m :
  well_formed m → well_formed (defineCategory n cfg m).
Proof.
  intros [W1 W2 W3 W4 W5 W6 W7 W8].
  assert (Hfresh : store m !! next_ref m = None).
  { destruct (store m !! next_ref m) eqn:E; [|done].
    assert (next_ref m < next_ref m)%nat by eauto. lia. }
  split; unfold defineCategory; simpl.
  - intros r c. destruct (decide (next_ref m = r)) as [<-|Hne].
    + rewrite lookup_insert_eq. intros [= <-]. simpl. apply NoDup_nil_2.
    + rewrite lookup_insert_ne by done. apply W1.
  - intros r c h. destruct (decide (next_ref m = r)) as [<-|Hne].
    + rewrite lookup_insert_eq. intros [= <-]. simpl. intros H.
      by apply elem_of_nil in H.
    + rewrite lookup_insert_ne by done. apply W2.
  - intros r1 r2 c1 c2 h.
    destruct (decide (next_ref m = r1)) as [<-|Hne1].
    { rewrite lookup_insert_eq. intros [= <-] _ H. by apply elem_of_nil in H. }
    destruct (decide (next_ref m = r2)) as [<-|Hne2].
    { rewrite lookup_insert_eq. intros _ [= <-] _ H. by apply elem_of_nil in H. }
    rewrite !lookup_insert_ne by done. apply W3.
  - done.
  - by apply map_set_NoDup_names.
  - apply map_set_NoDup_values; [done|].
    intros H. apply list_elem_of_fmap in H as [[n' r'] [Hr H]]. simpl in Hr. subst r'.
    apply W7 in H. rewrite Hfresh in H. by destruct H.
  - intros n' r H. apply map_set_elem_of in H as [[= -> ->]|H].
    + rewrite lookup_insert_eq. eauto.
    + destruct (decide (next_ref m = r)) as [<-|Hne].
      * rewrite lookup_insert_eq. eauto.
      * rewrite lookup_insert_ne by done. eauto.
  - intros r. destruct (decide (next_ref m = r)) as [<-|Hne].
    + intros _. lia.
    + rewrite lookup_insert_ne by done. intros H. apply W8 in H. lia.
Qed.

(** *** The [try] block of [playSound] *)

Lemma start_sound_uncached k e cfg r m :
  k ∉ cache_audio (scene m) → start_sound k e cfg r m = (None, m).
Proof.
  intros Hk. unfold start_sound, sound_add.
  destruct (store m !! r); [|done]. by rewrite decide_False.
Qed.

Lemma start_sound_result k e cfg r m c :
  store m !! r = Some c →
  k ∈ cache_audio (scene m) →
  ∃ m', start_sound k e cfg r m = (Some (next_handle (scene m)), m') ∧
    store m' = <[r := with_playing (playingSounds c ++ [next_handle (scene m)]) c]> (store m) ∧
    (∀ h, h ≠ next_handle (scene m) → objects (scene m') !! h = objects (scene m) !! h) ∧
    (∃ s, objects (scene m') !! next_handle (scene m) = Some s ∧
          s_state s = Playing ∧ s_key s = k) ∧
    next_handle (scene m') = S (next_handle (scene m)) ∧
    categories m' = categories m ∧ next_ref m' = next_ref m ∧
    isMuted m' = isMuted m ∧ globalVolume m' = globalVolume m.
Proof.
  intros Hc Hk. unfold start_sound, sound_add. rewrite Hc.
  rewrite decide_True by done.
  destruct (fade_duration (fadeInDuration c)) as [d|]; simpl;
    eexists; (split; [reflexivity|]); simpl;
    rewrite ?lookup_insert_eq; simpl; rewrite ?lookup_insert_eq; simpl;
    rewrite ?lookup_insert_eq; simpl; rewrite ?lookup_insert_eq; simpl;
    rewrite ?lookup_insert_eq; simpl.
  all: repeat split; eauto.
  all: try (intros h Hne; rewrite !lookup_insert_ne by done; done).
  all: eexists; split; [apply lookup_insert_eq|]; done.
Qed.

Lemma start_sound_within_limit k e cfg r m c :
  within_limit m → store m !! r = Some c →
  (0 < maxConcurrent c → Z.of_nat (List.length (playingSounds c)) < maxConcurrent c) →
  within_limit (start_sound k e cfg r m).2.
Proof.
  intros Hm Hc Hroom.
  destruct (decide (k ∈ cache_audio (scene m))) as [Hk|Hk];
    [|by rewrite start_sound_uncached].
  destruct (start_sound_result k e cfg r m c Hc Hk) as (m' & -> & Hst & _).
  simpl. intros r' c' Hc' Hpos. rewrite Hst in Hc'.
  destruct (decide (r = r')) as [<-|Hne].
  - rewrite lookup_insert_eq in Hc'. injection Hc' as <-. simpl in *.
    rewrite length_app. simpl. specialize (Hroom Hpos). lia.
  - rewrite lookup_insert_ne in Hc' by done. exact (Hm r' c' Hc' Hpos).
Qed.

Lemma start_sound_well_formed k e cfg r m c :
  well_formed m → store m !! r = Some c →
  well_formed (start_sound k e cfg r m).2.
Proof.
  intros Hwf Hc.
  destruct (decide (k ∈ cache_audio (scene m))) as [Hk|Hk];
    [|by rewrite start_sound_uncached].
  destruct Hwf as [W1 W2 W3 W4 W5 W6 W7 W8].
  destruct (start_sound_result k e cfg r m c Hc Hk)
    as (m' & -> & Hst & Hold & (s & Hnew & _) & Hnext & Hcats & Hnref & _).
  simpl.
  assert (Hnotin : ∀ r' c', store m !! r' = Some c' →
                            next_handle (scene m) ∉ playingSounds c').
  { intros r' c' Hc' Hin. specialize (W2 _ _ _ Hc' Hin). apply W4 in W2. lia. }
  assert (Hobj : ∀ h, is_Some (objects (scene m) !! h) →
                      is_Some (objects (scene m') !! h)).
  { intros h Hh. rewrite Hold; [done|]. apply W4 in Hh. lia. }
  split.
  - intros r' c'. rewrite Hst.
    destruct (decide (r = r')) as [<-|Hne].
    + rewrite lookup_insert_eq. intros [= <-]. simpl.
      apply NoDup_app. split; [eauto|]. split; [|apply NoDup_singleton].
      intros h Hh Hh'. apply list_elem_of_singleton in Hh'. subst h.
      by apply (Hnotin r c).
    + rewrite lookup_insert_ne by done. apply W1.
  - intros r' c' h. rewrite Hst.
    destruct (decide (r = r')) as [<-|Hne].
    + rewrite lookup_insert_eq. intros [= <-]. simpl.
      rewrite elem_of_app, list_elem_of_singleton. intros [Hh| ->]; eauto.
    + rewrite lookup_insert_ne by done. eauto.
  - intros r1 r2 c1 c2 h. rewrite Hst.
    destruct (decide (r = r1)) as [<-|Hne1]; destruct (decide (r = r2)) as [<-|Hne2];
      rewrite ?lookup_insert_eq, ?lookup_insert_ne by done; [done|..].
    + intros [= <-] H2 Hh1 Hh2. simpl in Hh1.
      apply elem_of_app in Hh1 as [Hh1|Hh1]; [eauto|].
      apply list_elem_of_singleton in Hh1. subst h. by destruct (Hnotin _ _ H2).
    + intros H1 [= <-] Hh1 Hh2. simpl in Hh2.
      apply elem_of_app in Hh2 as [Hh2|Hh2]; [eauto|].
      apply list_elem_of_singleton in Hh2. subst h. by destruct (Hnotin _ _ H1).
    + apply W3.
  - intros h Hh. rewrite Hnext.
    destruct (decide (h = next_handle (scene m))) as [->|Hne]; [lia|].
    rewrite Hold in Hh by done. apply W4 in Hh. lia.
  - by rewrite Hcats.
  - by rewrite Hcats.
  - intros n r' Hin. rewrite Hcats in Hin. rewrite Hst.
    destruct (decide (r = r')) as [<-|Hne];
      rewrite ?lookup_insert_eq, ?lookup_insert_ne by done; eauto.
  - intros r'. rewrite Hst, Hnref.
    destruct (decide (r = r')) as [<-|Hne];
      rewrite ?lookup_insert_eq, ?lookup_insert_ne by done; eauto.
Qed.

Lemma evict_oldest_shrinks r m : shrinks m (evict_oldest r m).
Proof.
  unfold evict_oldest. destruct (store m !! r) as [c|] eqn:E; [|apply shrinks_refl].
  destruct (playingSounds c) as [|oldest rest] eqn:El; [apply shrinks_refl|].
  eapply shrinks_trans; [|apply sound_stop_shrinks].
  eapply shrinks_set_store; eauto. simpl. rewrite El. by apply sublist_cons.
Qed.

Lemma evict_oldest_room r m c oldest rest :
  store m !! r = Some c → playingSounds c = oldest :: rest →
  ∃ c1, store (evict_oldest r m) !! r = Some c1 ∧
        playingSounds c1 `sublist_of` rest ∧ maxConcurrent c1 = maxConcurrent c.
Proof.
  intros Hc Hl. unfold evict_oldest. rewrite Hc, Hl.
  set (mi := set_store <[r := with_playing rest c]> m).
  destruct (sound_stop_shrinks oldest mi) as [S R _ _ _ _ _].
  assert (Hi : store mi !! r = Some (with_playing rest c))
    by (subst mi; simpl; apply lookup_insert_eq).
  destruct (R r) as [c1 Hc1]; [eauto|].
  destruct (S r c1 Hc1) as (c0 & Hc0 & Hsub & Hmax & _).
  rewrite Hi in Hc0. injection Hc0 as <-. eauto.
Qed.

Lemma playSound_within_limit k cfg m :
  within_limit m → within_limit (playSound k cfg m).2.
Proof.
  intros Hm. unfold playSound.
  destruct (isMuted m); [done|].
  destruct (sounds m !! k) as [e|]; [|done].
  destruct (get_category m (category e)) as [[r c]|] eqn:Hg; [|done].
  apply get_category_store in Hg.
  case_decide; [|done].
  destruct (Z.leb_spec (maxConcurrent c) (Z.of_nat (List.length (playingSounds c))))
    as [Hfull|Hroom].
  - destruct (interrupts c); [|done].
    destruct (playingSounds c) as [|oldest rest] eqn:El.
    + assert (Hev : evict_oldest r m = m) by (unfold evict_oldest; by rewrite Hg, El).
      rewrite Hev. eapply start_sound_within_limit; eauto.
      rewrite El. simpl in *. lia.
    + destruct (evict_oldest_room r m c oldest rest Hg El) as (c1 & Hc1 & Hsub & Hmax).
      eapply start_sound_within_limit; eauto.
      * eapply within_limit_shrinks; eauto using evict_oldest_shrinks.
      * intros Hpos. rewrite Hmax in *. specialize (Hm r c Hg Hpos).
        apply sublist_length in Hsub. rewrite El in Hm. simpl in Hm. lia.
  - eapply start_sound_within_limit; eauto.
Qed.

Lemma playSound_well_formed k cfg m :
  well_formed m → well_formed (playSound k cfg m).2.
Proof.
  intros Hm. unfold playSound.
  destruct (isMuted m); [done|].
  destruct (sounds m !! k) as [e|]; [|done].
  destruct (get_category m (category e)) as [[r c]|] eqn:Hg; [|done].
  apply get_category_store in Hg.
  case_decide; [|done].
  destruct (maxConcurrent c <=? _).
  - destruct (interrupts c); [|done].
    destruct (evict_oldest_shrinks r m) as [_ R _ _ _ _ _].
    destruct (R r) as [c1 Hc1]; [eauto|].
    eapply start_sound_well_formed; eauto.
    eapply well_formed_shrinks; eauto using evict_oldest_shrinks.
  - eapply start_sound_well_formed; eauto.
Qed.

Lemma registerSound_within_limit k cat p cfg m :
  within_limit m → within_limit (registerSound k cat p cfg m).
Proof.
  intros Hm. unfold registerSound.
  destruct (AssetManager.map_get cat (categories m)); [exact Hm|].
  apply (defineCategory_within_limit cat no_category_config) in Hm. exact Hm.
Qed.

Lemma registerSound_well_formed k cat p cfg m :
  well_formed m → well_formed (registerSound k cat p cfg m).
Proof.
  intros Hm. unfold registerSound.
  destruct (AssetManager.map_get cat (categories m)).
  - destruct Hm. split; simpl; eauto.
  - apply (defineCategory_well_formed cat no_category_config) in Hm.
    destruct Hm. split; simpl; eauto.
Qed.

Lemma playBGM_within_limit k cfg m : within_limit m → within_limit (playBGM k cfg m).
Proof.
  intros Hm. unfold playBGM.
  pose proof (playSound_within_limit k cfg (stopBGM m)
                (within_limit_shrinks _ _ Hm (stopBGM_shrinks m))) as H.
  destruct (playSound k cfg (stopBGM m)) as [[h|] m']; simpl in H; [|done].
  eapply within_limit_shrinks; eauto using shrinks_set_bgm.
Qed.

Lemma playBGM_well_formed k cfg m : well_formed m → well_formed (playBGM k cfg m).
Proof.
  intros Hm. unfold playBGM.
  pose proof (playSound_well_formed k cfg (stopBGM m)
                (well_formed_shrinks _ _ Hm (stopBGM_shrinks m))) as H.
  destruct (playSound k cfg (stopBGM m)) as [[h|] m']; simpl in H; [|done].
  eapply well_formed_shrinks; eauto using shrinks_set_bgm.
Qed.

Lemma dispose_within_limit m : within_limit m → within_limit (dispose m).
Proof.
  intros Hm.
  assert (H : within_limit (clearFadeTweens (stopAll m))).
  { eapply within_limit_shrinks; [exact Hm|].
    eapply shrinks_trans; [apply stopAll_shrinks|apply clearFadeTweens_shrinks]. }
  intros r c Hc. exact (H r c Hc).
Qed.

Lemma dispose_well_formed m : well_formed m → well_formed (dispose m).
Proof.
  intros Hm. unfold dispose.
  assert (H : well_formed (clearFadeTweens (stopAll m))).
  { eapply well_formed_shrinks; [exact Hm|].
    eapply shrinks_trans; [apply stopAll_shrinks|apply clearFadeTweens_shrinks]. }
  destruct H. split; simpl; eauto.
  - apply NoDup_nil_2.
  - apply NoDup_nil_2.
  - intros n r Hin. by apply elem_of_nil in Hin.
Qed.

(** Every operation other than those handled above only takes sounds off
    the lists. *)
Lemma run_shrinks op m :
  match op with
  | DefineCategory _ _ | RegisterSound _ _ _ _ | PlaySound _ _ | PlayBGM _ _
  | Dispose => True
  | _ => shrinks m (run op m)
  end.
Proof.
  destruct op; cbn [run]; unfold toggleMute; auto with shrinks.
Qed.

Lemma run_within_limit op m : within_limit m → within_limit (run op m).
Proof.
  intros Hm. pose proof (run_shrinks op m) as Hs.
  destruct op; try (eapply within_limit_shrinks; [exact Hm|exact Hs]); simpl.
  - by apply defineCategory_within_limit.
  - by apply registerSound_within_limit.
  - by apply playSound_within_limit.
  - by apply playBGM_within_limit.
  - by apply dispose_within_limit.
Qed.

Lemma run_well_formed op m : well_formed m → well_formed (run op m).
Proof.
  intros Hm. pose proof (run_shrinks op m) as Hs.
  destruct op; try (eapply well_formed_shrinks; [exact Hm|exact Hs]); simpl.
  - by apply defineCategory_well_formed.
  - by apply registerSound_well_formed.
  - by apply playSound_well_formed.
  - by apply playBGM_well_formed.
  - by apply dispose_well_formed.
Qed.

Lemma new_manager_within_limit sc am : within_limit (new_manager sc am).
Proof.
  unfold new_manager, setupDefaultCategories.
  repeat apply defineCategory_within_limit.
  intros r c. simpl. by rewrite lookup_empty.
Qed.

Lemma new_manager_well_formed sc am : scene_ok sc → well_formed (new_manager sc am).
Proof.
  intros Hsc. unfold new_manager, setupDefaultCategories.
  repeat apply defineCategory_well_formed.
  split; simpl; try (intros *; rewrite lookup_empty; done); eauto.
  - apply NoDup_nil_2.
  - apply NoDup_nil_2.
  - intros n r H. by apply elem_of_nil in H.
Qed.

Lemma reachable_within_limit m : reachable m → within_limit m.
Proof.
  induction 1; [apply new_manager_within_limit|by apply run_within_limit].
Qed.

Lemma reachable_well_formed m : reachable m → well_formed m.
Proof.
  induction 1; [by apply new_manager_well_formed|by apply run_well_formed].
Qed.

Lemma reachable_run_all ops m : reachable m → reachable (run_all ops m).
Proof.
  revert m. induction ops as [|op ops IH]; intros m Hm; [done|].
  simpl. apply IH. by constructor.
Qed.

(** *** The audio cache is not written by the manager *)

Lemma cache_removeFromCategory h r m :
  cache_audio (scene (removeFromCategory h r m)) = cache_audio (scene m).
Proof.
  unfold removeFromCategory. destruct (store m !! r); [|done].
  by destruct (indexOf h _).
Qed.

Lemma cache_sound_stop h m :
  cache_audio (scene (sound_stop h m)) = cache_audio (scene m).
Proof.
  unfold sound_stop. destruct (objects _ !! h) as [s|]; [|done].
  assert (Hfold : ∀ rs m0, cache_audio (scene
            (foldl (λ m r, removeFromCategory h r m) m0 rs)) = cache_audio (scene m0)).
  { induction rs as [|r rs IH]; intros m0; [done|].
    simpl. by rewrite IH, cache_removeFromCategory. }
  destruct (s_state s); [done|..]; by rewrite Hfold.
Qed.

Lemma cache_evict_oldest r m :
  cache_audio (scene (evict_oldest r m)) = cache_audio (scene m).
Proof.
  unfold evict_oldest. destruct (store m !! r) as [c|]; [|done].
  destruct (playingSounds c); [done|]. by rewrite cache_sound_stop.
Qed.

(** *** The mute flag is only written by [setMuted] *)

Lemma isMuted_foldl {A} (f : Manager → A → Manager) l m :
  (∀ m x, isMuted (f m x) = isMuted m) → isMuted (foldl f m l) = isMuted m.
Proof.
  intros Hf. revert m. induction l as [|x l IH]; intros m; [done|].
  simpl. by rewrite IH, Hf.
Qed.

Lemma isMuted_removeFromCategory h r m : isMuted (removeFromCategory h r m) = isMuted m.
Proof.
  unfold removeFromCategory. destruct (store m !! r); [|done].
  by destruct (indexOf h _).
Qed.

Lemma isMuted_sound_stop h m : isMuted (sound_stop h m) = isMuted m.
Proof.
  unfold sound_stop. destruct (objects _ !! h) as [s|]; [|done].
  destruct (s_state s); [done|..];
    (rewrite isMuted_foldl; [done|]; intros; apply isMuted_removeFromCategory).
Qed.

Lemma isMuted_sound_complete h m : isMuted (sound_complete h m) = isMuted m.
Proof.
  unfold sound_complete. destruct (objects _ !! h) as [s|]; [|done].
  destruct (s_state s), (s_loop s); try done.
  rewrite isMuted_foldl; [done|]. intros. apply isMuted_removeFromCategory.
Qed.

Lemma isMuted_stopBGM m : isMuted (stopBGM m) = isMuted m.
Proof.
  unfold stopBGM. destruct (bgmSound m), (currentBGM m); try done.
  case_decide; [done|]. destruct (fade_duration _); [done|].
  simpl. apply isMuted_sound_stop.
Qed.

Lemma isMuted_start_sound k e cfg r m :
  isMuted (start_sound k e cfg r m).2 = isMuted m.
Proof.
  destruct (decide (k ∈ cache_audio (scene m))) as [Hk|Hk];
    [|by rewrite start_sound_uncached].
  destruct (store m !! r) as [c|] eqn:E.
  - destruct (start_sound_result k e cfg r m c E Hk) as (m' & -> & H). simpl.
    apply H.
  - unfold start_sound. by rewrite E.
Qed.

Lemma isMuted_evict_oldest r m : isMuted (evict_oldest r m) = isMuted m.
Proof.
  unfold evict_oldest. destruct (store m !! r) as [c|]; [|done].
  destruct (playingSounds c); [done|]. by rewrite isMuted_sound_stop.
Qed.

Lemma isMuted_playSound k cfg m : isMuted (playSound k cfg m).2 = isMuted m.
Proof.
  unfold playSound. destruct (isMuted m) eqn:Hm; [done|].
  destruct (sounds m !! k); [|done].
  destruct (get_category m _) as [[r c]|]; [|done].
  case_decide; [|done].
  destruct (_ <=? _); [destruct (interrupts c)|]; try done;
    rewrite isMuted_start_sound, ?isMuted_evict_oldest; done.
Qed.

Lemma isMuted_playBGM k cfg m : isMuted (playBGM k cfg m) = isMuted m.
Proof.
  unfold playBGM. pose proof (isMuted_playSound k cfg (stopBGM m)) as H.
  destruct (playSound k cfg (stopBGM m)) as [[h|] m']; simpl in *;
    by rewrite H, isMuted_stopBGM.
Qed.

Lemma isMuted_clear_playing r m : isMuted (clear_playing r m) = isMuted m.
Proof. unfold clear_playing. by destruct (store m !! r). Qed.

Lemma isMuted_stopCategory n m : isMuted (stopCategory n m) = isMuted m.
Proof.
  unfold stopCategory. destruct (get_category m n) as [[r c]|]; [|done].
  rewrite isMuted_clear_playing, isMuted_foldl; [done|].
  intros. apply isMuted_sound_stop.
Qed.

Lemma isMuted_clearFadeTweens m : isMuted (clearFadeTweens m) = isMuted m.
Proof. unfold clearFadeTweens. simpl. by rewrite isMuted_foldl. Qed.

Lemma isMuted_stopAll m : isMuted (stopAll m) = isMuted m.
Proof.
  unfold stopAll. rewrite isMuted_clearFadeTweens. simpl.
  rewrite isMuted_foldl by (intros; apply isMuted_clear_playing).
  unfold scene_stopAll. rewrite isMuted_foldl; [done|].
  intros. apply isMuted_sound_stop.
Qed.

Lemma isMuted_apply_volume r m : isMuted (apply_volume r m) = isMuted m.
Proof.
  unfold apply_volume. destruct (store m !! r); [|done]. by rewrite isMuted_foldl.
Qed.

Lemma isMuted_setCategoryVolume n v m : isMuted (setCategoryVolume n v m) = isMuted m.
Proof.
  unfold setCategoryVolume. destruct (get_category m n) as [[r c]|]; [|done].
  by rewrite isMuted_apply_volume.
Qed.

Lemma isMuted_setGlobalVolume v m : isMuted (setGlobalVolume v m) = isMuted m.
Proof.
  unfold setGlobalVolume. rewrite isMuted_foldl; [done|].
  intros. apply isMuted_apply_volume.
Qed.

Lemma isMuted_setMuted b m : isMuted (setMuted b m) = b.
Proof. by destruct b. Qed.

Lemma isMuted_loadSettings s m : isMuted (loadSettings s m) = s_isMuted s.
Proof.
  unfold loadSettings. rewrite isMuted_foldl by (intros; apply isMuted_setCategoryVolume).
  apply isMuted_setMuted.
Qed.

Lemma isMuted_tween_complete i m : isMuted (tween_complete i m) = isMuted m.
Proof.
  unfold tween_complete. destruct (tweens _ !! i) as [tw|]; [|done].
  destruct (tw_done tw) as [[[]|]|]; simpl; rewrite ?isMuted_sound_stop; done.
Qed.

Lemma isMuted_registerSound k cat p cfg m :
  isMuted (registerSound k cat p cfg m) = isMuted m.
Proof. unfold registerSound. by destruct (AssetManager.map_get cat _). Qed.

Lemma isMuted_dispose m : isMuted (dispose m) = isMuted m.
Proof.
  unfold dispose. cbv zeta. cbn [isMuted].
  by rewrite isMuted_clearFadeTweens, isMuted_stopAll.
Qed.

#[export] Hint Rewrite isMuted_registerSound isMuted_playSound isMuted_playBGM
  isMuted_stopBGM isMuted_stopCategory isMuted_stopAll isMuted_setCategoryVolume
  isMuted_setGlobalVolume isMuted_setMuted isMuted_loadSettings isMuted_dispose
  isMuted_sound_complete isMuted_sound_stop isMuted_tween_complete : mute.

Lemma run_stays_muted op m :
  unmutes op = false → isMuted m = true → isMuted (run op m) = true.
Proof.
  intros Hop Hm.
  destruct op; cbn [run]; cbn [unmutes] in Hop; autorewrite with mute; try done.
  - by destruct b.
  - by destruct (s_isMuted s).
Qed.

Lemma run_all_stays_muted ops m :
  Forall (λ op, unmutes op = false) ops → isMuted m = true →
  isMuted (run_all ops m) = true.
Proof.
  intros Hops. revert m. induction Hops as [|op ops Hop Hops IH]; intros m Hm; [done|].
  simpl. apply IH. by apply run_stays_muted.
Qed.

(** *** Histories: the bound, refusals, mute *)

Lemma empty_scene_ok : scene_ok empty_scene.
Proof. intros h [s Hs]. simpl in Hs. by rewrite lookup_empty in Hs. Qed.

Lemma run_all_within_limit ops m : within_limit m → within_limit (run_all ops m).
Proof.
  revert m. induction ops as [|op ops IH]; intros m Hm; [done|].
  simpl. apply IH. by apply run_within_limit.
Qed.



Lemma start_sound_some k e cfg r m :
  is_Some (store m !! r) → k ∈ cache_audio (scene m) →
  is_Some (start_sound k e cfg r m).1.
Proof.
  intros [c Hc] Hk.
  destruct (start_sound_result k e cfg r m c Hc Hk) as (m' & -> & _).
  simpl. eauto.
Qed.

(** Claim C3.  [playSound] returns no handle exactly in the five refusal
    cases (muted, key not registered, category missing, key not in the audio
    cache, category full without interrupts), and in each of them it leaves
    the whole state, hence every list of playing sounds, as it was. *)
Theorem playSound_refusals m k cfg :
  (refused m k → playSound k cfg m = (None, m)) ∧
  ((playSound k cfg m).1 = None → refused m k).
Proof.
  unfold refused, playSound. split.
  - intros [Hm|[Hk|[(e & He & Hc)|[Hl|(e & r & c & He & Hc & Hfull & Hint)]]]].
    + by rewrite Hm.
    + destruct (isMuted m); [done|]. by rewrite Hk.
    + destruct (isMuted m); [done|]. by rewrite He, Hc.
    + destruct (isMuted m); [done|]. destruct (sounds m !! k) as [e|]; [|done].
      destruct (get_category m (category e)) as [[r c]|]; [|done].
      by rewrite decide_False.
    + destruct (isMuted m); [done|]. rewrite He, Hc.
      case_decide; [|done].
      destruct (Z.leb_spec (maxConcurrent c) (Z.of_nat (List.length (playingSounds c))));
        [by rewrite Hint|lia].
  - destruct (isMuted m) eqn:Hm; [by left|].
    destruct (sounds m !! k) as [e|] eqn:He; [|by right; left].
    destruct (get_category m (category e)) as [[r c]|] eqn:Hc;
      [|right; right; left; eauto].
    case_decide as Hl; [|by right; right; right; left].
    pose proof (get_category_store _ _ _ _ Hc) as Hst.
    destruct (Z.leb_spec (maxConcurrent c) (Z.of_nat (List.length (playingSounds c))))
      as [Hfull|Hroom].
    + destruct (interrupts c) eqn:Hint.
      * intros Hnone. exfalso.
        destruct (evict_oldest_shrinks r m) as [_ R _ _ _ _ _].
        destruct (start_sound_some k e cfg r (evict_oldest r m)) as [h Hh];
          [eauto|by rewrite cache_evict_oldest|].
        congruence.
      * intros _. right; right; right; right. eauto 10.
    + intros Hnone. exfalso.
      destruct (start_sound_some k e cfg r m) as [h Hh]; [eauto|done|]. congruence.
Qed.

(** Claim C7.  [setMuted true] raises the flag, pauses every playing sound
    on the host without stopping any, and leaves the categories, their lists
    of playing sounds and the background-music fields alone; as long as no
    operation lowers the flag again, [playSound] returns no handle and changes
    nothing; [setMuted false] lowers the flag and resumes every paused
    sound. *)
Theorem mute_pauses_and_blocks m :
  let mm := setMuted true m in
  (isMuted mm = true ∧ store mm = store m ∧ categories mm = categories m ∧
   currentBGM mm = currentBGM m ∧ bgmSound mm = bgmSound m) ∧
  (∀ h, objects (scene mm) !! h =
        (λ s, sound_with_state (paused (s_state s)) s) <$> objects (scene m) !! h) ∧
  (∀ ops k cfg, Forall (λ op, unmutes op = false) ops →
     let m' := run_all ops mm in
     isMuted m' = true ∧ playSound k cfg m' = (None, m')) ∧
  (∀ m', let mu := setMuted false m' in
     isMuted mu = false ∧ store mu = store m' ∧ categories mu = categories m' ∧
     ∀ h, objects (scene mu) !! h =
          (λ s, sound_with_state (resumed (s_state s)) s) <$> objects (scene m') !! h).
Proof.
  intros mm. split; [|split; [|split]].
  - by repeat split.
  - intros h. simpl. rewrite lookup_fmap.
    destruct (objects (scene m) !! h) as [s|]; [|done]. simpl. f_equal.
    unfold pause_one. destruct s as [? ? ? ? [] ? ?]; reflexivity.
  - intros ops k cfg Hops m'.
    assert (Hm : isMuted m' = true)
      by (apply run_all_stays_muted; [done|]; apply isMuted_setMuted).
    split; [done|]. unfold playSound. by rewrite Hm.
  - intros m' mu. split; [done|]. split; [done|]. split; [done|].
    intros h. simpl. rewrite lookup_fmap.
    destruct (objects (scene m') !! h) as [s|]; [|done]. simpl. f_equal.
    unfold resume_one. destruct s as [? ? ? ? [] ? ?]; reflexivity.
Qed.

(** *** Interrupting a full category *)

Lemma indexOf_None h l : h ∉ l → indexOf h l = None.
Proof.
  induction l as [|x l IH]; simpl; [done|].
  intros Hn. apply not_elem_of_cons in Hn as [Hne Hn].
  rewrite decide_False by done. by rewrite IH.
Qed.

Lemma removeFromCategory_untracked h r m :
  (∀ c, store m !! r = Some c → h ∉ playingSounds c) →
  removeFromCategory h r m = m.
Proof.
  intros Hn. unfold removeFromCategory.
  destruct (store m !! r) as [c|] eqn:E; [|done].
  by rewrite indexOf_None by eauto.
Qed.

(** Stopping a sound that no record tracks touches that sound only. *)
Lemma sound_stop_untracked h m :
  (∀ r c, store m !! r = Some c → h ∉ playingSounds c) →
  store (sound_stop h m) = store m ∧
  categories (sound_stop h m) = categories m ∧
  next_handle (scene (sound_stop h m)) = next_handle (scene m) ∧
  cache_audio (scene (sound_stop h m)) = cache_audio (scene m) ∧
  (∀ h', h' ≠ h → objects (scene (sound_stop h m)) !! h' = objects (scene m) !! h') ∧
  (∀ s, objects (scene m) !! h = Some s →
        ∃ s', objects (scene (sound_stop h m)) !! h = Some s' ∧ s_state s' = Idle).
Proof.
  intros Hn. unfold sound_stop.
  destruct (objects (scene m) !! h) as [s|] eqn:E; [|by repeat split].
  assert (Hfold : ∀ rs m0, store m0 = store m →
            foldl (λ m r, removeFromCategory h r m) m0 rs = m0).
  { induction rs as [|r rs IH]; intros m0 Hm0; [done|]. simpl.
    rewrite removeFromCategory_untracked; [by apply IH|].
    intros c. rewrite Hm0. apply Hn. }
  destruct (s_state s) eqn:Est.
  - repeat split; eauto; intros s0 [= <-]; eauto.
  - rewrite Hfold by done. simpl. repeat split.
    + intros h' Hne. by rewrite lookup_insert_ne.
    + intros s0 _. rewrite lookup_insert_eq. eauto.
  - rewrite Hfold by done. simpl. repeat split.
    + intros h' Hne. by rewrite lookup_insert_ne.
    + intros s0 _. rewrite lookup_insert_eq. eauto.
Qed.

(** Claim C2, amended: while the manager is not muted, playing a registered
    and cached key into an interrupting category whose list of playing
    sounds is not empty and full stops the head of the list and no other
    sound, starts a new sound, and leaves the list one shorter at the front
    and one longer at the back, so of the same length. *)
Theorem playSound_interrupt_evicts_oldest m k cfg e r c oldest rest :
  reachable m →
  isMuted m = false →
  sounds m !! k = Some e →
  k ∈ cache_audio (scene m) →
  get_category m (category e) = Some (r, c) →
  interrupts c = true →
  playingSounds c = oldest :: rest →
  Z.of_nat (List.length (playingSounds c)) = maxConcurrent c →
  ∃ new m',
    playSound k cfg m = (Some new, m') ∧
    objects (scene m) !! new = None ∧
    (∃ s, objects (scene m') !! new = Some s ∧ s_state s = Playing ∧ s_key s = k) ∧
    (∃ s, objects (scene m') !! oldest = Some s ∧ s_state s = Idle) ∧
    (∀ h, h ≠ oldest → h ≠ new → objects (scene m') !! h = objects (scene m) !! h) ∧
    (∃ c', get_category m' (category e) = Some (r, c') ∧
           playingSounds c' = rest ++ [new] ∧
           List.length (playingSounds c') = List.length (playingSounds c)).
Proof.
  intros Hreach Hmute He Hload Hcat Hint Hlist Hfull.
  pose proof (reachable_well_formed m Hreach) as [W1 W2 W3 W4 W5 W6 W7 W8].
  pose proof (get_category_store _ _ _ _ Hcat) as Hst.
  set (mi := set_store <[r := with_playing rest c]> m).
  assert (Hnd : NoDup (oldest :: rest)) by (rewrite <- Hlist; eauto).
  apply NoDup_cons in Hnd as [Hhead Hrest].
  assert (Huntracked : ∀ r' c', store mi !! r' = Some c' → oldest ∉ playingSounds c').
  { intros r' c'. subst mi. simpl.
    destruct (decide (r = r')) as [<-|Hne].
    - rewrite lookup_insert_eq. by intros [= <-].
    - rewrite lookup_insert_ne by done. intros Hc' Hin.
      apply Hne. eapply (W3 r r' c c' oldest); eauto. rewrite Hlist. left. }
  destruct (sound_stop_untracked oldest mi Huntracked)
    as (Hs1 & Hs2 & Hs3 & Hs4 & Hs5 & Hs6).
  assert (Hev : evict_oldest r m = sound_stop oldest mi)
    by (unfold evict_oldest; by rewrite Hst, Hlist).
  assert (Hsti : store (sound_stop oldest mi) !! r = Some (with_playing rest c))
    by (rewrite Hs1; subst mi; simpl; apply lookup_insert_eq).
  assert (Hload' : k ∈ cache_audio (scene (sound_stop oldest mi))) by (by rewrite Hs4).
  destruct (start_sound_result k e cfg r (sound_stop oldest mi) _ Hsti Hload')
    as (m' & Hplay & Hst' & Hold & Hnew & Hnext & Hcats & _).
  rewrite Hs3 in *. change (next_handle (scene mi)) with (next_handle (scene m)) in *.
  assert (Holdest : is_Some (objects (scene m) !! oldest)).
  { eapply W2; eauto. rewrite Hlist. left. }
  assert (Hne : oldest ≠ next_handle (scene m)).
  { apply W4 in Holdest. lia. }
  exists (next_handle (scene m)), m'. split; [|split; [|split; [|split; [|split]]]].
  - unfold playSound. rewrite Hmute, He, Hcat.
    rewrite decide_True by done. rewrite <- Hfull.
    rewrite Z.leb_refl, Hint, Hev. exact Hplay.
  - destruct (objects (scene m) !! next_handle (scene m)) eqn:E; [|done].
    assert (next_handle (scene m) < next_handle (scene m))%nat by eauto. lia.
  - exact Hnew.
  - destruct Holdest as [s Hs]. destruct (Hs6 s Hs) as (s' & Hs' & Hidle).
    exists s'. split; [|done]. by rewrite Hold.
  - intros h Hh1 Hh2. rewrite Hold by done. by rewrite Hs5.
  - exists (with_playing (rest ++ [next_handle (scene m)]) (with_playing rest c)).
    split; [|split].
    + unfold get_category. rewrite Hcats, Hs2. change (categories mi) with (categories m).
      unfold get_category in Hcat.
      destruct (AssetManager.map_get (category e) (categories m)) as [r0|]; [|done].
      destruct (store m !! r0); [|done]. injection Hcat as -> ->.
      rewrite Hst'. by rewrite lookup_insert_eq.
    + done.
    + simpl. rewrite length_app, Hlist. simpl. lia.
Qed.

(** *** Volume changes reach the playing sounds *)

Lemma volume_of_setVolume m h h' v :
  volume_of (sound_setVolume h' v m) h =
    if decide (h' = h) then (λ _, v) <$> volume_of m h else volume_of m h.
Proof.
  unfold volume_of, sound_setVolume. simpl.
  destruct (decide (h' = h)) as [->|Hne].
  - destruct (objects (scene m) !! h) as [s|] eqn:E; simpl.
    + by rewrite lookup_insert_eq.
    + by rewrite E.
  - destruct (objects (scene m) !! h') as [s|] eqn:E; simpl; [|done].
    by rewrite lookup_insert_ne.
Qed.

(** The loop of [apply_volume] over the playing sounds of one record. *)
Lemma set_volumes_spec (x : Qc) (f : Manager → Qc) l m :
  (∀ m h v, f (sound_setVolume h v m) = f m) →
  f m = x →
  let m' := foldl (λ m h, sound_setVolume h (f m) m) m l in
  store m' = store m ∧ globalVolume m' = globalVolume m ∧
  categories m' = categories m ∧ f m' = x ∧
  ∀ h, volume_of m' h =
       if decide (h ∈ l) then (λ _, x) <$> volume_of m h else volume_of m h.
Proof.
  intros Hf. revert m. induction l as [|h0 l IH]; intros m Hx; simpl.
  - repeat split; try done; intros h;
      by rewrite decide_False by apply not_elem_of_nil.
  - destruct (IH (sound_setVolume h0 (f m) m)) as (H1 & H2 & H3 & H4 & H5);
      [by rewrite Hf|].
    split; [exact H1|]. split; [exact H2|]. split; [exact H3|]. split; [exact H4|].
    intros h. rewrite H5, volume_of_setVolume, Hx.
    destruct (decide (h0 = h)) as [->|Hne].
    + destruct (decide (h ∈ h :: l)) as [_|Hn];
        [|exfalso; apply Hn, elem_of_cons; by left].
      destruct (decide (h ∈ l)); destruct (volume_of m h); done.
    + destruct (decide (h ∈ l)) as [Hin|Hin]; destruct (decide (h ∈ h0 :: l)) as [Hc|Hc];
        try done.
      * exfalso. apply Hc, elem_of_cons. by right.
      * apply elem_of_cons in Hc as [->|Hc]; done.
Qed.

Lemma apply_volume_spec r m :
  let m' := apply_volume r m in
  store m' = store m ∧ globalVolume m' = globalVolume m ∧
  categories m' = categories m ∧
  ∀ h, volume_of m' h =
       match store m !! r with
       | Some c => if decide (h ∈ playingSounds c)
                   then (λ _, (volume c * globalVolume m)%Qc) <$> volume_of m h
                   else volume_of m h
       | None => volume_of m h
       end.
Proof.
  unfold apply_volume. destruct (store m !! r) as [c|]; [|done].
  destruct (set_volumes_spec (volume c * globalVolume m)%Qc
              (λ m, (volume c * globalVolume m)%Qc) (playingSounds c) m)
    as (H1 & H2 & H3 & _ & H5); done.
Qed.

Lemma apply_volumes_frame (L : list (string * catref)) m :
  let m' := foldl (λ m e, apply_volume e.2 m) m L in
  store m' = store m ∧ globalVolume m' = globalVolume m ∧ categories m' = categories m.
Proof.
  revert m. induction L as [|e0 L IH]; intros m; simpl; [done|].
  destruct (apply_volume_spec e0.2 m) as (A1 & A2 & A3 & _).
  destruct (IH (apply_volume e0.2 m)) as (H1 & H2 & H3).
  repeat split; congruence.
Qed.

(** The loop of [setGlobalVolume] over the categories, seen from one sound
    [h]: [x] is the volume every record that tracks [h] asks for. *)
Lemma apply_volumes_spec (L : list (string * catref)) m h x :
  (∀ e c, e ∈ L → store m !! e.2 = Some c → h ∈ playingSounds c →
          (volume c * globalVolume m)%Qc = x) →
  let m' := foldl (λ m e, apply_volume e.2 m) m L in
  (volume_of m h = Some x → volume_of m' h = Some x) ∧
  ((∃ e c, e ∈ L ∧ store m !! e.2 = Some c ∧ h ∈ playingSounds c) →
   is_Some (volume_of m h) → volume_of m' h = Some x).
Proof.
  revert m. induction L as [|e0 L IH]; intros m Hx; simpl.
  - split; [done|]. intros (e & c & He & _). by apply elem_of_nil in He.
  - destruct (apply_volume_spec e0.2 m) as (A1 & A2 & A3 & A4).
    destruct (IH (apply_volume e0.2 m)) as (H4 & H5).
    { intros e c He. rewrite A1, A2. intros Hc Hh. eapply Hx; eauto. by right. }
    assert (Hkeep : volume_of m h = Some x →
                    volume_of (apply_volume e0.2 m) h = Some x).
    { intros Hv. rewrite A4. destruct (store m !! e0.2) as [c|] eqn:Ec; [|done].
      case_decide as Hin; [|done]. rewrite Hv. simpl. f_equal.
      eapply Hx; eauto. left. }
    split.
    + intros Hv. apply H4, Hkeep, Hv.
    + intros (e & c & He & Hc & Hh) [v Hv].
      apply elem_of_cons in He as [->|He].
      * apply H4. rewrite A4, Hc. rewrite decide_True by done. rewrite Hv. simpl.
        f_equal. eapply Hx; eauto. left.
      * apply H5.
        -- exists e, c. by rewrite A1.
        -- rewrite A4. destruct (store m !! e0.2) as [c0|]; [|eauto].
           case_decide; rewrite Hv; simpl; eauto.
Qed.

Lemma get_category_elem_of m n r c :
  get_category m n = Some (r, c) → (n, r) ∈ categories m ∧ store m !! r = Some c.
Proof.
  unfold get_category.
  destruct (AssetManager.map_get n (categories m)) as [r0|] eqn:E; [|done].
  destruct (store m !! r0) as [c0|] eqn:E0; [|done].
  intros [= <- <-]. split; [|done]. by apply map_get_Some.
Qed.

Lemma setGlobalVolume_spec v m :
  well_formed m →
  let m' := setGlobalVolume v m in
  store m' = store m ∧ categories m' = categories m ∧
  globalVolume m' = Clamp v 0 1 ∧
  ∀ n r c h, get_category m' n = Some (r, c) → h ∈ playingSounds c →
             volume_of m' h = Some (volume c * Clamp v 0 1)%Qc.
Proof.
  intros [W1 W2 W3 W4 W5 W6 W7 W8] m'. subst m'. unfold setGlobalVolume.
  set (m0 := set_globalVolume (Clamp v 0 1) m).
  destruct (apply_volumes_frame (categories m0) m0) as (F1 & F2 & F3).
  repeat split; try done.
  intros n r c h Hg Hh.
  apply get_category_elem_of in Hg as [Hin Hc]. rewrite F3 in Hin. rewrite F1 in Hc.
  destruct (apply_volumes_spec (categories m0) m0 h (volume c * Clamp v 0 1)%Qc)
    as [_ Hset].
  - intros e c' He Hc' Hh'. simpl in *.
    assert (e.2 = r) as Her by (eapply (W3 e.2 r c' c h); eauto).
    rewrite Her in Hc'. congruence.
  - apply Hset.
    + exists (n, r), c. done.
    + unfold volume_of. simpl. destruct (W2 r c h Hc Hh) as [s ->]. simpl. eauto.
Qed.

Lemma half_half : (q 1 2 * q 1 2)%Qc = q 1 4.
Proof. apply Qc_is_canon. reflexivity. Qed.

Lemma half_in_unit : (0 ≤ q 1 2)%Qc ∧ (q 1 2 ≤ 1)%Qc.
Proof. split; by vm_compute. Qed.

Lemma setCategoryVolume_spec n v m r c :
  get_category m n = Some (r, c) →
  let m' := setCategoryVolume n v m in
  store m' = <[r := with_volume (Clamp v 0 1) c]> (store m) ∧
  categories m' = categories m ∧ globalVolume m' = globalVolume m.
Proof.
  intros Hg. unfold setCategoryVolume. rewrite Hg.
  destruct (apply_volume_spec r (set_store <[r := with_volume (Clamp v 0 1) c]> m))
    as (A1 & A2 & A3 & _). done.
Qed.

Lemma setCategoryVolume_missing n v m :
  get_category m n = None → setCategoryVolume n v m = m.
Proof. intros Hg. unfold setCategoryVolume. by rewrite Hg. Qed.

(** Claim C6.  [setGlobalVolume v] stores [Clamp v 0 1] and gives every
    sound that a category tracks the volume of that category times
    [Clamp v 0 1]; after [setCategoryVolume "ui" 0.5] and
    [setGlobalVolume 0.5], every sound that "ui" tracks reads 0.25. *)
Theorem setGlobalVolume_effective m v :
  reachable m →
  (let m' := setGlobalVolume v m in
   globalVolume m' = Clamp v 0 1 ∧
   ∀ n r c h, get_category m' n = Some (r, c) → h ∈ playingSounds c →
              volume_of m' h = Some (volume c * Clamp v 0 1)%Qc) ∧
  (let m2 := setGlobalVolume (q 1 2) (setCategoryVolume "ui" (q 1 2) m) in
   ∀ r c h, get_category m2 "ui" = Some (r, c) → h ∈ playingSounds c →
            volume_of m2 h = Some (q 1 4)).
Proof.
  intros Hreach. pose proof (reachable_well_formed m Hreach) as Hwf. split.
  - destruct (setGlobalVolume_spec v m Hwf) as (_ & _ & Hg & Hv). split; [exact Hg|exact Hv].
  - intros m2 r c h. subst m2.
    set (m1 := setCategoryVolume "ui" (q 1 2) m). intros Hg Hh.
    assert (Hwf1 : well_formed m1)
      by (eapply well_formed_shrinks; [exact Hwf|apply setCategoryVolume_shrinks]).
    destruct (setGlobalVolume_spec (q 1 2) m1 Hwf1) as (Hst & Hcats & _ & Hv).
    rewrite (Hv "ui" r c h Hg Hh).
    destruct half_in_unit as [Hlo Hhi].
    rewrite (Clamp_unit_id _ Hlo Hhi). f_equal.
    assert (Hg1 : get_category m1 "ui" = Some (r, c)).
    { unfold get_category in *. by rewrite <- Hst, <- Hcats. }
    destruct (get_category m "ui") as [[r0 c0]|] eqn:Hg0.
    + destruct (setCategoryVolume_spec "ui" (q 1 2) m r0 c0 Hg0) as (S1 & S2 & _).
      fold m1 in S1, S2. unfold get_category in Hg1, Hg0. rewrite S1, S2 in Hg1.
      destruct (AssetManager.map_get "ui" (categories m)) as [r1|]; [|done].
      destruct (store m !! r1) as [c1|]; [|done]. injection Hg0 as -> ->.
      rewrite lookup_insert_eq in Hg1. injection Hg1 as <- <-. simpl.
      rewrite (Clamp_unit_id _ Hlo Hhi). apply half_half.
    + subst m1. rewrite (setCategoryVolume_missing _ _ _ Hg0) in Hg1. congruence.
Qed.

(** Claim C6, on a manager with one "ui" sound playing. *)
Lemma setGlobalVolume_effective_witness :
  let m := run_all ui_history (new_manager empty_scene None) in
  let m2 := setGlobalVolume (q 1 2) (setCategoryVolume "ui" (q 1 2) m) in
  reachable m ∧ volume_of m2 0%nat = Some (q 1 4).
Proof.
  intros m m2.
  assert (Hreach : reachable m)
    by (apply reachable_run_all, reach_new, empty_scene_ok).
  split; [exact Hreach|].
  destruct (setGlobalVolume_effective m (q 1 2) Hreach) as [_ H].
  eapply (H 0%nat).
  - vm_compute. reflexivity.
  - vm_compute. left.
Defined.

(** *** Saving and loading settings *)

Lemma NoDup_values_unique {V} (L : list (string * V)) n n' v :
  NoDup L.*2 → (n, v) ∈ L → (n', v) ∈ L → n = n'.
Proof.
  induction L as [|[n1 v1] L IH]; simpl; intros Hnd H1 H2.
  - by apply elem_of_nil in H1.
  - apply NoDup_cons in Hnd as [Hv Hnd].
    apply elem_of_cons in H1 as [E1|H1]; apply elem_of_cons in H2 as [E2|H2].
    + congruence.
    + injection E1 as -> ->. exfalso. apply Hv. by apply (list_elem_of_fmap_2 snd) in H2.
    + injection E2 as -> ->. exfalso. apply Hv. by apply (list_elem_of_fmap_2 snd) in H1.
    + by apply IH.
Qed.

Lemma saveSettings_fold_proto (S : gmap catref SoundCategory) (L : list (string * catref))
    (acc : gmap string Qc) :
  foldl (λ o e, match S !! e.2 with
                | Some c => object_set e.1 (volume c) o
                | None => o
                end) acc L !! "__proto__" = acc !! "__proto__".
Proof.
  revert acc. induction L as [|[n1 r1] L IH]; intros acc; simpl; [done|].
  rewrite IH. destruct (S !! r1) as [c1|]; [|done].
  unfold object_set. destruct (decide (n1 = "__proto__")); [done|].
  by rewrite lookup_insert_ne.
Qed.

Lemma saveSettings_fold (S : gmap catref SoundCategory) (L : list (string * catref))
    (acc : gmap string Qc) n :
  n ≠ "__proto__" →
  NoDup L.*1 → (∀ n r, (n, r) ∈ L → is_Some (S !! r)) →
  foldl (λ o e, match S !! e.2 with
                | Some c => object_set e.1 (volume c) o
                | None => o
                end) acc L !! n =
    match AssetManager.map_get n L with
    | Some r => volume <$> S !! r
    | None => acc !! n
    end.
Proof.
  intros Hn.
  revert acc. induction L as [|[n1 r1] L IH]; intros acc Hnd Hst; simpl; [done|].
  apply NoDup_cons in Hnd as [Hn1 Hnd].
  assert (Hst' : ∀ n r, (n, r) ∈ L → is_Some (S !! r))
    by (intros n' r' Hin; eapply Hst; apply list_elem_of_further; exact Hin).
  rewrite (IH _ Hnd Hst').
  destruct (Hst n1 r1) as [c1 Hc1]; [apply list_elem_of_here|]. rewrite Hc1.
  unfold object_set.
  destruct (decide (n1 = n)) as [->|Hne].
  - assert (AssetManager.map_get n L = None) as -> by (by apply map_get_None).
    simpl. rewrite decide_False by done. by rewrite lookup_insert_eq, Hc1.
  - destruct (AssetManager.map_get n L); [done|].
    destruct (decide (n1 = "__proto__")); [done|]. by rewrite lookup_insert_ne.
Qed.

(** What [saveSettings] holds for a name: the volume of the category, unless
    the name is [__proto__], for which nothing is saved. *)
Lemma saveSettings_lookup m n :
  well_formed m →
  s_categoryVolumes (saveSettings m) !! n =
    if decide (n = "__proto__") then None else category_volume m n.
Proof.
  intros [W1 W2 W3 W4 W5 W6 W7 W8]. unfold saveSettings, category_volume, get_category.
  simpl. destruct (decide (n = "__proto__")) as [->|Hn].
  - by rewrite saveSettings_fold_proto.
  - rewrite saveSettings_fold by done.
    destruct (AssetManager.map_get n (categories m)) as [r|]; [|done].
    by destruct (store m !! r).
Qed.

Lemma category_volume_names m n :
  well_formed m → (is_Some (category_volume m n) ↔ n ∈ (categories m).*1).
Proof.
  intros [W1 W2 W3 W4 W5 W6 W7 W8]. unfold category_volume, get_category.
  destruct (AssetManager.map_get n (categories m)) as [r|] eqn:E.
  - apply map_get_Some in E. destruct (W7 n r E) as [c ->]. simpl.
    split; [|eauto]. intros _. by apply (list_elem_of_fmap_2 fst) in E.
  - simpl. split; [by intros [? ?]|]. intros Hin. by apply map_get_None in E.
Qed.

Lemma category_volume_setCategoryVolume m n' v n :
  well_formed m →
  category_volume (setCategoryVolume n' v m) n =
    if decide (n' = n) then (λ _, Clamp v 0 1) <$> category_volume m n
    else category_volume m n.
Proof.
  intros [W1 W2 W3 W4 W5 W6 W7 W8].
  destruct (get_category m n') as [[r' c']|] eqn:Hg'.
  - destruct (setCategoryVolume_spec n' v m r' c' Hg') as (S1 & S2 & _).
    unfold category_volume, get_category in *. rewrite S1, S2.
    destruct (decide (n' = n)) as [->|Hne].
    + destruct (AssetManager.map_get n (categories m)) as [r|]; [|done].
      destruct (store m !! r) as [c|]; [|done]. injection Hg' as -> ->.
      by rewrite lookup_insert_eq.
    + destruct (AssetManager.map_get n' (categories m)) as [r1|] eqn:E'; [|done].
      destruct (store m !! r1) as [c1|]; [|done]. injection Hg' as -> ->.
      destruct (AssetManager.map_get n (categories m)) as [r|] eqn:E; [|done].
      assert (r' ≠ r).
      { intros ->. apply Hne. apply map_get_Some in E, E'.
        symmetry. eapply (NoDup_values_unique (categories m)); eauto. }
      by rewrite lookup_insert_ne.
  - rewrite (setCategoryVolume_missing _ _ _ Hg').
    destruct (decide (n' = n)) as [->|Hne]; [|done].
    unfold category_volume. by rewrite Hg'.
Qed.

Lemma setCategoryVolume_fold_frame (E : list (string * Qc)) m :
  let m' := foldl (λ m e, setCategoryVolume e.1 e.2 m) m E in
  globalVolume m' = globalVolume m ∧ categories m' = categories m.
Proof.
  revert m. induction E as [|[n1 v1] E IH]; intros m; simpl; [done|].
  destruct (IH (setCategoryVolume n1 v1 m)) as [H1 H2].
  destruct (get_category m n1) as [[r c]|] eqn:Hg.
  - destruct (setCategoryVolume_spec n1 v1 m r c Hg) as (_ & S2 & S3).
    split; congruence.
  - rewrite (setCategoryVolume_missing _ _ _ Hg) in *. done.
Qed.

Lemma setCategoryVolume_fold_volumes (E : list (string * Qc)) m n :
  well_formed m → NoDup E.*1 →
  category_volume (foldl (λ m e, setCategoryVolume e.1 e.2 m) m E) n =
    match (list_to_map E : gmap string Qc) !! n with
    | Some v => (λ _, Clamp v 0 1) <$> category_volume m n
    | None => category_volume m n
    end.
Proof.
  revert m. induction E as [|[n1 v1] E IH]; intros m Hwf Hnd; simpl.
  - by rewrite lookup_empty.
  - apply NoDup_cons in Hnd as [Hn1 Hnd].
    rewrite IH; [|eapply well_formed_shrinks; eauto using setCategoryVolume_shrinks|done].
    rewrite category_volume_setCategoryVolume by done.
    destruct (decide (n1 = n)) as [->|Hne].
    + rewrite lookup_insert_eq.
      rewrite (not_elem_of_list_to_map_1 E n) by done.
      done.
    + by rewrite lookup_insert_ne.
Qed.

Lemma category_volume_frame m m' n :
  store m' = store m → categories m' = categories m →
  category_volume m' n = category_volume m n.
Proof. intros Hs Hc. unfold category_volume, get_category. by rewrite Hs, Hc. Qed.

Lemma loadSettings_spec s m :
  well_formed m →
  let m' := loadSettings s m in
  globalVolume m' = Clamp (s_globalVolume s) 0 1 ∧
  isMuted m' = s_isMuted s ∧
  categories m' = categories m ∧
  ∀ n, category_volume m' n =
       match s_categoryVolumes s !! n with
       | Some v => (λ _, Clamp v 0 1) <$> category_volume m n
       | None => category_volume m n
       end.
Proof.
  intros Hwf m'. subst m'. unfold loadSettings.
  set (m1 := setGlobalVolume (s_globalVolume s) m).
  set (m2 := setMuted (s_isMuted s) m1).
  destruct (setGlobalVolume_spec (s_globalVolume s) m Hwf) as (G1 & G2 & G3 & _).
  fold m1 in G1, G2, G3.
  assert (Hwf2 : well_formed m2).
  { eapply well_formed_shrinks; [exact Hwf|].
    eapply shrinks_trans; [apply setGlobalVolume_shrinks|apply setMuted_shrinks]. }
  assert (M1 : store m2 = store m1) by (subst m2; by destruct (s_isMuted s)).
  assert (M2 : categories m2 = categories m1) by (subst m2; by destruct (s_isMuted s)).
  assert (M3 : globalVolume m2 = globalVolume m1) by (subst m2; by destruct (s_isMuted s)).
  destruct (setCategoryVolume_fold_frame (map_to_list (s_categoryVolumes s)) m2)
    as [F1 F2].
  split; [by rewrite F1, M3|]. split; [apply isMuted_loadSettings|].
  split; [by rewrite F2, M2|].
  intros n. rewrite setCategoryVolume_fold_volumes;
    [|done|apply NoDup_fst_map_to_list].
  rewrite list_to_map_to_list.
  rewrite (category_volume_frame m m2) by congruence. done.
Qed.


(** *** Concrete histories *)

Lemma volumes_in_unit_sound m :
  volumes_in_unit m = true → ∀ n x, category_volume m n = Some x → in_unit x.
Proof.
  unfold volumes_in_unit. rewrite forallb_forall. intros Hall n x.
  unfold category_volume. destruct (get_category m n) as [[r c]|] eqn:Hg; [|done].
  intros [= <-]. apply get_category_elem_of in Hg as [Hin Hc].
  apply list_elem_of_In in Hin. specialize (Hall _ Hin). simpl in Hall.
  rewrite Hc in Hall. by apply bool_decide_eq_true in Hall.
Qed.



(** Nor does the round trip reach a category named [__proto__]: defined
    with volume 1/2, it is missing from the saved settings, and a manager
    with the same category at its initial volume keeps 1 after loading. *)
Lemma settings_roundtrip_proto_not_saved :
  let src := defineCategory "__proto__" soft (new_manager empty_scene None) in
  let fresh :=
    defineCategory "__proto__" no_category_config (new_manager empty_scene None) in
  let loaded := loadSettings (saveSettings src) fresh in
  (categories fresh).*1 = (categories src).*1 ∧
  category_volume src "__proto__" = Some (q 1 2) ∧
  s_categoryVolumes (saveSettings src) !! "__proto__" = None ∧
  category_volume loaded "__proto__" = Some 1%Qc.
Proof.
  intros src fresh loaded. split; [reflexivity|]. split; [reflexivity|].
  split; [reflexivity|]. vm_compute. reflexivity.
Qed.

(** Claim C8 fails on [defineCategory]: a category defined with volume 2
    stores 2, outside [0,1], where [setCategoryVolume] with the same value
    stores 1. *)
Theorem defineCategory_keeps_volume_unclamped :
  let m := defineCategory "loud" loud (new_manager empty_scene None) in
  category_volume m "loud" = Some (q 2 1) ∧ ¬ in_unit (q 2 1) ∧
  category_volume (setCategoryVolume "loud" (q 2 1) m) "loud" = Some 1%Qc.
Proof.
  intros m. split; [reflexivity|]. split.
  - intros [_ H]. vm_compute in H. by apply H.
  - vm_compute. reflexivity.
Qed.

(** Claim C4 fails once the fade-out ends.  After [playBGM "a"] and
    [playBGM "b"], sound "a" is stopped, its fade-out tween is still running,
    and "b" is the current background music; when that tween completes, its
    callback clears the background-music fields although "b" keeps playing. *)
Theorem playBGM_switch_then_fade_clears_bgm :
  let m0 := run_all bgm_history (new_manager bgm_scene None) in
  let m2 := playBGM "b" no_config (playBGM "a" no_config m0) in
  let m3 := tween_complete 0 m2 in
  (getCurrentBGM m2 = Some "b" ∧ bgmSound m2 = Some 1%nat ∧
   s_state <$> objects (scene m2) !! 0%nat = Some Idle ∧
   s_state <$> objects (scene m2) !! 1%nat = Some Playing ∧
   tw_target <$> tweens (scene m2) !! 0%nat = Some 0%nat ∧
   tw_done <$> tweens (scene m2) !! 0%nat = Some (Some (Some ClearBGM))) ∧
  (getCurrentBGM m3 = None ∧ bgmSound m3 = None ∧
   s_state <$> objects (scene m3) !! 1%nat = Some Playing ∧
   (λ rc, playingSounds rc.2) <$> get_category m3 "bgm" = Some [1%nat]).
Proof. vm_compute. repeat split. Qed.

Lemma playSound_muted m k cfg : isMuted m = true → playSound k cfg m = (None, m).
Proof. intros Hm. unfold playSound. by rewrite Hm. Qed.

(** Claim C2 as stated fails on a muted manager: the key is registered and
    cached, its category interrupts and is full, and [playSound] neither
    stops nor starts anything. *)
Lemma playSound_interrupt_when_muted :
  let m := run_all muted_history (new_manager empty_scene None) in
  (∃ e r c, sounds m !! "line" = Some e ∧ "line" ∈ cache_audio (scene m) ∧
            get_category m (category e) = Some (r, c) ∧ interrupts c = true ∧
            playingSounds c = [0%nat] ∧
            Z.of_nat (List.length (playingSounds c)) = maxConcurrent c) ∧
  playSound "line" no_config m = (None, m).
Proof.
  intros m. split.
  - eexists _, _, _. split; [vm_compute; reflexivity|].
    split; [by vm_compute|]. split; [vm_compute; reflexivity|].
    repeat split.
  - apply playSound_muted. reflexivity.
Qed.

(** With [maxConcurrent = 0] the empty list is full and has no head: nothing
    is stopped and the list grows. *)
Lemma playSound_interrupt_when_limit_zero :
  let m := run_all limit_zero_history (new_manager empty_scene None) in
  (∃ e r c, sounds m !! "x" = Some e ∧ "x" ∈ cache_audio (scene m) ∧
            isMuted m = false ∧
            get_category m (category e) = Some (r, c) ∧ interrupts c = true ∧
            playingSounds c = [] ∧
            Z.of_nat (List.length (playingSounds c)) = maxConcurrent c) ∧
  (λ rc, playingSounds rc.2) <$> get_category (playSound "x" no_config m).2 "none"
    = Some [0%nat].
Proof.
  intros m. split.
  - eexists _, _, _. split; [vm_compute; reflexivity|].
    split; [by vm_compute|]. split; [reflexivity|].
    split; [vm_compute; reflexivity|]. repeat split.
  - vm_compute. reflexivity.
Qed.

(** Claim C2 as amended, on the one-voice category with one sound playing. *)
Lemma playSound_interrupt_evicts_oldest_witness :
  let m := run_all voice_playing (new_manager empty_scene None) in
  reachable m ∧
  ∃ m', playSound "line" no_config m = (Some 1%nat, m') ∧
        (λ rc, playingSounds rc.2) <$> get_category m' "voice" = Some [1%nat].
Proof.
  intros m.
  assert (Hreach : reachable m)
    by (apply reachable_run_all, reach_new, empty_scene_ok).
  split; [exact Hreach|].
  destruct (playSound_interrupt_evicts_oldest m "line" no_config
              (mkEntry "line" "voice" ["line.mp3"] no_config false) 3%nat
              (mkCategory "voice" (q 9 10) false 1 true None None [0%nat]) 0%nat []
              Hreach)
    as (new & m' & Hplay & _ & _ & _ & _ & (c' & Hg & Hl & _)).
  - reflexivity.
  - reflexivity.
  - by vm_compute.
  - reflexivity.
  - reflexivity.
  - reflexivity.
  - reflexivity.
  - assert (Hn : (playSound "line" no_config m).1 = Some 1%nat) by reflexivity.
    rewrite Hplay in Hn. simpl in Hn. injection Hn as ->.
    exists m'. split; [exact Hplay|].
    simpl in Hg. rewrite Hg. simpl. by rewrite Hl.
Defined.

(** *** Where volumes outside the unit interval can come from *)

Lemma unit_volumes_shrinks m m' : unit_volumes m → shrinks m m' → unit_volumes m'.
Proof.
  intros [Hg Hv] [S _ _ _ _ _ G]. split.
  - destruct G as [->|G]; done.
  - intros r c' Hc'. destruct (S r c' Hc') as (c & Hc & _ & _ & [->|Hu]); eauto.
Qed.

Lemma one_in_unit : in_unit 1%Qc.
Proof. split; by vm_compute. Qed.

Lemma defineCategory_unit_volumes n cfg m :
  from_option in_unit True (cc_volume cfg) →
  unit_volumes m → unit_volumes (defineCategory n cfg m).
Proof.
  intros Hcfg [Hg Hv]. split; [exact Hg|].
  intros r c. unfold defineCategory. simpl.
  destruct (decide (next_ref m = r)) as [<-|Hne].
  - rewrite lookup_insert_eq. intros [= <-]. simpl.
    destruct (cc_volume cfg); [exact Hcfg|apply one_in_unit].
  - rewrite lookup_insert_ne by done. apply Hv.
Qed.

Lemma start_sound_unit_volumes k e cfg r m :
  unit_volumes m → unit_volumes (start_sound k e cfg r m).2.
Proof.
  intros [Hg Hv].
  destruct (decide (k ∈ cache_audio (scene m))) as [Hk|Hk];
    [|by rewrite start_sound_uncached].
  destruct (store m !! r) as [c|] eqn:Hc;
    [|unfold start_sound; by rewrite Hc].
  destruct (start_sound_result k e cfg r m c Hc Hk)
    as (m' & -> & Hst & _ & _ & _ & _ & _ & _ & Hgv).
  simpl. split; [by rewrite Hgv|].
  intros r' c'. rewrite Hst. destruct (decide (r = r')) as [<-|Hne].
  - rewrite lookup_insert_eq. intros [= <-]. simpl. eauto.
  - rewrite lookup_insert_ne by done. apply Hv.
Qed.

Lemma playSound_unit_volumes k cfg m :
  unit_volumes m → unit_volumes (playSound k cfg m).2.
Proof.
  intros Hm. unfold playSound.
  destruct (isMuted m); [done|].
  destruct (sounds m !! k) as [e|]; [|done].
  destruct (get_category m (category e)) as [[r c]|]; [|done].
  case_decide; [|done].
  destruct (_ <=? _); [destruct (interrupts c); [|done]|].
  - apply start_sound_unit_volumes.
    eapply unit_volumes_shrinks; eauto using evict_oldest_shrinks.
  - by apply start_sound_unit_volumes.
Qed.

Lemma run_unit_volumes op m :
  defines_in_unit op → unit_volumes m → unit_volumes (run op m).
Proof.
  intros Hop Hm. pose proof (run_shrinks op m) as Hs.
  destruct op; try (eapply unit_volumes_shrinks; [exact Hm|exact Hs]); cbn [run].
  - by apply defineCategory_unit_volumes.
  - unfold registerSound. destruct (AssetManager.map_get cat (categories m)).
    + exact Hm.
    + by apply (defineCategory_unit_volumes cat no_category_config) in Hm.
  - by apply playSound_unit_volumes.
  - unfold playBGM.
    pose proof (playSound_unit_volumes k cfg (stopBGM m)
                  (unit_volumes_shrinks _ _ Hm (stopBGM_shrinks m))) as H.
    by destruct (playSound k cfg (stopBGM m)) as [[h|] m'].
  - assert (H : unit_volumes (clearFadeTweens (stopAll m))).
    { eapply unit_volumes_shrinks; [exact Hm|].
      eapply shrinks_trans; [apply stopAll_shrinks|apply clearFadeTweens_shrinks]. }
    exact H.
Qed.

Lemma new_manager_unit_volumes sc am : unit_volumes (new_manager sc am).
Proof.
  unfold new_manager, setupDefaultCategories.
  repeat (apply defineCategory_unit_volumes; [split; by vm_compute|]).
  split; [apply one_in_unit|]. intros r c. simpl. by rewrite lookup_empty.
Qed.

(** Among the finite numbers, which are the volumes of this model, volumes
    leave the unit interval through [defineCategory] only: a history whose
    category definitions supply volumes of the unit interval keeps the
    global volume and every category volume there. *)
Lemma volumes_unit_but_for_defineCategory sc am ops :
  Forall defines_in_unit ops → unit_volumes (run_all ops (new_manager sc am)).
Proof.
  intros Hops. generalize (new_manager_unit_volumes sc am).
  generalize (new_manager sc am).
  induction Hops as [|op ops Hop Hops IH]; intros m Hm; [done|].
  simpl. apply IH. by apply run_unit_volumes.
Qed.

(** *** Tracked sounds and their listeners *)

Lemma keeps_alive_refl m : keeps_alive m m.
Proof. intros h s Hs Hst. by exists s. Qed.

Lemma keeps_alive_trans m1 m2 m3 :
  keeps_alive m1 m2 → keeps_alive m2 m3 → keeps_alive m1 m3.
Proof.
  intros H12 H23 h s Hs Hst.
  destruct (H12 h s Hs Hst) as (s2 & Hs2 & Hst2 & Hc2 & Ho2).
  destruct (H23 h s2 Hs2 Hst2) as (s3 & Hs3 & Hst3 & Hc3 & Ho3).
  exists s3. rewrite Hc3, Ho3. done.
Qed.

Lemma keeps_alive_objects m m' :
  objects (scene m') = objects (scene m) → keeps_alive m m'.
Proof. intros Heq h s Hs Hst. exists s. by rewrite Heq. Qed.

Lemma keeps_alive_foldl {A} (f : Manager → A → Manager) (l : list A) m :
  (∀ m x, keeps_alive m (f m x)) → keeps_alive m (foldl f m l).
Proof.
  intros Hf. revert m. induction l as [|x l IH]; intros m; [apply keeps_alive_refl|].
  eapply keeps_alive_trans; [apply Hf|apply IH].
Qed.

Lemma keeps_alive_update h (g : Sound → Sound) m :
  (∀ s, s_state s ≠ Idle → s_state (g s) ≠ Idle) →
  (∀ s, s_once_complete (g s) = s_once_complete s ∧ s_once_stop (g s) = s_once_stop s) →
  keeps_alive m (set_scene (set_objects (λ o, match o !! h with
                                              | Some s => <[h := g s]> o
                                              | None => o
                                              end)) m).
Proof.
  intros Hst Hl h' s Hs Hne. cbn.
  destruct (objects (scene m) !! h) as [s0|] eqn:E; [|by exists s].
  destruct (decide (h = h')) as [<-|Hh].
  - rewrite lookup_insert_eq. assert (s0 = s) as -> by congruence.
    exists (g s). destruct (Hl s). auto.
  - rewrite lookup_insert_ne by done. by exists s.
Qed.

Lemma keeps_alive_fmap (g : Sound → Sound) m :
  (∀ s, s_state s ≠ Idle → s_state (g s) ≠ Idle) →
  (∀ s, s_once_complete (g s) = s_once_complete s ∧ s_once_stop (g s) = s_once_stop s) →
  keeps_alive m (set_scene (set_objects (fmap g)) m).
Proof.
  intros Hst Hl h s Hs Hne. cbn. rewrite lookup_fmap, Hs. cbn.
  exists (g s). destruct (Hl s). auto.
Qed.

Lemma sound_setVolume_keeps_alive h v m : keeps_alive m (sound_setVolume h v m).
Proof. apply (keeps_alive_update h (sound_with_volume v)); by intros s. Qed.

Lemma sound_play_keeps_alive h m : keeps_alive m (sound_play h m).
Proof. apply (keeps_alive_update h (sound_with_state Playing)); by intros s. Qed.

Lemma pauseAll_keeps_alive m : keeps_alive m (set_scene pauseAll m).
Proof.
  apply keeps_alive_fmap; intros s; unfold pause_one;
    destruct (s_state s) eqn:E; cbn; rewrite ?E; done.
Qed.

Lemma resumeAll_keeps_alive m : keeps_alive m (set_scene resumeAll m).
Proof.
  apply keeps_alive_fmap; intros s; unfold resume_one;
    destruct (s_state s) eqn:E; cbn; rewrite ?E; done.
Qed.

Lemma removeFromCategory_objects h r m :
  scene (removeFromCategory h r m) = scene m.
Proof.
  unfold removeFromCategory. destruct (store m !! r) as [c|]; [|done].
  by destruct (indexOf h (playingSounds c)).
Qed.

Lemma remove_fold_scene h (rs : list catref) m :
  scene (foldl (λ m r, removeFromCategory h r m) m rs) = scene m.
Proof.
  revert m. induction rs as [|r rs IH]; intros m; [done|].
  cbn [foldl]. by rewrite IH, removeFromCategory_objects.
Qed.

Lemma clear_playing_scene r m : scene (clear_playing r m) = scene m.
Proof. unfold clear_playing. by destruct (store m !! r). Qed.

Lemma clear_playing_fold_scene (L : list (string * catref)) m :
  scene (foldl (λ m e, clear_playing e.2 m) m L) = scene m.
Proof.
  revert m. induction L as [|e L IH]; intros m; [done|].
  cbn [foldl]. by rewrite IH, clear_playing_scene.
Qed.

Lemma clearFadeTweens_objects m :
  objects (scene (clearFadeTweens m)) = objects (scene m).
Proof.
  unfold clearFadeTweens. cbn.
  generalize (fadeTweens m). intros L. revert m.
  induction L as [|e L IH]; intros m; [done|]. cbn [foldl]. by rewrite IH.
Qed.

Lemma apply_volume_keeps_alive r m : keeps_alive m (apply_volume r m).
Proof.
  unfold apply_volume. destruct (store m !! r); [|apply keeps_alive_refl].
  apply keeps_alive_foldl. intros. apply sound_setVolume_keeps_alive.
Qed.

Lemma setCategoryVolume_keeps_alive n v m : keeps_alive m (setCategoryVolume n v m).
Proof.
  unfold setCategoryVolume. destruct (get_category m n) as [[r c]|]; [|apply keeps_alive_refl].
  eapply keeps_alive_trans; [|apply apply_volume_keeps_alive].
  by apply keeps_alive_objects.
Qed.

Lemma setGlobalVolume_keeps_alive v m : keeps_alive m (setGlobalVolume v m).
Proof.
  unfold setGlobalVolume.
  eapply keeps_alive_trans;
    [by apply (keeps_alive_objects m (set_globalVolume (Clamp v 0 1) m))|].
  apply keeps_alive_foldl. intros. apply apply_volume_keeps_alive.
Qed.

Lemma setMuted_keeps_alive b m : keeps_alive m (setMuted b m).
Proof.
  unfold setMuted.
  eapply keeps_alive_trans; [by apply (keeps_alive_objects m (set_isMuted b m))|].
  destruct b; [apply pauseAll_keeps_alive|apply resumeAll_keeps_alive].
Qed.

Lemma loadSettings_keeps_alive s m : keeps_alive m (loadSettings s m).
Proof.
  unfold loadSettings.
  eapply keeps_alive_trans; [apply setGlobalVolume_keeps_alive|].
  eapply keeps_alive_trans; [apply setMuted_keeps_alive|].
  apply keeps_alive_foldl. intros. apply setCategoryVolume_keeps_alive.
Qed.

(** Operations that only take sounds off the lists and keep the sounds
    themselves alive preserve the invariant. *)
Lemma sane_shrinks m m' : sane m → shrinks m m' → keeps_alive m m' → sane m'.
Proof.
  intros [Hwf Hal] Hs Hk. split; [by eapply well_formed_shrinks|].
  intros r c' h Hc' Hh.
  destruct (shr_store _ _ Hs r c' Hc') as (c & Hc & Hsub & _).
  assert (Hin : h ∈ playingSounds c) by (eapply sublist_subseteq; eauto).
  destruct (Hal r c h Hc Hin) as (s & Hs1 & Hst & Hoc & Hos).
  destruct (Hk h s Hs1 Hst) as (s' & Hs' & Hst' & Hoc' & Hos').
  exists s'. rewrite Hoc', Hos'. done.
Qed.

(** *** Taking a sound off its record *)

Lemma indexOf_Some_elem h l i : indexOf h l = Some i → h ∈ l.
Proof.
  revert i. induction l as [|x l IH]; intros i; cbn; [done|].
  destruct (decide (x = h)) as [->|Hne]; [intros _; apply list_elem_of_here|].
  destruct (indexOf h l) as [j|]; [|done]. intros _.
  apply list_elem_of_further. by eapply IH.
Qed.

Lemma indexOf_elem h l : h ∈ l → is_Some (indexOf h l).
Proof.
  induction l as [|x l IH]; intros Hin; [by apply elem_of_nil in Hin|]. cbn.
  destruct (decide (x = h)); [by eexists|].
  apply elem_of_cons in Hin as [->|Hin]; [done|].
  destruct (IH Hin) as [j ->]. by eexists.
Qed.

Lemma delete_indexOf h l i : NoDup l → indexOf h l = Some i → h ∉ delete i l.
Proof.
  revert i. induction l as [|x l IH]; intros i Hnd; cbn; [done|].
  apply NoDup_cons in Hnd as [Hx Hnd].
  destruct (decide (x = h)) as [->|Hne].
  - intros [= <-]. exact Hx.
  - destruct (indexOf h l) as [j|] eqn:E; [|done]. intros [= <-]. cbn.
    intros Hin. apply elem_of_cons in Hin as [->|Hin]; [done|].
    by apply (IH j Hnd).
Qed.

Lemma removeFromCategory_store h r m r' c' :
  store (removeFromCategory h r m) !! r' = Some c' →
  ∃ c, store m !! r' = Some c ∧
       (r' ≠ r → c' = c) ∧
       (r' = r → NoDup (playingSounds c) → h ∉ playingSounds c').
Proof.
  unfold removeFromCategory.
  destruct (store m !! r) as [c|] eqn:Hc.
  - destruct (indexOf h (playingSounds c)) as [i|] eqn:Hi.
    + cbn. destruct (decide (r = r')) as [<-|Hne].
      * rewrite lookup_insert_eq. intros [= <-]. exists c. split; [done|].
        split; [done|]. intros _ Hnd. cbn. by apply delete_indexOf.
      * rewrite lookup_insert_ne by done. intros Hc'. exists c'. split; [done|].
        split; [done|]. intros ->. done.
    + intros Hc'. exists c'. split; [done|]. split; [done|].
      intros -> _ Hin. assert (c' = c) as -> by congruence.
      apply indexOf_elem in Hin. rewrite Hi in Hin. by destruct Hin.
  - intros Hc'. exists c'. split; [done|]. split; [done|]. intros ->. congruence.
Qed.

(** Running the listeners of a sound takes it off every record, provided
    every record that tracks it is among the listeners. *)
Lemma remove_fold_clears h (rs : list catref) m :
  (∀ r c, store m !! r = Some c → NoDup (playingSounds c)) →
  (∀ r c, store m !! r = Some c → h ∈ playingSounds c → r ∈ rs) →
  untracked (foldl (λ m r, removeFromCategory h r m) m rs) h.
Proof.
  revert m. induction rs as [|r1 rs IH]; intros m Hnd Hin.
  - intros r c Hc Hh. pose proof (Hin r c Hc Hh) as H. by apply elem_of_nil in H.
  - cbn [foldl]. apply IH.
    + intros r c' Hc'.
      destruct (shr_store _ _ (removeFromCategory_shrinks h r1 m) r c' Hc')
        as (c & Hc & Hsub & _).
      eapply sublist_NoDup; [exact (Hnd r c Hc)|exact Hsub].
    + intros r c' Hc' Hh.
      destruct (removeFromCategory_store h r1 m r c' Hc') as (c & Hc & Hother & Hsame).
      destruct (decide (r = r1)) as [->|Hne].
      * exfalso. by apply (Hsame eq_refl (Hnd r1 c Hc)).
      * rewrite (Hother Hne) in Hh. pose proof (Hin r c Hc Hh) as H.
        apply elem_of_cons in H as [?|?]; done.
Qed.

Lemma sound_stop_objects h m s :
  objects (scene m) !! h = Some s → s_state s ≠ Idle →
  objects (scene (sound_stop h m)) =
    <[h := mkSound (s_key s) (s_volume s) (s_loop s) (s_config s) Idle
                   (s_once_complete s) []]> (objects (scene m)).
Proof.
  intros Hs Hst. unfold sound_stop. rewrite Hs.
  destruct (s_state s); [done| |]; by rewrite remove_fold_scene.
Qed.

Lemma sound_stop_idle h m :
  silent m h → sound_stop h m = m.
Proof.
  intros Hsil. unfold sound_stop.
  destruct (objects (scene m) !! h) as [s|] eqn:Hs; [|done].
  by rewrite (Hsil s Hs).
Qed.

Lemma sound_stop_silent h m : silent (sound_stop h m) h.
Proof.
  destruct (objects (scene m) !! h) as [s|] eqn:Hs.
  - destruct (decide (s_state s = Idle)) as [Hi|Hi].
    + rewrite sound_stop_idle; intros s'; congruence.
    + intros s'. rewrite (sound_stop_objects h m s Hs Hi), lookup_insert_eq.
      by intros [= <-].
  - rewrite sound_stop_idle; intros s'; congruence.
Qed.

Lemma sound_stop_others h m h' :
  h' ≠ h → objects (scene (sound_stop h m)) !! h' = objects (scene m) !! h'.
Proof.
  intros Hne.
  destruct (objects (scene m) !! h) as [s|] eqn:Hs.
  - destruct (decide (s_state s = Idle)) as [Hi|Hi].
    + rewrite sound_stop_idle; [done|]. intros s'. congruence.
    + rewrite (sound_stop_objects h m s Hs Hi). by rewrite lookup_insert_ne.
  - rewrite sound_stop_idle; [done|]. intros s'. congruence.
Qed.

Lemma sound_stop_untracks h m : sane m → untracked (sound_stop h m) h.
Proof.
  intros [Hwf Hal].
  destruct (objects (scene m) !! h) as [s|] eqn:Hs.
  - destruct (decide (s_state s = Idle)) as [Hi|Hi].
    + rewrite sound_stop_idle by (intros s'; congruence).
      intros r c Hc Hh. destruct (Hal r c h Hc Hh) as (s' & Hs' & Hne & _). congruence.
    + unfold sound_stop. rewrite Hs.
      assert (Hgoal : untracked
                (foldl (λ m r, removeFromCategory h r m)
                   (set_scene (set_objects <[h := mkSound (s_key s) (s_volume s) (s_loop s)
                                 (s_config s) Idle (s_once_complete s) []]>) m)
                   (s_once_stop s)) h).
      { apply remove_fold_clears.
        - intros r c Hc. exact (wf_nodup _ Hwf r c Hc).
        - intros r c Hc Hh. destruct (Hal r c h Hc Hh) as (s' & Hs' & _ & _ & Hos).
          cbn in Hc. congruence. }
      by destruct (s_state s).
  - rewrite sound_stop_idle by (intros s'; congruence).
    intros r c Hc Hh. destruct (Hal r c h Hc Hh) as (s' & Hs' & _). congruence.
Qed.

Lemma sound_stop_sane h m : sane m → sane (sound_stop h m).
Proof.
  intros Hm. pose proof (sound_stop_untracks h m Hm) as Hun.
  destruct Hm as [Hwf Hal].
  split; [eapply well_formed_shrinks; [exact Hwf|apply sound_stop_shrinks]|].
  intros r c' h' Hc' Hh'.
  assert (Hne : h' ≠ h) by (intros ->; exact (Hun r c' Hc' Hh')).
  destruct (shr_store _ _ (sound_stop_shrinks h m) r c' Hc') as (c & Hc & Hsub & _).
  assert (Hin : h' ∈ playingSounds c) by (eapply sublist_subseteq; eauto).
  destruct (Hal r c h' Hc Hin) as (s & Hs & Hrest).
  exists s. by rewrite sound_stop_others.
Qed.

Lemma sound_complete_cases h m :
  (∃ s, objects (scene m) !! h = Some s ∧ s_state s = Playing ∧ s_loop s = false ∧
        sound_complete h m =
          foldl (λ m r, removeFromCategory h r m)
                (set_scene (set_objects <[h := mkSound (s_key s) (s_volume s) (s_loop s)
                              (s_config s) Idle [] (s_once_stop s)]>) m)
                (s_once_complete s)) ∨
  ((∀ s, objects (scene m) !! h = Some s → s_state s = Playing → s_loop s = true) ∧
   sound_complete h m = m).
Proof.
  unfold sound_complete.
  destruct (objects (scene m) !! h) as [s|] eqn:Hs; [|right; split; [done|done]].
  destruct (s_state s) eqn:Hst, (s_loop s) eqn:Hl;
    try (right; split; [intros s' [= <-]; congruence|done]).
  left. exists s. rewrite ?Hl. done.
Qed.

Lemma sound_complete_sane h m : sane m → sane (sound_complete h m).
Proof.
  intros [Hwf Hal].
  split; [eapply well_formed_shrinks; [exact Hwf|apply sound_complete_shrinks]|].
  destruct (sound_complete_cases h m) as [(s & Hs & Hst & Hl & Heq)|[_ ->]]; [|exact Hal].
  assert (Hun : untracked (sound_complete h m) h).
  { rewrite Heq. apply remove_fold_clears.
    - intros r c Hc. exact (wf_nodup _ Hwf r c Hc).
    - intros r c Hc Hh. destruct (Hal r c h Hc Hh) as (s' & Hs' & _ & Hoc & _).
      cbn in Hc. congruence. }
  intros r c' h' Hc' Hh'.
  assert (Hne : h' ≠ h) by (intros ->; exact (Hun r c' Hc' Hh')).
  destruct (shr_store _ _ (sound_complete_shrinks h m) r c' Hc') as (c & Hc & Hsub & _).
  assert (Hin : h' ∈ playingSounds c) by (eapply sublist_subseteq; eauto).
  destruct (Hal r c h' Hc Hin) as (s0 & Hs0 & Hrest).
  exists s0. split; [|exact Hrest].
  rewrite Heq, remove_fold_scene. cbn. by rewrite lookup_insert_ne.
Qed.

Lemma sane_foldl {A} (f : Manager → A → Manager) (l : list A) m :
  (∀ m x, sane m → sane (f m x)) → sane m → sane (foldl f m l).
Proof.
  intros Hf. revert m. induction l as [|x l IH]; intros m Hm; [done|].
  apply IH, Hf, Hm.
Qed.

Lemma sane_objects m m' :
  sane m → shrinks m m' → objects (scene m') = objects (scene m) → sane m'.
Proof. intros Hm Hs Ho. eapply sane_shrinks; eauto using keeps_alive_objects. Qed.

Lemma clear_playing_sane r m : sane m → sane (clear_playing r m).
Proof.
  intros Hm. eapply sane_objects; [exact Hm|apply clear_playing_shrinks|].
  by rewrite clear_playing_scene.
Qed.

Lemma stopCategory_sane n m : sane m → sane (stopCategory n m).
Proof.
  intros Hm. unfold stopCategory. destruct (get_category m n) as [[r c]|]; [|done].
  apply clear_playing_sane, sane_foldl; [|done]. intros. by apply sound_stop_sane.
Qed.

Lemma clearFadeTweens_sane m : sane m → sane (clearFadeTweens m).
Proof.
  intros Hm. eapply sane_objects; [exact Hm|apply clearFadeTweens_shrinks|].
  apply clearFadeTweens_objects.
Qed.

Lemma stopAll_sane m : sane m → sane (stopAll m).
Proof.
  intros Hm. unfold stopAll. apply clearFadeTweens_sane.
  eapply (sane_objects _ (set_bgm None None _)); [|apply shrinks_set_bgm|done].
  apply sane_foldl; [intros; by apply clear_playing_sane|].
  unfold scene_stopAll. apply sane_foldl; [|done]. intros. by apply sound_stop_sane.
Qed.

Lemma stopBGM_sane m : sane m → sane (stopBGM m).
Proof.
  intros Hm. unfold stopBGM.
  destruct (bgmSound m) as [h|]; [|done]. destruct (currentBGM m) as [k|]; [|done].
  case_decide; [done|].
  destruct (fade_duration _).
  - eapply sane_objects; [exact Hm|apply fadeOutSound_shrinks|done].
  - eapply (sane_objects _ (set_bgm None None _)); [|apply shrinks_set_bgm|done].
    by apply sound_stop_sane.
Qed.

Lemma tween_complete_sane i m : sane m → sane (tween_complete i m).
Proof.
  intros Hm. unfold tween_complete.
  destruct (tweens (scene m) !! i) as [tw|]; [|done].
  assert (H1 : sane (sound_setVolume (tw_target tw) (tw_volume tw)
                       (set_scene (set_tweens (delete i)) m))).
  { eapply sane_shrinks; [|apply sound_setVolume_shrinks|apply sound_setVolume_keeps_alive].
    eapply sane_objects; [exact Hm|apply shrinks_set_scene, keeps_set_tweens|done]. }
  destruct (tw_done tw) as [cb|]; [|exact H1].
  apply (sound_stop_sane (tw_target tw)) in H1.
  destruct cb as [[]|]; [|exact H1].
  eapply (sane_objects _ (set_bgm None None _)); [exact H1|apply shrinks_set_bgm|done].
Qed.

Lemma evict_oldest_sane r m : sane m → sane (evict_oldest r m).
Proof.
  intros Hm. unfold evict_oldest.
  destruct (store m !! r) as [c|] eqn:Hc; [|done].
  destruct (playingSounds c) as [|oldest rest] eqn:Hl; [done|].
  apply sound_stop_sane.
  eapply sane_objects; [exact Hm| |done].
  apply (shrinks_set_store r c); [done| |done|by left].
  cbn. rewrite Hl. by apply sublist_cons.
Qed.

Lemma defineCategory_sane n cfg m : sane m → sane (defineCategory n cfg m).
Proof.
  intros [Hwf Hal]. split; [by apply defineCategory_well_formed|].
  intros r c h Hc Hh. cbn in Hc.
  destruct (decide (next_ref m = r)) as [<-|Hne].
  - rewrite lookup_insert_eq in Hc. injection Hc as <-. by apply elem_of_nil in Hh.
  - rewrite lookup_insert_ne in Hc by done. exact (Hal r c h Hc Hh).
Qed.

Lemma registerSound_sane k cat p cfg m : sane m → sane (registerSound k cat p cfg m).
Proof.
  intros Hm. split; [apply registerSound_well_formed, Hm|].
  unfold registerSound.
  destruct (AssetManager.map_get cat (categories m)); [exact (proj2 Hm)|].
  exact (proj2 (defineCategory_sane cat no_category_config m Hm)).
Qed.

(** The sound object [playSound] creates, and what else it leaves behind. *)
Lemma start_sound_full k e cfg r m c :
  store m !! r = Some c →
  k ∈ cache_audio (scene m) →
  let h := next_handle (scene m) in
  let merged := spread (config e) cfg in
  let target := (volume c * globalVolume m)%Qc in
  let fade := fade_duration (fadeInDuration c) in
  ∃ m', start_sound k e cfg r m = (Some h, m') ∧
    objects (scene m') =
      <[h := mkSound k (if fade then 0%Qc else default target (cfg_volume merged))
                     (default (loop c) (cfg_loop merged)) merged Playing [r] [r]]>
        (objects (scene m)) ∧
    store m' = <[r := with_playing (playingSounds c ++ [h]) c]> (store m) ∧
    tweens (scene m') =
      match fade with
      | Some d => <[next_tween (scene m) := mkTween h target d None]> (tweens (scene m))
      | None => tweens (scene m)
      end ∧
    fadeTweens m' =
      match fade with
      | Some d => AssetManager.map_set (k +:+ "_fadein") (next_tween (scene m)) (fadeTweens m)
      | None => fadeTweens m
      end ∧
    sounds m' = sounds m ∧ categories m' = categories m ∧
    currentBGM m' = currentBGM m ∧ bgmSound m' = bgmSound m ∧
    globalVolume m' = globalVolume m ∧ isMuted m' = isMuted m ∧
    cache_audio (scene m') = cache_audio (scene m).
Proof.
  intros Hc Hk. cbv zeta. unfold start_sound, sound_add. rewrite Hc.
  rewrite decide_True by done.
  destruct (fade_duration (fadeInDuration c)) as [d|]; cbn;
    eexists; (split; [reflexivity|]); cbn;
    rewrite ?lookup_insert_eq; cbn; rewrite ?lookup_insert_eq; cbn;
    rewrite ?lookup_insert_eq; cbn; rewrite ?lookup_insert_eq; cbn;
    rewrite ?lookup_insert_eq; cbn; rewrite ?insert_insert_eq; done.
Qed.

Lemma start_sound_sane k e cfg r m c :
  sane m → store m !! r = Some c → sane (start_sound k e cfg r m).2.
Proof.
  intros Hm Hc. split; [eapply start_sound_well_formed; [apply Hm|exact Hc]|].
  destruct (decide (k ∈ cache_audio (scene m))) as [Hk|Hk];
    [|rewrite start_sound_uncached by done; apply Hm].
  destruct (start_sound_full k e cfg r m c Hc Hk) as (m' & -> & Hobj & Hst & _).
  cbn [snd]. destruct Hm as [Hwf Hal].
  intros r' c' h' Hc' Hh'. rewrite Hst in Hc'.
  assert (Hold : ∀ r0 c0, store m !! r0 = Some c0 → h' ∈ playingSounds c0 →
                 ∃ s, objects (scene m') !! h' = Some s ∧
                      s_state s ≠ Idle ∧ r0 ∈ s_once_complete s ∧ r0 ∈ s_once_stop s).
  { intros r0 c0 Hc0 Hh0.
    assert (h' ≠ next_handle (scene m)).
    { pose proof (wf_fresh _ Hwf h' (wf_live _ Hwf r0 c0 h' Hc0 Hh0)). lia. }
    rewrite Hobj, lookup_insert_ne by done. exact (Hal r0 c0 h' Hc0 Hh0). }
  destruct (decide (r = r')) as [<-|Hne].
  - rewrite lookup_insert_eq in Hc'. injection Hc' as <-. cbn in Hh'.
    apply elem_of_app in Hh' as [Hh'|Hh']; [by apply (Hold r c)|].
    apply list_elem_of_singleton in Hh'. subst h'.
    rewrite Hobj, lookup_insert_eq. eexists. split; [reflexivity|]. cbn.
    split; [done|]. split; apply list_elem_of_here.
  - rewrite lookup_insert_ne in Hc' by done. by apply (Hold r' c').
Qed.

Lemma playSound_sane k cfg m : sane m → sane (playSound k cfg m).2.
Proof.
  intros Hm. unfold playSound.
  destruct (isMuted m); [done|].
  destruct (sounds m !! k) as [e|]; [|done].
  destruct (get_category m (category e)) as [[r c]|] eqn:Hg; [|done].
  apply get_category_store in Hg.
  case_decide; [|done].
  destruct (maxConcurrent c <=? _).
  - destruct (interrupts c); [|done].
    destruct (evict_oldest_shrinks r m) as [_ R _ _ _ _ _].
    destruct (R r) as [c1 Hc1]; [eauto|].
    eapply start_sound_sane; [by apply evict_oldest_sane|exact Hc1].
  - by eapply start_sound_sane.
Qed.

Lemma playBGM_sane k cfg m : sane m → sane (playBGM k cfg m).
Proof.
  intros Hm. unfold playBGM.
  pose proof (playSound_sane k cfg (stopBGM m) (stopBGM_sane m Hm)) as H.
  destruct (playSound k cfg (stopBGM m)) as [[h|] m']; cbn in H; [|done].
  eapply sane_objects; [exact H|apply shrinks_set_bgm|done].
Qed.

Lemma dispose_sane m : sane m → sane (dispose m).
Proof.
  intros Hm. split; [apply dispose_well_formed, Hm|].
  pose proof (clearFadeTweens_sane _ (stopAll_sane m Hm)) as [_ H].
  exact H.
Qed.

Lemma run_sane op m : sane m → sane (run op m).
Proof.
  intros Hm. destruct op; cbn [run].
  - by apply defineCategory_sane.
  - by apply registerSound_sane.
  - by apply playSound_sane.
  - by apply playBGM_sane.
  - by apply stopBGM_sane.
  - eapply sane_objects; [exact Hm|apply fadeOutSound_shrinks|done].
  - by apply stopCategory_sane.
  - by apply stopAll_sane.
  - eapply sane_shrinks; eauto using setCategoryVolume_shrinks, setCategoryVolume_keeps_alive.
  - eapply sane_shrinks; eauto using setGlobalVolume_shrinks, setGlobalVolume_keeps_alive.
  - eapply sane_shrinks; eauto using setMuted_shrinks, setMuted_keeps_alive.
  - eapply sane_shrinks; eauto using setMuted_shrinks, setMuted_keeps_alive.
  - eapply sane_shrinks; eauto using loadSettings_shrinks, loadSettings_keeps_alive.
  - by apply dispose_sane.
  - by apply sound_complete_sane.
  - by apply sound_stop_sane.
  - by apply tween_complete_sane.
  - eapply sane_objects; [exact Hm|apply set_cache_shrinks|done].
  - eapply sane_objects; [exact Hm|apply set_cache_shrinks|done].
Qed.

Lemma new_manager_sane sc am : scene_ok sc → sane (new_manager sc am).
Proof.
  intros Hsc. unfold new_manager, setupDefaultCategories.
  repeat apply defineCategory_sane.
  split.
  - split; cbn; try (intros *; rewrite lookup_empty; done); eauto.
    + apply NoDup_nil_2.
    + apply NoDup_nil_2.
    + intros n r H. by apply elem_of_nil in H.
  - intros r c h Hc. cbn in Hc. by rewrite lookup_empty in Hc.
Qed.

Lemma reachable_sane m : reachable m → sane m.
Proof. induction 1; [by apply new_manager_sane|by apply run_sane]. Qed.

(** *** What the operations leave alone *)

Lemma same_book_refl m : same_book m m.
Proof. done. Qed.

Lemma same_book_trans m1 m2 m3 : same_book m1 m2 → same_book m2 m3 → same_book m1 m3.
Proof.
  intros (H1 & H2 & H3 & H4 & H5) (H6 & H7 & H8 & H9 & H10). split_and!; congruence.
Qed.

Lemma same_book_foldl {A} (f : Manager → A → Manager) (l : list A) m :
  (∀ m x, same_book m (f m x)) → same_book m (foldl f m l).
Proof.
  intros Hf. revert m. induction l as [|x l IH]; intros m; [done|].
  eapply same_book_trans; [apply Hf|apply IH].
Qed.

Lemma removeFromCategory_book h r m : same_book m (removeFromCategory h r m).
Proof.
  unfold removeFromCategory. destruct (store m !! r) as [c|]; [|done].
  by destruct (indexOf h (playingSounds c)).
Qed.

Lemma sound_stop_book h m : same_book m (sound_stop h m).
Proof.
  unfold sound_stop. destruct (objects _ !! h) as [s|]; [|done].
  destruct (s_state s); [done|..];
    (eapply same_book_trans; [|apply same_book_foldl; intros; apply removeFromCategory_book];
     done).
Qed.

Lemma sound_complete_book h m : same_book m (sound_complete h m).
Proof.
  unfold sound_complete. destruct (objects _ !! h) as [s|]; [|done].
  destruct (s_state s), (s_loop s); try done.
  eapply same_book_trans; [|apply same_book_foldl; intros; apply removeFromCategory_book].
  done.
Qed.

Lemma stopBGM_book m : same_book m (stopBGM m).
Proof.
  unfold stopBGM. destruct (bgmSound m), (currentBGM m); try done.
  case_decide; [done|]. destruct (fade_duration _); [done|].
  eapply same_book_trans; [apply sound_stop_book|done].
Qed.

Lemma clear_playing_book r m : same_book m (clear_playing r m).
Proof. unfold clear_playing. by destruct (store m !! r). Qed.

Lemma clearFadeTweens_book m : same_book m (clearFadeTweens m).
Proof.
  unfold clearFadeTweens.
  eapply same_book_trans;
    [apply (same_book_foldl (λ m (e : string * nat),
                               set_scene (set_tweens (delete e.2)) m))|done].
  done.
Qed.

Lemma stopAll_book m : same_book m (stopAll m).
Proof.
  unfold stopAll.
  eapply same_book_trans; [|apply clearFadeTweens_book].
  eapply same_book_trans; [|by apply (same_book_refl (set_bgm None None _))].
  eapply same_book_trans; [|apply same_book_foldl; intros; apply clear_playing_book].
  apply same_book_foldl. intros. apply sound_stop_book.
Qed.

(** *** Silence *)

Lemma silent_sound_stop h h' m : silent m h → silent (sound_stop h' m) h.
Proof.
  intros Hs. destruct (decide (h = h')) as [->|Hne]; [apply sound_stop_silent|].
  intros s. rewrite sound_stop_others by done. apply Hs.
Qed.

Lemma sound_stop_dom h m h' :
  objects (scene m) !! h' = None → objects (scene (sound_stop h m)) !! h' = None.
Proof.
  intros Hn. apply eq_None_not_Some. intros Hs.
  apply (shr_objs _ _ (sound_stop_shrinks h m)) in Hs.
  rewrite Hn in Hs. by destruct Hs.
Qed.

Lemma stop_fold_silent (l : list handle) m h :
  h ∈ l ∨ silent m h → silent (foldl (λ m h, sound_stop h m) m l) h.
Proof.
  revert m. induction l as [|x l IH]; intros m [Hin|Hs].
  - by apply elem_of_nil in Hin.
  - exact Hs.
  - cbn [foldl]. apply IH. apply elem_of_cons in Hin as [->|Hin]; [|by left].
    right. apply sound_stop_silent.
  - cbn [foldl]. apply IH. right. by apply silent_sound_stop.
Qed.

Lemma stop_fold_others (l : list handle) m h :
  h ∉ l →
  objects (scene (foldl (λ m h, sound_stop h m) m l)) !! h = objects (scene m) !! h.
Proof.
  revert m. induction l as [|x l IH]; intros m Hn; [done|].
  apply not_elem_of_cons in Hn as [Hne Hn].
  cbn [foldl]. rewrite IH by done. by apply sound_stop_others.
Qed.

Lemma scene_stopAll_silent m h : silent (scene_stopAll m) h.
Proof.
  unfold scene_stopAll. apply stop_fold_silent.
  destruct (objects (scene m) !! h) as [s|] eqn:Hs.
  - left. apply list_elem_of_fmap. exists (h, s). split; [done|].
    by apply elem_of_map_to_list.
  - right. intros s. congruence.
Qed.

Lemma clear_playing_store r m r' :
  store (clear_playing r m) !! r' =
    if decide (r' = r) then with_playing [] <$> store m !! r' else store m !! r'.
Proof.
  unfold clear_playing. destruct (decide (r' = r)) as [->|Hne].
  - destruct (store m !! r) as [c|] eqn:Hc; cbn; [|by rewrite Hc].
    by rewrite lookup_insert_eq.
  - destruct (store m !! r) as [c|]; [|done]. cbn. by rewrite lookup_insert_ne.
Qed.

Lemma clear_playing_fold_store (L : list (string * catref)) m r :
  store (foldl (λ m e, clear_playing e.2 m) m L) !! r =
    if decide (r ∈ L.*2) then with_playing [] <$> store m !! r else store m !! r.
Proof.
  revert m. induction L as [|e L IH]; intros m; [done|].
  cbn [foldl]. rewrite IH, clear_playing_store. rewrite fmap_cons.
  destruct (decide (r = e.2)) as [->|Hne].
  - rewrite (decide_True (P := e.2 ∈ e.2 :: L.*2)) by apply list_elem_of_here.
    destruct (decide (e.2 ∈ L.*2)); [|done].
    by destruct (store m !! e.2).
  - destruct (decide (r ∈ L.*2)) as [Hin|Hnin].
    + by rewrite decide_True by (by apply list_elem_of_further).
    + rewrite decide_False; [done|]. intros Hin.
      apply elem_of_cons in Hin as [?|?]; done.
Qed.

Lemma stop_tweens_frame (L : list (string * nat)) m :
  let m' := foldl (λ m e, set_scene (set_tweens (delete e.2)) m) m L in
  store m' = store m ∧ currentBGM m' = currentBGM m ∧ bgmSound m' = bgmSound m.
Proof.
  revert m. induction L as [|e L IH]; intros m; [done|]. cbn [foldl].
  destruct (IH (set_scene (set_tweens (delete e.2)) m)) as (H1 & H2 & H3).
  cbv zeta. by rewrite H1, H2, H3.
Qed.

Lemma clearFadeTweens_frame m :
  store (clearFadeTweens m) = store m ∧ currentBGM (clearFadeTweens m) = currentBGM m ∧
  bgmSound (clearFadeTweens m) = bgmSound m ∧ fadeTweens (clearFadeTweens m) = [].
Proof.
  unfold clearFadeTweens. cbn.
  destruct (stop_tweens_frame (fadeTweens m) m) as (H1 & H2 & H3). done.
Qed.

(** What [stopAll] leaves behind. *)
Lemma stopAll_result m :
  let m' := stopAll m in
  (∀ h, silent m' h) ∧
  (∀ h, is_Some (objects (scene m') !! h) ↔ is_Some (objects (scene m) !! h)) ∧
  (∀ n r c, get_category m' n = Some (r, c) → playingSounds c = []) ∧
  currentBGM m' = None ∧ bgmSound m' = None ∧ fadeTweens m' = [] ∧
  same_book m m'.
Proof.
  cbv zeta.
  pose proof (stopAll_book m) as Hbook.
  split; [|split; [|split; [|split_and!]]]; [| | | | | |exact Hbook].
  - intros h s. unfold stopAll.
    rewrite clearFadeTweens_objects. cbn [set_bgm scene].
    rewrite clear_playing_fold_scene. apply scene_stopAll_silent.
  - intros h. symmetry. apply (shr_objs _ _ (stopAll_shrinks m)).
  - intros n r c Hg. apply get_category_elem_of in Hg as [Hin Hc].
    destruct Hbook as (_ & Hca & _).
    unfold stopAll in Hc. rewrite (proj1 (clearFadeTweens_frame _)) in Hc.
    cbn [set_bgm store] in Hc. rewrite clear_playing_fold_store in Hc.
    rewrite Hca in Hin.
    assert (Hcat : categories (scene_stopAll m) = categories m)
      by apply (shr_cats _ _ (scene_stopAll_shrinks m)).
    rewrite Hcat in Hc. rewrite decide_True in Hc.
    + destruct (store (scene_stopAll m) !! r); [|done]. by injection Hc as <-.
    + apply list_elem_of_fmap. by exists (n, r).
  - unfold stopAll. by rewrite (proj1 (proj2 (clearFadeTweens_frame _))).
  - unfold stopAll. by rewrite (proj1 (proj2 (proj2 (clearFadeTweens_frame _)))).
  - unfold stopAll. by rewrite (proj2 (proj2 (proj2 (clearFadeTweens_frame _)))).
Qed.

(** *** Bookkeeping of the playing sounds *)

(** Property X17.  In every reachable state, a handle tracked by a category
    is tracked once, by that category only, and is a host sound that is
    playing or paused: no list of playing sounds holds a sound that has
    finished or was stopped. *)
Theorem tracked_sounds_are_alive m n r c :
  reachable m → get_category m n = Some (r, c) →
  NoDup (playingSounds c) ∧
  ∀ h, h ∈ playingSounds c →
    (∃ s, objects (scene m) !! h = Some s ∧ (s_state s = Playing ∨ s_state s = Paused)) ∧
    (∀ n' r' c', get_category m n' = Some (r', c') → h ∈ playingSounds c' → n' = n).
Proof.
  intros Hr Hg. destruct (reachable_sane m Hr) as [Hwf Hal].
  apply get_category_elem_of in Hg as [Hin Hc].
  split; [exact (wf_nodup _ Hwf r c Hc)|].
  intros h Hh. split.
  - destruct (Hal r c h Hc Hh) as (s & Hs & Hst & _). exists s. split; [done|].
    destruct (s_state s); [done|by left|by right].
  - intros n' r' c' Hg' Hh'. apply get_category_elem_of in Hg' as [Hin' Hc'].
    assert (r' = r) as -> by exact (wf_owner _ Hwf r' r c' c h Hc' Hc Hh' Hh).
    exact (NoDup_values_unique _ _ _ _ (wf_refs _ Hwf) Hin' Hin).
Qed.

(** Property X17, on the category [voice] with one line playing. *)
Lemma tracked_sounds_are_alive_witness :
  let m := run_all voice_playing (new_manager empty_scene None) in
  ∃ r c, get_category m "voice" = Some (r, c) ∧ playingSounds c = [0%nat] ∧
         ∃ s, objects (scene m) !! 0%nat = Some s ∧
              (s_state s = Playing ∨ s_state s = Paused).
Proof.
  intros m.
  assert (Hreach : reachable m)
    by (apply reachable_run_all, reach_new, empty_scene_ok).
  assert (Hg : get_category m "voice"
               = Some (3%nat, mkCategory "voice" (q 9 10) false 1 true None None [0%nat]))
    by (vm_compute; reflexivity).
  exists 3%nat, (mkCategory "voice" (q 9 10) false 1 true None None [0%nat]).
  split; [exact Hg|]. split; [reflexivity|].
  destruct (tracked_sounds_are_alive m "voice" _ _ Hreach Hg) as [_ H].
  exact (proj1 (H 0%nat (list_elem_of_here _ _))).
Defined.

(** Property X18.  When a sound is stopped, by the manager or by whoever
    holds the handle, it is idle afterwards and no category tracks it any
    more, and no other sound object changes; a playing sound that does not
    loop is likewise idle and tracked by no category once the host reports
    that it has ended, while for a looping or paused sound that report
    changes nothing. *)
Theorem stopped_sound_leaves_every_list m h :
  reachable m →
  (silent (sound_stop h m) h ∧ untracked (sound_stop h m) h ∧
   ∀ h', h' ≠ h → objects (scene (sound_stop h m)) !! h' = objects (scene m) !! h') ∧
  (∀ s, objects (scene m) !! h = Some s →
        if decide (s_state s = Playing ∧ s_loop s = false)
        then silent (sound_complete h m) h ∧ untracked (sound_complete h m) h
        else sound_complete h m = m).
Proof.
  intros Hr. pose proof (reachable_sane m Hr) as Hm. split.
  - split; [apply sound_stop_silent|]. split; [by apply sound_stop_untracks|].
    intros h' Hne. by apply sound_stop_others.
  - intros s Hs.
    destruct (sound_complete_cases h m) as [(s' & Hs' & Hst & Hl & Heq)|[Hloop Heq]].
    + assert (s' = s) as -> by congruence.
      rewrite decide_True by done.
      assert (Hsil : silent (sound_complete h m) h).
      { intros s1. rewrite Heq, remove_fold_scene. cbn. rewrite lookup_insert_eq.
        by intros [= <-]. }
      split; [exact Hsil|].
      destruct (sound_complete_sane h m Hm) as [_ Hal].
      intros r c Hc Hh. destruct (Hal r c h Hc Hh) as (s1 & Hs1 & Hne & _).
      by apply Hne, Hsil.
    + rewrite decide_False; [exact Heq|]. intros [Hst Hl].
      specialize (Hloop s Hs Hst). congruence.
Qed.

(** Property X18, on the category [voice] with one line playing. *)
Lemma stopped_sound_leaves_every_list_witness :
  let m := run_all voice_playing (new_manager empty_scene None) in
  (λ rc, playingSounds rc.2) <$> get_category m "voice" = Some [0%nat] ∧
  (λ rc, playingSounds rc.2) <$> get_category (sound_stop 0%nat m) "voice" = Some [] ∧
  untracked (sound_stop 0%nat m) 0%nat.
Proof.
  intros m. split; [vm_compute; reflexivity|]. split; [vm_compute; reflexivity|].
  refine (proj1 (proj2 (proj1 (stopped_sound_leaves_every_list m 0%nat _)))).
  apply reachable_run_all, reach_new, empty_scene_ok.
Defined.

(** *** Stopping *)

(** Property X19.  After [stopAll] every sound object of the host is idle,
    the list of every category is empty, no music is recorded and no fade-in
    tween is kept; the registered sounds, the categories, the volumes and
    the mute flag are as before. *)
Theorem stopAll_silences_everything m :
  let m' := stopAll m in
  (∀ h s, objects (scene m') !! h = Some s → s_state s = Idle) ∧
  (∀ h, is_Some (objects (scene m') !! h) ↔ is_Some (objects (scene m) !! h)) ∧
  (∀ n r c, get_category m' n = Some (r, c) → playingSounds c = []) ∧
  getCurrentBGM m' = None ∧ bgmSound m' = None ∧ fadeTweens m' = [] ∧
  sounds m' = sounds m ∧ categories m' = categories m ∧
  globalVolume m' = globalVolume m ∧ isMutedState m' = isMutedState m.
Proof.
  cbv zeta. destruct (stopAll_result m) as (H1 & H2 & H3 & H4 & H5 & H6 & H7).
  destruct H7 as (H7 & H8 & _ & H9 & H10). split_and!; done.
Qed.

Lemma removeFromCategory_other h r m r' :
  r' ≠ r → store (removeFromCategory h r m) !! r' = store m !! r'.
Proof.
  intros Hne. unfold removeFromCategory. destruct (store m !! r) as [c|]; [|done].
  destruct (indexOf h (playingSounds c)); [|done]. cbn. by rewrite lookup_insert_ne.
Qed.

Lemma remove_fold_other h (rs : list catref) m r' :
  (∀ c', store m !! r' = Some c' → h ∉ playingSounds c') →
  store (foldl (λ m r, removeFromCategory h r m) m rs) !! r' = store m !! r'.
Proof.
  revert m. induction rs as [|r rs IH]; intros m Hn; [done|]. cbn [foldl].
  destruct (decide (r = r')) as [->|Hne].
  - rewrite removeFromCategory_untracked by exact Hn. by apply IH.
  - rewrite IH; [by apply removeFromCategory_other|].
    intros c'. rewrite removeFromCategory_other by done. apply Hn.
Qed.

Lemma sound_stop_store_other h m r' :
  (∀ c', store m !! r' = Some c' → h ∉ playingSounds c') →
  store (sound_stop h m) !! r' = store m !! r'.
Proof.
  intros Hn. unfold sound_stop. destruct (objects _ !! h) as [s|]; [|done].
  destruct (s_state s); [done|..]; by rewrite remove_fold_other.
Qed.

Lemma stop_fold_store_other (l : list handle) m r' :
  (∀ h c', h ∈ l → store m !! r' = Some c' → h ∉ playingSounds c') →
  store (foldl (λ m h, sound_stop h m) m l) !! r' = store m !! r'.
Proof.
  revert m. induction l as [|x l IH]; intros m Hn; [done|]. cbn [foldl].
  assert (Hx : store (sound_stop x m) !! r' = store m !! r').
  { apply sound_stop_store_other. intros c'. apply Hn, list_elem_of_here. }
  rewrite IH; [exact Hx|].
  intros h c' Hh. rewrite Hx. by apply Hn, list_elem_of_further.
Qed.

Lemma get_category_unfold m n :
  get_category m n = r ← AssetManager.map_get n (categories m);
                     c ← store m !! r; Some (r, c).
Proof.
  unfold get_category. destruct (AssetManager.map_get n (categories m)) as [r|]; [|done].
  cbn. by destruct (store m !! r).
Qed.

(** Property X20.  [stopCategory] stops every sound the category tracks and
    empties its list; no other sound object and no other category is
    touched. *)
Theorem stopCategory_stops_its_sounds m n r c :
  reachable m → get_category m n = Some (r, c) →
  let m' := stopCategory n m in
  (∃ c', get_category m' n = Some (r, c') ∧ playingSounds c' = []) ∧
  (∀ h, h ∈ playingSounds c → silent m' h) ∧
  (∀ h, h ∉ playingSounds c → objects (scene m') !! h = objects (scene m) !! h) ∧
  (∀ n', n' ≠ n → get_category m' n' = get_category m n').
Proof.
  intros Hr Hg. cbv zeta. pose proof (reachable_well_formed m Hr) as Hwf.
  pose proof (stopCategory_shrinks n m) as Hsh.
  unfold stopCategory in *. rewrite Hg in *.
  set (m1 := foldl (λ m h, sound_stop h m) m (playingSounds c)) in *.
  apply get_category_elem_of in Hg as [Hin Hc].
  assert (Hget : AssetManager.map_get n (categories m) = Some r)
    by (apply map_get_elem_of; [apply Hwf|done]).
  split_and!.
  - destruct (shr_refs _ _ Hsh r (mk_is_Some _ _ Hc)) as [c' Hc'].
    exists c'. rewrite get_category_unfold, (shr_cats _ _ Hsh), Hget. cbn.
    rewrite Hc'. cbn. split; [done|].
    rewrite clear_playing_store, decide_True in Hc' by done.
    destruct (store m1 !! r); [|done]. by injection Hc' as <-.
  - intros h Hh s. rewrite clear_playing_scene. by apply stop_fold_silent; left.
  - intros h Hh. rewrite clear_playing_scene. by apply stop_fold_others.
  - intros n' Hne. rewrite !get_category_unfold, (shr_cats _ _ Hsh).
    destruct (AssetManager.map_get n' (categories m)) as [r'|] eqn:Hget'; [|done]. cbn.
    assert (Hr' : r' ≠ r).
    { intros ->. apply Hne. apply map_get_Some in Hget'.
      exact (NoDup_values_unique _ _ _ _ (wf_refs _ Hwf) Hget' Hin). }
    rewrite clear_playing_store, decide_False by done.
    subst m1. rewrite stop_fold_store_other; [done|].
    intros h c' Hh Hc' Hh'. apply Hr'.
    exact (wf_owner _ Hwf r' r c' c h Hc' Hc Hh' Hh).
Qed.

(** Property X20, on the category [voice] with one line playing. *)
Lemma stopCategory_stops_its_sounds_witness :
  let m := run_all voice_playing (new_manager empty_scene None) in
  s_state <$> objects (scene m) !! 0%nat = Some Playing ∧
  silent (stopCategory "voice" m) 0%nat ∧
  get_category (stopCategory "voice" m) "ui" = get_category m "ui".
Proof.
  intros m.
  assert (Hreach : reachable m)
    by (apply reachable_run_all, reach_new, empty_scene_ok).
  assert (Hg : get_category m "voice"
               = Some (3%nat, mkCategory "voice" (q 9 10) false 1 true None None [0%nat]))
    by (vm_compute; reflexivity).
  destruct (stopCategory_stops_its_sounds m "voice" _ _ Hreach Hg) as (_ & H2 & _ & H4).
  split; [vm_compute; reflexivity|]. split.
  - apply H2. cbn. apply list_elem_of_here.
  - by apply H4.
Defined.

(** *** Volumes *)

(** Property X21.  [setCategoryVolume] stores the volume clamped to [0, 1]
    and gives every sound the category tracks that volume times the global
    volume, whatever volume the sound was started with; it changes no other
    sound, no other category and not the global volume.  For a name that is
    no category it does nothing. *)
Theorem setCategoryVolume_applies_to_its_sounds m n v :
  reachable m →
  (∀ r c, get_category m n = Some (r, c) →
     let m' := setCategoryVolume n v m in
     category_volume m' n = Some (Clamp v 0 1) ∧
     (∀ h, h ∈ playingSounds c →
           volume_of m' h = Some (Clamp v 0 1 * globalVolume m)%Qc) ∧
     (∀ h, h ∉ playingSounds c → volume_of m' h = volume_of m h) ∧
     (∀ n', n' ≠ n → category_volume m' n' = category_volume m n') ∧
     globalVolume m' = globalVolume m) ∧
  (get_category m n = None → setCategoryVolume n v m = m).
Proof.
  intros Hr. pose proof (reachable_well_formed m Hr) as Hwf.
  split; [|apply setCategoryVolume_missing].
  intros r c Hg. cbv zeta.
  assert (Hcv : ∀ n', category_volume (setCategoryVolume n v m) n' =
                      if decide (n = n') then (λ _, Clamp v 0 1) <$> category_volume m n'
                      else category_volume m n')
    by (intros n'; by apply category_volume_setCategoryVolume).
  destruct (setCategoryVolume_spec n v m r c Hg) as (_ & _ & Hgv). cbv zeta in Hgv.
  assert (Hvol : ∀ h, volume_of (setCategoryVolume n v m) h =
                      if decide (h ∈ playingSounds c)
                      then (λ _, (Clamp v 0 1 * globalVolume m)%Qc) <$> volume_of m h
                      else volume_of m h).
  { intros h. unfold setCategoryVolume. rewrite Hg.
    destruct (apply_volume_spec r (set_store <[r := with_volume (Clamp v 0 1) c]> m))
      as (_ & _ & _ & Hv).
    rewrite Hv. cbn. rewrite lookup_insert_eq. done. }
  split_and!.
  - rewrite Hcv, decide_True by done. unfold category_volume. by rewrite Hg.
  - intros h Hh. rewrite Hvol, decide_True by done.
    apply get_category_store in Hg.
    destruct (wf_live _ Hwf r c h Hg Hh) as [s Hs]. unfold volume_of. by rewrite Hs.
  - intros h Hh. by rewrite Hvol, decide_False.
  - intros n' Hne. by rewrite Hcv, decide_False.
  - exact Hgv.
Qed.

(** Property X21, on the category [ui] with one click playing. *)
Lemma setCategoryVolume_applies_to_its_sounds_witness :
  let m := run_all ui_history (new_manager empty_scene None) in
  volume_of m 0%nat = Some (q 4 5) ∧
  volume_of (setCategoryVolume "ui" (q 3 1) m) 0%nat = Some (1 * globalVolume m)%Qc ∧
  category_volume (setCategoryVolume "ui" (q 3 1) m) "ui" = Some 1%Qc.
Proof.
  intros m.
  assert (Hreach : reachable m)
    by (apply reachable_run_all, reach_new, empty_scene_ok).
  assert (Hg : get_category m "ui"
               = Some (0%nat, mkCategory "ui" (q 4 5) false 5 false None None [0%nat]))
    by (vm_compute; reflexivity).
  destruct (proj1 (setCategoryVolume_applies_to_its_sounds m "ui" (q 3 1) Hreach) _ _ Hg)
    as (H1 & H2 & _).
  split; [vm_compute; reflexivity|]. split.
  - rewrite (H2 0%nat) by (cbn; apply list_elem_of_here). by vm_compute.
  - rewrite H1. by vm_compute.
Defined.

(** *** Starting a sound *)

Lemma playSound_room m k cfg e r c :
  isMuted m = false → sounds m !! k = Some e →
  get_category m (category e) = Some (r, c) →
  k ∈ cache_audio (scene m) →
  Z.of_nat (List.length (playingSounds c)) < maxConcurrent c →
  playSound k cfg m = start_sound k e cfg r m.
Proof.
  intros Hm He Hg Hk Hroom. unfold playSound. rewrite Hm, He, Hg.
  rewrite decide_True by done.
  destruct (Z.leb_spec (maxConcurrent c) (Z.of_nat (List.length (playingSounds c))));
    [lia|done].
Qed.

(** Property X22.  When [playSound] is not refused and the category has
    room, it returns a new sound object for the key, playing, appended at
    the end of the list of the category.  The sound loops and has the
    volume as the call asks, else as the registration asks, else as the
    category says (its volume times the global volume); but in a category
    with a fade-in the sound starts at volume 0. *)
Theorem playSound_starts_sound m k cfg e r c :
  isMuted m = false → sounds m !! k = Some e →
  get_category m (category e) = Some (r, c) →
  k ∈ cache_audio (scene m) →
  Z.of_nat (List.length (playingSounds c)) < maxConcurrent c →
  let h := next_handle (scene m) in
  ∃ m' s, playSound k cfg m = (Some h, m') ∧
    objects (scene m') = <[h := s]> (objects (scene m)) ∧
    s_key s = k ∧ s_state s = Playing ∧
    s_loop s = default (loop c) (or_else (cfg_loop cfg) (cfg_loop (config e))) ∧
    s_volume s =
      (if fade_duration (fadeInDuration c) then 0%Qc
       else default (volume c * globalVolume m)%Qc
                    (or_else (cfg_volume cfg) (cfg_volume (config e)))) ∧
    get_category m' (category e) = Some (r, with_playing (playingSounds c ++ [h]) c) ∧
    categories m' = categories m ∧ sounds m' = sounds m.
Proof.
  intros Hm He Hg Hk Hroom. cbv zeta.
  rewrite (playSound_room m k cfg e r c) by done.
  pose proof (get_category_store _ _ _ _ Hg) as Hc.
  destruct (start_sound_full k e cfg r m c Hc Hk)
    as (m' & Heq & Hobj & Hst & _ & _ & Hso & Hca & _).
  cbv zeta in *. eexists m', _. split; [exact Heq|]. split; [exact Hobj|].
  cbn. split_and!; try done.
  rewrite get_category_unfold, Hca, Hst.
  rewrite get_category_unfold in Hg.
  destruct (AssetManager.map_get (category e) (categories m)) as [r0|] eqn:Hget;
    [|done]. cbn in Hg. destruct (store m !! r0) as [c0|]; [|done].
  cbn in Hg. injection Hg as -> ->. cbn. by rewrite lookup_insert_eq.
Qed.

(** Property X22, with a second click at half volume. *)
Lemma playSound_starts_sound_witness :
  let m := run_all ui_history (new_manager empty_scene None) in
  ∃ m', playSound "click" half_volume m = (Some 1%nat, m') ∧
        volume_of m' 1%nat = Some (q 1 2) ∧
        (λ rc, playingSounds rc.2) <$> get_category m' "ui" = Some [0%nat; 1%nat].
Proof.
  intros m.
  destruct (playSound_starts_sound m "click" half_volume
              (mkEntry "click" "ui" ["click.mp3"] no_config false) 0%nat
              (mkCategory "ui" (q 4 5) false 5 false None None [0%nat]))
    as (m' & s & Heq & Hobj & _ & _ & _ & Hvol & Hg & _).
  - reflexivity.
  - vm_compute. reflexivity.
  - vm_compute. reflexivity.
  - by vm_compute.
  - vm_compute. reflexivity.
  - change (next_handle (scene m)) with 1%nat in Heq, Hobj, Hg.
    exists m'. split; [exact Heq|]. split.
    + unfold volume_of. rewrite Hobj, lookup_insert_eq. cbn. rewrite Hvol. reflexivity.
    + cbn in Hg. rewrite Hg. reflexivity.
Defined.

(** Property X23.  In a category with a fade-in, the new sound starts at
    volume 0 with a tween towards the volume of the category times the
    global volume; when the tween completes the sound has that volume,
    whatever volume the call or the registration asked for, and it is still
    playing and tracked. *)
Theorem fade_in_ends_at_category_volume m k cfg e r c d :
  isMuted m = false → sounds m !! k = Some e →
  get_category m (category e) = Some (r, c) →
  k ∈ cache_audio (scene m) →
  Z.of_nat (List.length (playingSounds c)) < maxConcurrent c →
  fade_duration (fadeInDuration c) = Some d →
  let h := next_handle (scene m) in
  let i := next_tween (scene m) in
  ∃ m', playSound k cfg m = (Some h, m') ∧
    volume_of m' h = Some 0%Qc ∧
    tweens (scene m') !! i = Some (mkTween h (volume c * globalVolume m)%Qc d None) ∧
    AssetManager.map_get (k +:+ "_fadein") (fadeTweens m') = Some i ∧
    let m'' := tween_complete i m' in
    volume_of m'' h = Some (volume c * globalVolume m)%Qc ∧
    s_state <$> objects (scene m'') !! h = Some Playing ∧
    store m'' = store m' ∧ tweens (scene m'') !! i = None.
Proof.
  intros Hm He Hg Hk Hroom Hfade. cbv zeta.
  rewrite (playSound_room m k cfg e r c) by done.
  pose proof (get_category_store _ _ _ _ Hg) as Hc.
  destruct (start_sound_full k e cfg r m c Hc Hk)
    as (m' & Heq & Hobj & Hst & Htw & Hft & _).
  cbv zeta in *. rewrite Hfade in Hobj, Htw, Hft.
  exists m'. split; [exact Heq|].
  assert (Hi : tweens (scene m') !! next_tween (scene m)
               = Some (mkTween (next_handle (scene m)) (volume c * globalVolume m)%Qc d None))
    by (by rewrite Htw, lookup_insert_eq).
  split_and!.
  - unfold volume_of. by rewrite Hobj, lookup_insert_eq.
  - exact Hi.
  - rewrite Hft, map_get_set. by rewrite decide_True.
  - unfold tween_complete, volume_of. rewrite Hi. cbn.
    rewrite Hobj, lookup_insert_eq. cbn. by rewrite lookup_insert_eq.
  - unfold tween_complete. rewrite Hi. cbn.
    rewrite Hobj, lookup_insert_eq. cbn. by rewrite lookup_insert_eq.
  - unfold tween_complete. rewrite Hi. done.
  - unfold tween_complete. rewrite Hi. cbn. by rewrite lookup_delete_eq.
Qed.

(** Property X23, on the category [bgm], asked for half volume. *)
Lemma fade_in_ends_at_category_volume_witness :
  let m := run_all theme_registered (new_manager theme_scene None) in
  ∃ m', playSound "theme" half_volume m = (Some 0%nat, m') ∧
        volume_of m' 0%nat = Some 0%Qc ∧
        volume_of (tween_complete 0 m') 0%nat = Some (q 7 10).
Proof.
  intros m.
  destruct (fade_in_ends_at_category_volume m "theme" half_volume
              (mkEntry "theme" "bgm" ["theme.mp3"] no_config false) 2%nat
              (mkCategory "bgm" (q 7 10) true 1 true (Some 1000) (Some 1000) []) 1000)
    as (m' & Heq & Hv0 & _ & _ & Hv1 & _).
  - reflexivity.
  - vm_compute. reflexivity.
  - vm_compute. reflexivity.
  - by vm_compute.
  - vm_compute. reflexivity.
  - reflexivity.
  - change (next_handle (scene m)) with 0%nat in Heq, Hv0, Hv1.
    change (next_tween (scene m)) with 0%nat in Hv1.
    exists m'. split; [exact Heq|]. split; [exact Hv0|].
    cbv zeta in Hv1. rewrite Hv1. by vm_compute.
Defined.

(** *** Music *)

Lemma playSound_unplayable m k cfg :
  isMuted m = true ∨ sounds m !! k = None ∨ k ∉ cache_audio (scene m) →
  playSound k cfg m = (None, m).
Proof.
  intros H. unfold playSound. destruct (isMuted m); [done|].
  destruct H as [?|[->|Hk]]; [done|done|].
  destruct (sounds m !! k) as [e|]; [|done].
  destruct (get_category m (category e)) as [[r c]|]; [|done].
  by rewrite decide_False.
Qed.

(** Property X24.  [playBGM] stops the current music before it looks at
    the new key: when the manager is muted, or the key is not registered or
    not in the audio cache, the call is [stopBGM] and nothing more, so with
    a category that does not fade out the music is stopped and forgotten
    although nothing replaces it. *)
Theorem playBGM_unplayable_stops_music m k cfg :
  isMuted m = true ∨ sounds m !! k = None ∨ k ∉ cache_audio (scene m) →
  playBGM k cfg m = stopBGM m ∧
  ∀ h k0, bgmSound m = Some h → currentBGM m = Some k0 → k0 ≠ ""%string →
          fade_duration (getCategoryBySound m k0 ≫= fadeOutDuration) = None →
          getCurrentBGM (playBGM k cfg m) = None ∧ silent (playBGM k cfg m) h.
Proof.
  intros H.
  assert (Heq : playBGM k cfg m = stopBGM m).
  { unfold playBGM. destruct (stopBGM_book m) as (Hso & _ & Hca & _ & Hmu).
    rewrite playSound_unplayable; [done|]. by rewrite Hso, Hca, Hmu. }
  split; [exact Heq|].
  intros h k0 Hh Hk0 Hne Hfade. rewrite Heq. unfold stopBGM.
  rewrite Hh, Hk0, decide_False, Hfade by done.
  split; [done|]. intros s. cbn. apply sound_stop_silent.
Qed.

(** Property X24, with a key that is not registered. *)
Lemma playBGM_unplayable_stops_music_witness :
  let m := run_all voice_as_music (new_manager empty_scene None) in
  getCurrentBGM m = Some "line"%string ∧
  s_state <$> objects (scene m) !! 0%nat = Some Playing ∧
  getCurrentBGM (playBGM "missing" no_config m) = None ∧
  silent (playBGM "missing" no_config m) 0%nat.
Proof.
  intros m. split; [reflexivity|]. split; [vm_compute; reflexivity|].
  refine (proj2 (playBGM_unplayable_stops_music m "missing" no_config _)
            0%nat "line"%string _ _ _ _).
  - right. left. vm_compute. reflexivity.
  - reflexivity.
  - reflexivity.
  - discriminate.
  - vm_compute. reflexivity.
Defined.

Lemma volume_of_sound_stop h m h' : volume_of (sound_stop h m) h' = volume_of m h'.
Proof.
  unfold volume_of.
  destruct (decide (h' = h)) as [->|Hne]; [|by rewrite sound_stop_others].
  destruct (objects (scene m) !! h) as [s|] eqn:Hs.
  - destruct (decide (s_state s = Idle)) as [Hi|Hi].
    + rewrite sound_stop_idle; [by rewrite Hs|]. intros s'. congruence.
    + rewrite (sound_stop_objects h m s Hs Hi), lookup_insert_eq. done.
  - rewrite sound_stop_idle; [by rewrite Hs|]. intros s'. congruence.
Qed.

(** Property X25.  With a category that fades out, [stopBGM] only starts a
    tween: the music is still recorded and still playing until the tween
    completes; then the sound is stopped at volume 0 and the record of the
    music is cleared. *)
Theorem stopBGM_fades_then_clears m h k d :
  bgmSound m = Some h → currentBGM m = Some k → k ≠ ""%string →
  fade_duration (getCategoryBySound m k ≫= fadeOutDuration) = Some d →
  let i := next_tween (scene m) in
  let m1 := stopBGM m in
  (getCurrentBGM m1 = Some k ∧ bgmSound m1 = Some h ∧
   objects (scene m1) = objects (scene m) ∧ store m1 = store m ∧
   tweens (scene m1) !! i = Some (mkTween h 0%Qc d (Some (Some ClearBGM)))) ∧
  let m2 := tween_complete i m1 in
  getCurrentBGM m2 = None ∧ bgmSound m2 = None ∧ silent m2 h ∧
  (is_Some (objects (scene m) !! h) → volume_of m2 h = Some 0%Qc).
Proof.
  intros Hh Hk Hne Hfade. cbv zeta.
  assert (Heq : stopBGM m = fadeOutSound h d (Some ClearBGM) m).
  { unfold stopBGM. by rewrite Hh, Hk, decide_False, Hfade. }
  rewrite Heq.
  assert (Hi : tweens (scene (fadeOutSound h d (Some ClearBGM) m)) !! next_tween (scene m)
               = Some (mkTween h 0%Qc d (Some (Some ClearBGM))))
    by (cbn; by rewrite lookup_insert_eq).
  split; [split_and!; done|].
  unfold tween_complete. rewrite Hi. cbn [tw_done tw_target tw_volume].
  split_and!; try done.
  - intros s. cbn [set_bgm scene]. apply sound_stop_silent.
  - intros [s Hs]. unfold volume_of at 1. cbn [set_bgm scene].
    change (s_volume <$> objects (scene ?x) !! h) with (volume_of x h).
    rewrite volume_of_sound_stop, volume_of_setVolume, decide_True by done.
    unfold volume_of. cbn. by rewrite Hs.
Qed.

(** Property X25, on music in a category that fades out in a second. *)
Lemma stopBGM_fades_then_clears_witness :
  let m := playBGM "a" no_config (run_all bgm_history (new_manager bgm_scene None)) in
  getCurrentBGM (stopBGM m) = Some "a"%string ∧
  s_state <$> objects (scene (stopBGM m)) !! 0%nat = Some Playing ∧
  getCurrentBGM (tween_complete 0 (stopBGM m)) = None ∧
  silent (tween_complete 0 (stopBGM m)) 0%nat.
Proof.
  intros m.
  destruct (stopBGM_fades_then_clears m 0%nat "a"%string 1000)
    as ((H1 & _) & H2 & _ & H3 & _).
  - reflexivity.
  - reflexivity.
  - discriminate.
  - vm_compute. reflexivity.
  - change (next_tween (scene m)) with 0%nat in H2, H3.
    split; [exact H1|]. split; [vm_compute; reflexivity|]. split; [exact H2|exact H3].
Defined.

(** *** Muting *)

(** Property X26.  Two calls of [toggleMute] restore the mute flag and leave
    categories and music alone, but not the playback states: every sound of
    the host that is not idle ends up playing when the manager was not
    muted, and paused when it was, also a sound that was in the other
    state before. *)
Theorem toggleMute_twice m :
  let m2 := toggleMute (toggleMute m) in
  isMutedState m2 = isMutedState m ∧ store m2 = store m ∧
  categories m2 = categories m ∧ getCurrentBGM m2 = getCurrentBGM m ∧
  bgmSound m2 = bgmSound m ∧
  ∀ h, objects (scene m2) !! h =
       (λ s, sound_with_state (settled (isMuted m) (s_state s)) s)
         <$> objects (scene m) !! h.
Proof.
  cbv zeta. unfold toggleMute, isMutedState, getCurrentBGM.
  rewrite !isMuted_setMuted, negb_involutive.
  unfold setMuted. destruct (isMuted m) eqn:Hm; cbn; rewrite ?Hm; split_and!; try done.
  - intros h. rewrite !lookup_fmap. destruct (objects (scene m) !! h) as [s|]; [|done].
    cbn. f_equal. unfold pause_one, resume_one. destruct s as [? ? ? ? st ? ?].
    by destruct st.
  - intros h. rewrite !lookup_fmap. destruct (objects (scene m) !! h) as [s|]; [|done].
    cbn. f_equal. unfold pause_one, resume_one. destruct s as [? ? ? ? st ? ?].
    by destruct st.
Qed.

(** *** Defining a category again *)

Lemma map_set_names_eq {V} (n : string) (v : V) (L : list (string * V)) :
  n ∈ L.*1 → (AssetManager.map_set n v L).*1 = L.*1.
Proof.
  induction L as [|[n' v'] L IH]; intros Hin; [by apply elem_of_nil in Hin|].
  rewrite fmap_cons in Hin. cbn in Hin.
  cbn. destruct (decide (n' = n)) as [->|Hne]; [done|].
  cbn. f_equal. apply IH. apply elem_of_cons in Hin as [Heq|?]; [|done].
  by symmetry in Heq.
Qed.

(** Property X27.  [defineCategory] on a name that is already a category
    keeps the place of the name and puts a new record with an empty list
    under it.  The sounds the old record tracked keep playing, and the
    category no longer reaches them: [stopCategory] stops none of them and
    [setCategoryVolume] changes the volume of none. *)
Theorem redefined_category_forgets_its_sounds m n cfg r c :
  get_category m n = Some (r, c) →
  let m1 := defineCategory n cfg m in
  (∃ c1, get_category m1 n = Some (next_ref m, c1) ∧ playingSounds c1 = [] ∧
         volume c1 = default 1%Qc (cc_volume cfg) ∧
         maxConcurrent c1 = default 5 (cc_maxConcurrent cfg)) ∧
  (categories m1).*1 = (categories m).*1 ∧
  objects (scene m1) = objects (scene m) ∧
  objects (scene (stopCategory n m1)) = objects (scene m) ∧
  (∀ v h, volume_of (setCategoryVolume n v m1) h = volume_of m h).
Proof.
  intros Hg. cbv zeta.
  assert (Hg1 : get_category (defineCategory n cfg m) n
                = Some (next_ref m,
                        mkCategory n (default 1%Qc (cc_volume cfg))
                          (default false (cc_loop cfg))
                          (default 5 (cc_maxConcurrent cfg))
                          (default false (cc_interrupts cfg))
                          (cc_fadeInDuration cfg) (cc_fadeOutDuration cfg) [])).
  { rewrite get_category_unfold. cbn. rewrite map_get_set, decide_True by done.
    cbn. by rewrite lookup_insert_eq. }
  split_and!.
  - eexists. split; [exact Hg1|]. done.
  - apply get_category_elem_of in Hg as [Hin _]. cbn.
    apply map_set_names_eq, list_elem_of_fmap. by exists (n, r).
  - done.
  - unfold stopCategory. rewrite Hg1. cbn [playingSounds foldl].
    by rewrite clear_playing_scene.
  - intros v h. unfold setCategoryVolume. rewrite Hg1.
    destruct (apply_volume_spec (next_ref m)
                (set_store <[next_ref m := with_volume (Clamp v 0 1)
                   (mkCategory n (default 1%Qc (cc_volume cfg))
                      (default false (cc_loop cfg))
                      (default 5 (cc_maxConcurrent cfg))
                      (default false (cc_interrupts cfg))
                      (cc_fadeInDuration cfg) (cc_fadeOutDuration cfg) [])]>
                   (defineCategory n cfg m))) as (_ & _ & _ & Hv).
    rewrite Hv. cbn. rewrite lookup_insert_eq. cbn.
    rewrite decide_False by apply not_elem_of_nil. done.
Qed.

(** Property X27, on the category [voice] with one line playing. *)
Lemma redefined_category_forgets_its_sounds_witness :
  let m := run_all voice_playing (new_manager empty_scene None) in
  let m1 := defineCategory "voice" no_category_config m in
  (λ rc, playingSounds rc.2) <$> get_category m "voice" = Some [0%nat] ∧
  (λ rc, playingSounds rc.2) <$> get_category m1 "voice" = Some [] ∧
  s_state <$> objects (scene (stopCategory "voice" m1)) !! 0%nat = Some Playing.
Proof.
  intros m m1.
  destruct (redefined_category_forgets_its_sounds m "voice" no_category_config 3%nat
              (mkCategory "voice" (q 9 10) false 1 true None None [0%nat]))
    as (_ & _ & _ & Hobj & _).
  - vm_compute. reflexivity.
  - split; [vm_compute; reflexivity|]. split; [vm_compute; reflexivity|].
    subst m1. cbv zeta in Hobj. rewrite Hobj. vm_compute. reflexivity.
Defined.

(** *** Disposal *)

(** Property X28.  After [dispose] no sound and no category is registered,
    every sound object of the host is idle, no music is recorded and no
    fade-in tween is kept; a later [playSound] or [playBGM] does nothing. *)
Theorem dispose_releases_everything m :
  let m' := dispose m in
  sounds m' = ∅ ∧ categories m' = [] ∧
  (∀ h s, objects (scene m') !! h = Some s → s_state s = Idle) ∧
  getCurrentBGM m' = None ∧ bgmSound m' = None ∧ fadeTweens m' = [] ∧
  (∀ n, get_category m' n = None) ∧
  (∀ k cfg, playSound k cfg m' = (None, m')) ∧
  (∀ k cfg, playBGM k cfg m' = m').
Proof.
  cbv zeta.
  destruct (stopAll_result m) as (H1 & _ & _ & H4 & H5 & H6 & _). cbv zeta in *.
  destruct (clearFadeTweens_frame (stopAll m)) as (_ & F2 & F3 & F4).
  assert (Hbgm : bgmSound (dispose m) = None)
    by (unfold dispose; cbv zeta; cbn [bgmSound]; by rewrite F3, H5).
  assert (Hplay : ∀ k cfg, playSound k cfg (dispose m) = (None, dispose m)).
  { intros k cfg. apply playSound_unplayable. right. left. cbn. apply lookup_empty. }
  split_and!.
  - done.
  - done.
  - intros h s. unfold dispose. cbv zeta. cbn [scene].
    rewrite clearFadeTweens_objects. apply H1.
  - unfold getCurrentBGM, dispose. cbv zeta. cbn [currentBGM]. by rewrite F2, H4.
  - exact Hbgm.
  - unfold dispose. cbv zeta. cbn [fadeTweens]. exact F4.
  - intros n. by rewrite get_category_unfold.
  - exact Hplay.
  - intros k cfg. unfold playBGM.
    assert (Hstop : stopBGM (dispose m) = dispose m)
      by (unfold stopBGM; by rewrite Hbgm).
    rewrite Hstop. by rewrite Hplay.
Qed.

(** *** Volumes of the unit interval *)

Lemma Math_Clamp_unit (v : Number) :
  Math_Clamp v (Finite 0) (Finite 1) =
    match v with
    | NaN => NaN
    | MinusInfinity => Finite 0
    | Finite x => Finite (Clamp x 0 1)
    | PlusInfinity => Finite 1
    end.
Proof.
  destruct v as [| |x|]; try reflexivity.
  unfold Math_Clamp, Clamp, num_max, num_min. cbn.
  destruct (decide (1 ≤ x)%Qc) as [H1|H1].
  - rewrite bool_decide_eq_true_2 by done. reflexivity.
  - rewrite bool_decide_eq_false_2 by done. cbn.
    destruct (decide (0 ≤ x)%Qc) as [H0|H0].
    + by rewrite bool_decide_eq_true_2.
    + by rewrite bool_decide_eq_false_2.
Qed.

(** Property X29.  [Phaser.Math.Clamp(v, 0, 1)] is NaN for NaN alone, 0 and
    1 for the infinities, and on a finite number the clamp of this model,
    which lies from 0 to 1.  The histories of the model pass finite numbers
    as volumes; in every such history whose calls of [defineCategory] pass
    volumes from 0 to 1 (or none), the global volume and the volume of every
    category stay within 0 and 1. *)
Theorem volumes_stay_in_unit_interval sc am ops :
  Forall defines_in_unit ops →
  let m := run_all ops (new_manager sc am) in
  (∀ v, Math_Clamp v (Finite 0) (Finite 1) = NaN ↔ v = NaN) ∧
  (∀ x, Math_Clamp (Finite x) (Finite 0) (Finite 1) = Finite (Clamp x 0 1) ∧
        in_unit (Clamp x 0 1)) ∧
  in_unit (globalVolume m) ∧
  (∀ n x, category_volume m n = Some x → in_unit x) ∧
  in_unit (s_globalVolume (saveSettings m)).
Proof.
  intros Hops. cbv zeta.
  destruct (volumes_unit_but_for_defineCategory sc am ops Hops) as [Hg Hc].
  split; [intros v; rewrite Math_Clamp_unit; by destruct v|].
  split; [intros x; split; [apply Math_Clamp_unit|apply Clamp_unit_range]|].
  split; [exact Hg|]. split; [|exact Hg].
  intros n x Hx. unfold category_volume in Hx.
  destruct (get_category _ n) as [[r c]|] eqn:Hgc; [|done].
  cbn in Hx. injection Hx as <-. apply get_category_store in Hgc. by apply (Hc r).
Qed.

(** Property X29, on a history that asks for volumes far out of range. *)
Lemma volumes_stay_in_unit_interval_witness :
  let m := run_all [SetGlobalVolume (q 5 1); SetCategoryVolume "ui" (q (-3) 1)]
                   (new_manager empty_scene None) in
  globalVolume m = 1%Qc ∧ category_volume m "ui" = Some 0%Qc ∧
  in_unit (globalVolume m).
Proof.
  intros m. split; [by vm_compute|]. split; [by vm_compute|].
  refine (proj1 (proj2 (proj2 (volumes_stay_in_unit_interval empty_scene None
                   [SetGlobalVolume (q 5 1); SetCategoryVolume "ui" (q (-3) 1)] _)))).
  repeat constructor.
Defined.

(** *** Registered sounds and their categories *)

Lemma foldl_preserves {A B} (proj : Manager → B) (f : Manager → A → Manager)
    (l : list A) m :
  (∀ m x, proj (f m x) = proj m) → proj (foldl f m l) = proj m.
Proof.
  intros Hf. revert m. induction l as [|x l IH]; intros m; [done|].
  cbn [foldl]. by rewrite IH, Hf.
Qed.

Lemma stopCategory_book n m : same_book m (stopCategory n m).
Proof.
  unfold stopCategory. destruct (get_category m n) as [[r c]|]; [|done].
  eapply same_book_trans; [|apply clear_playing_book].
  apply same_book_foldl. intros. apply sound_stop_book.
Qed.

Lemma evict_oldest_book r m : same_book m (evict_oldest r m).
Proof.
  unfold evict_oldest. destruct (store m !! r) as [c|]; [|done].
  destruct (playingSounds c); [done|].
  eapply same_book_trans; [|apply sound_stop_book]. done.
Qed.

Lemma start_sound_book k e cfg r m : same_book m (start_sound k e cfg r m).2.
Proof.
  destruct (decide (k ∈ cache_audio (scene m))) as [Hk|Hk];
    [|by rewrite start_sound_uncached].
  destruct (store m !! r) as [c|] eqn:Hc.
  - destruct (start_sound_full k e cfg r m c Hc Hk)
      as (m' & -> & _ & _ & _ & _ & H1 & H2 & _ & _ & H3 & H4 & H5). done.
  - unfold start_sound. by rewrite Hc.
Qed.

Lemma playSound_book k cfg m : same_book m (playSound k cfg m).2.
Proof.
  unfold playSound. destruct (isMuted m); [done|].
  destruct (sounds m !! k) as [e|]; [|done].
  destruct (get_category m (category e)) as [[r c]|]; [|done].
  case_decide; [|done].
  destruct (_ <=? _); [destruct (interrupts c); [|done]|].
  - eapply same_book_trans; [apply evict_oldest_book|apply start_sound_book].
  - apply start_sound_book.
Qed.

Lemma playBGM_book k cfg m : same_book m (playBGM k cfg m).
Proof.
  unfold playBGM. pose proof (playSound_book k cfg (stopBGM m)) as H.
  destruct (playSound k cfg (stopBGM m)) as [[h|] m']; cbn in H;
    (eapply same_book_trans; [apply stopBGM_book|]);
    (eapply same_book_trans; [exact H|done]).
Qed.

Lemma tween_complete_book i m : same_book m (tween_complete i m).
Proof.
  unfold tween_complete. destruct (tweens (scene m) !! i) as [tw|]; [|done].
  destruct (tw_done tw) as [cb|]; [|done].
  set (m1 := sound_setVolume (tw_target tw) (tw_volume tw)
               (set_scene (set_tweens (delete i)) m)).
  assert (H1 : same_book m m1) by done.
  assert (H2 : same_book m (sound_stop (tw_target tw) m1))
    by (eapply same_book_trans; [exact H1|apply sound_stop_book]).
  destruct cb as [[]|]; [|exact H2].
  eapply same_book_trans; [exact H2|done].
Qed.

Lemma apply_volume_sounds r m : sounds (apply_volume r m) = sounds m.
Proof.
  unfold apply_volume. destruct (store m !! r); [|done].
  by apply (foldl_preserves sounds).
Qed.

Lemma setCategoryVolume_sounds n v m : sounds (setCategoryVolume n v m) = sounds m.
Proof.
  unfold setCategoryVolume. destruct (get_category m n) as [[r c]|]; [|done].
  by rewrite apply_volume_sounds.
Qed.

Lemma setGlobalVolume_sounds v m : sounds (setGlobalVolume v m) = sounds m.
Proof.
  unfold setGlobalVolume.
  rewrite (foldl_preserves sounds); [done|]. intros. apply apply_volume_sounds.
Qed.

Lemma loadSettings_sounds s m : sounds (loadSettings s m) = sounds m.
Proof.
  unfold loadSettings.
  rewrite (foldl_preserves sounds) by (intros; apply setCategoryVolume_sounds).
  unfold setMuted. destruct (s_isMuted s); cbn; apply setGlobalVolume_sounds.
Qed.

Lemma run_sounds op m :
  match op with
  | DefineCategory _ _ | RegisterSound _ _ _ _ | Dispose => True
  | _ => sounds (run op m) = sounds m ∧ categories (run op m) = categories m
  end.
Proof.
  pose proof (run_shrinks op m) as Hs.
  destruct op; try done; cbn [run]; (split; [|try apply (shr_cats _ _ Hs)]).
  - apply playSound_book.
  - apply playSound_book.
  - apply playBGM_book.
  - apply playBGM_book.
  - apply stopBGM_book.
  - apply stopCategory_book.
  - apply stopAll_book.
  - apply setCategoryVolume_sounds.
  - apply setGlobalVolume_sounds.
  - by destruct b.
  - unfold toggleMute. by destruct (negb (isMuted m)).
  - apply loadSettings_sounds.
  - apply sound_complete_book.
  - apply sound_stop_book.
  - apply tween_complete_book.
Qed.

Lemma run_sounds_ok op m : sounds_ok m → sounds_ok (run op m).
Proof.
  intros Hm. pose proof (run_sounds op m) as Hf.
  destruct op; try (destruct Hf as [Hso Hca]; unfold sounds_ok; by rewrite Hso, Hca).
  - intros k e He. destruct (Hm k e He) as [Hk Hc]. split; [done|].
    cbn. apply map_set_names. by right.
  - intros k' e He. cbn [run] in He. unfold registerSound in *. cbn in He.
    assert (Hnames : (∀ n', n' ∈ (categories m).*1 →
                        n' ∈ (categories
                                match AssetManager.map_get cat (categories m) with
                                | Some _ => m
                                | None => defineCategory cat no_category_config m
                                end).*1) ∧
                     cat ∈ (categories
                              match AssetManager.map_get cat (categories m) with
                              | Some _ => m
                              | None => defineCategory cat no_category_config m
                              end).*1).
    { destruct (AssetManager.map_get cat (categories m)) as [r|] eqn:Hget.
      - split; [done|]. apply map_get_Some in Hget.
        apply list_elem_of_fmap. by exists (cat, r).
      - split; [intros n' Hn'|]; cbn; apply map_set_names; [by right|by left]. }
    destruct Hnames as [Hold Hnew].
    assert (Hsounds : sounds match AssetManager.map_get cat (categories m) with
                             | Some _ => m
                             | None => defineCategory cat no_category_config m
                             end = sounds m)
      by (by destruct (AssetManager.map_get cat (categories m))).
    rewrite Hsounds in He. cbn.
    destruct (decide (k = k')) as [<-|Hne].
    + rewrite lookup_insert_eq in He. injection He as <-. done.
    + rewrite lookup_insert_ne in He by done.
      destruct (Hm k' e He) as [Hk Hc]. split; [done|]. by apply Hold.
  - intros k e He. cbn in He. by rewrite lookup_empty in He.
Qed.

Lemma new_manager_sounds_ok sc am : sounds_ok (new_manager sc am).
Proof. intros k e He. cbn in He. by rewrite lookup_empty in He. Qed.

Lemma reachable_sounds_ok m : reachable m → sounds_ok m.
Proof. induction 1; [apply new_manager_sounds_ok|by apply run_sounds_ok]. Qed.

(** Property X30.  In every reachable state a registered sound is stored
    under its own key and names a category that exists; so [playSound]
    never takes the branch that reports a missing category. *)
Theorem registered_sound_has_its_category m k e :
  reachable m → sounds m !! k = Some e →
  key e = k ∧ ∃ r c, get_category m (category e) = Some (r, c).
Proof.
  intros Hr He. destruct (reachable_sounds_ok m Hr k e He) as [Hk Hc].
  split; [exact Hk|]. pose proof (reachable_well_formed m Hr) as Hwf.
  apply list_elem_of_fmap in Hc as ([n r] & Hn & Hin). cbn in Hn. subst n.
  destruct (wf_stored _ Hwf _ _ Hin) as [c Hst].
  exists r, c. rewrite get_category_unfold.
  rewrite (map_get_elem_of _ _ _ (wf_names _ Hwf) Hin). cbn. by rewrite Hst.
Qed.

(** Property X30, on a sound registered in a category that did not exist. *)
Lemma registered_sound_has_its_category_witness :
  let m := run_all [RegisterSound "roar" "monsters" ["roar.mp3"] None]
                   (new_manager empty_scene None) in
  ∃ e, sounds m !! "roar" = Some e ∧ category e = "monsters"%string ∧
       ∃ r c, get_category m "monsters" = Some (r, c).
Proof.
  intros m.
  assert (He : sounds m !! "roar"
               = Some (mkEntry "roar" "monsters" ["roar.mp3"] no_config false))
    by (vm_compute; reflexivity).
  eexists. split; [exact He|]. split; [reflexivity|].
  refine (proj2 (registered_sound_has_its_category m "roar" _ _ He)).
  apply reachable_run_all, reach_new, empty_scene_ok.
Defined.

End SoundManagerSpec.

(* ===================================================================== *)
(** * Registry and loading of AssetManager over histories *)
(* ===================================================================== *)

Module AssetLoadingSpec.
Import AssetManager AssetManagerSpec SoundManagerSpec.

(** *** The loader under [loadAssets] *)

Lemma addToLoadQueue_fold (l : list AssetConfig) st :
  let st' := foldl (λ s a, addToLoadQueue a s) st l in
  assetRegistry st' = assetRegistry st ∧ loadedAssets st' = loadedAssets st ∧
  loadQueue st' = loadQueue st ∧ isLoading st' = isLoading st ∧
  console st' = console st ∧
  files (load st') = files (load st) ++ map (λ a, (type a, key a)) l ∧
  running (load st') = running (load st) ∧
  on_progress (load st') = on_progress (load st) ∧
  once_complete (load st') = once_complete (load st) ∧
  once_loaderror (load st') = once_loaderror (load st).
Proof.
  revert st. induction l as [|a l IH]; intros st; cbn [foldl map].
  - rewrite app_nil_r. done.
  - destruct (IH (addToLoadQueue a st)) as (H1 & H2 & H3 & H4 & H5 & H6 & H7 & H8 & H9 & H10).
    cbv zeta in *. rewrite H1, H2, H3, H4, H5, H6, H7, H8, H9, H10.
    cbn. rewrite <- app_assoc. done.
Qed.

Lemma filter_off_on (cb : nat) (l : list nat) :
  filter (λ c, c ≠ cb) (l ++ [cb]) = filter (λ c, c ≠ cb) l.
Proof.
  rewrite filter_app. cbn. rewrite decide_False by (intros H; by apply H).
  by rewrite app_nil_r.
Qed.

(** What a call of [loadAssets] that passes the guard does, when the host
    begins to load on [start]. *)
Lemma loadAssets_spec keys cb st :
  isLoading st = false →
  ∃ p st', loadAssets keys cb Loads st = (p, st') ∧
    assetRegistry st' = assetRegistry st ∧ loadedAssets st' = loadedAssets st ∧
    loadQueue st' = loadQueue st ∧ isLoading st' = false ∧
    files (load st') =
      files (load st) ++ map (λ a, (type a, key a)) (selected keys st) ∧
    on_progress (load st') =
      match cb with
      | Some c => filter (λ c', c' ≠ c) (on_progress (load st))
      | None => on_progress (load st)
      end ∧
    match selected keys st with
    | [] => p = Fulfilled ∧ console st' = console st ++ ["No assets to load"] ∧
            running (load st') = running (load st) ∧
            once_complete (load st') = once_complete (load st) ∧
            once_loaderror (load st') = once_loaderror (load st)
    | _ :: _ =>
        console st' = console st ∧
        if running (load st)
        then p = Fulfilled ∧ running (load st') = true ∧
             once_complete (load st') = once_complete (load st) ∧
             once_loaderror (load st') = once_loaderror (load st)
        else p = AwaitingLoader ∧ running (load st') = true ∧
             once_complete (load st') = once_complete (load st) ++ [selected keys st] ∧
             once_loaderror (load st') = S (once_loaderror (load st))
    end.
Proof.
  intros Hst. unfold loadAssets. rewrite Hst.
  change (match keys with
          | Some ks => omap (λ k, map_get k (assetRegistry (set_isLoading true st))) ks
          | None => (assetRegistry (set_isLoading true st)).*2
          end) with (selected keys st).
  destruct (selected keys st) as [|a l] eqn:Hsel.
  - eexists _, _. split; [reflexivity|].
    destruct cb; cbn; rewrite ?app_nil_r; done.
  - set (st1 := match cb with
                | Some c => set_load (loader_on_progress c) (set_isLoading true st)
                | None => set_isLoading true st
                end).
    pose proof (addToLoadQueue_fold (a :: l) st1) as Hfold. cbv zeta in Hfold.
    destruct Hfold as (H1 & H2 & H3 & H4 & H5 & H6 & H7 & H8 & H9 & H10).
    set (st2 := foldl (λ s a0, addToLoadQueue a0 s) st1 (a :: l)) in *.
    assert (Hrun : running (load st1) = running (load st)) by (subst st1; by destruct cb).
    assert (Hreg : assetRegistry st1 = assetRegistry st) by (subst st1; by destruct cb).
    assert (Hld : loadedAssets st1 = loadedAssets st) by (subst st1; by destruct cb).
    assert (Hq : loadQueue st1 = loadQueue st) by (subst st1; by destruct cb).
    assert (Hcon : console st1 = console st) by (subst st1; by destruct cb).
    assert (Hfiles : files (load st1) = files (load st)) by (subst st1; by destruct cb).
    assert (Hoc : once_complete (load st1) = once_complete (load st))
      by (subst st1; by destruct cb).
    assert (Hoe : once_loaderror (load st1) = once_loaderror (load st))
      by (subst st1; by destruct cb).
    assert (Hop : match cb with
                  | Some c => filter (λ c', c' ≠ c) (on_progress (load st2))
                  | None => on_progress (load st2)
                  end = match cb with
                        | Some c => filter (λ c', c' ≠ c) (on_progress (load st))
                        | None => on_progress (load st)
                        end).
    { rewrite H8. subst st1. destruct cb; [|done]. cbn. apply filter_off_on. }
    rewrite H7, Hrun. destruct (running (load st)) eqn:Hr; cbn [negb].
    + eexists _, _. split; [reflexivity|].
      destruct cb; cbn in *;
        rewrite ?H1, ?H2, ?H3, ?H5, ?H6, ?H7, ?H9, ?H10, ?Hop, ?Hrun, ?Hreg, ?Hld, ?Hq,
          ?Hcon, ?Hfiles, ?Hoc, ?Hoe; done.
    + eexists _, _. split; [reflexivity|].
      destruct cb; cbn in *;
        rewrite ?H1, ?H2, ?H3, ?H5, ?H6, ?H7, ?H9, ?H10, ?Hop, ?Hrun, ?Hreg, ?Hld, ?Hq,
          ?Hcon, ?Hfiles, ?Hoc, ?Hoe; done.
Qed.

Lemma loadAssets_busy keys cb o st :
  isLoading st = true →
  loadAssets keys cb o st = (Fulfilled, warn "Already loading assets" st).
Proof. intros H. unfold loadAssets. by rewrite H. Qed.

(** *** A load that completes within [start] *)

Lemma onLoadComplete_fold_eq now (bs : list (list AssetConfig)) st :
  foldl (λ s b, onLoadComplete now b s) st bs =
  mkState (assetRegistry st)
          (foldl (λ m b, foldl (λ m a, <[key a := mkLoaded (key a) (type a) now]> m) m b)
                 (loadedAssets st) bs)
          (loadQueue st) (isLoading st) (load st) (console st).
Proof.
  revert st. induction bs as [|b bs IH]; intros st; [by destruct st|].
  cbn [foldl]. by rewrite IH.
Qed.

Lemma loader_complete_eq now st :
  loader_complete now st =
  mkState (assetRegistry st)
          (foldl (λ m b, foldl (λ m a, <[key a := mkLoaded (key a) (type a) now]> m) m b)
                 (loadedAssets st) (once_complete (load st)))
          (loadQueue st) (isLoading st)
          (mkLoader [] false (on_progress (load st)) [] (once_loaderror (load st)))
          (console st).
Proof. unfold loader_complete. by rewrite onLoadComplete_fold_eq. Qed.

(** The [finally] block does the same before and after the loader's
    completion. *)
Lemma finally_complete cb now st :
  finally cb (loader_complete now st) =
  loader_complete now (finally cb (set_load loader_run st)).
Proof. rewrite !loader_complete_eq. by destruct cb. Qed.

(** A call during which the loader completes leaves the state that the
    same call leaves when the loader begins to load and completes right
    after the call has returned. *)
Lemma loadAssets_completes keys cb now st :
  loadAssets keys cb (CompletesAt now) st =
  match loadAssets keys cb Loads st with
  | (AwaitingLoader, st1) => (Fulfilled, loader_complete now st1)
  | (Fulfilled, st1) => (Fulfilled, st1)
  end.
Proof.
  unfold loadAssets. destruct (isLoading st); [done|].
  destruct (match keys with Some ks => _ | None => _ end) as [|a l]; [done|].
  destruct (negb _); [|done].
  cbn [loader_start]. by rewrite finally_complete.
Qed.

Lemma loadAssets_registry keys cb o st :
  assetRegistry (loadAssets keys cb o st).2 = assetRegistry st.
Proof.
  assert (H : assetRegistry (loadAssets keys cb Loads st).2 = assetRegistry st).
  { destruct (isLoading st) eqn:Hst.
    - by rewrite loadAssets_busy.
    - destruct (loadAssets_spec keys cb st Hst) as (p & st' & -> & H1 & _). done. }
  destruct o as [|now]; [exact H|].
  rewrite loadAssets_completes.
  destruct (loadAssets keys cb Loads st) as [[] st1]; cbn [snd] in *; [done|].
  by rewrite loader_complete_eq.
Qed.

(** *** The registry *)

Lemma map_get_delete {V} (k k' : string) (m : list (string * V)) :
  map_get k' (map_delete k m) = if decide (k = k') then None else map_get k' m.
Proof.
  unfold map_delete. induction m as [|[k0 v0] m IH].
  - by destruct (decide (k = k')).
  - rewrite filter_cons. cbn [fst map_get].
    destruct (decide (k0 ≠ k)) as [Hne|Heq].
    + cbn [map_get]. destruct (decide (k0 = k')) as [->|]; [|exact IH].
      by rewrite decide_False.
    + apply dec_stable in Heq. subst k0. rewrite IH.
      destruct (decide (k = k')); done.
Qed.

Lemma registry_ok_set reg a : registry_ok reg → registry_ok (map_set (key a) a reg).
Proof.
  intros [Hnd Hkey]. split.
  - by apply map_set_NoDup_names.
  - intros k a' Hin. apply map_set_elem_of in Hin as [[= -> ->]|Hin]; [done|].
    by apply Hkey.
Qed.

Lemma registry_ok_delete reg k : registry_ok reg → registry_ok (map_delete k reg).
Proof.
  intros [Hnd Hkey]. split.
  - unfold map_delete. eapply sublist_NoDup; [exact Hnd|].
    apply fmap_sublist, sublist_filter.
  - intros k' a Hin. apply list_elem_of_filter in Hin as [_ Hin]. by apply Hkey.
Qed.

Lemma registry_ok_unique reg k a a' :
  registry_ok reg → (k, a) ∈ reg → (k, a') ∈ reg → a = a'.
Proof.
  intros [Hnd _] H1 H2.
  apply (map_get_elem_of _ _ _ Hnd) in H1, H2. congruence.
Qed.

Lemma registerAsset_stored a st : registerAsset a st = register (stored a) st.
Proof.
  unfold registerAsset, stored. destruct a as [k t p ap]. cbn. by destruct t.
Qed.

Lemma registerAssets_snoc l a st :
  registerAssets (l ++ [a]) st = register (stored a) (registerAssets l st).
Proof. unfold registerAssets. rewrite foldl_app. cbn. apply registerAsset_stored. Qed.

Lemma registerAssets_frame l st :
  loadedAssets (registerAssets l st) = loadedAssets st ∧
  loadQueue (registerAssets l st) = loadQueue st ∧
  isLoading (registerAssets l st) = isLoading st ∧
  load (registerAssets l st) = load st ∧
  console (registerAssets l st) = console st.
Proof.
  induction l as [|a l IH] using rev_ind; [done|].
  rewrite registerAssets_snoc. cbn. exact IH.
Qed.

Lemma registerAssets_registry_ok l st :
  registry_ok (assetRegistry st) → registry_ok (assetRegistry (registerAssets l st)).
Proof.
  intros H. induction l as [|a l IH] using rev_ind; [done|].
  rewrite registerAssets_snoc. cbn [register assetRegistry].
  change (key (stored a)) with (key a) at 1.
  replace (key a) with (key (stored a)) by done. by apply registry_ok_set.
Qed.

(** *** The events the loader sends *)

Lemma onLoadComplete_fold_frame now (bs : list (list AssetConfig)) st :
  let st' := foldl (λ s b, onLoadComplete now b s) st bs in
  assetRegistry st' = assetRegistry st ∧ loadQueue st' = loadQueue st ∧
  isLoading st' = isLoading st ∧ load st' = load st ∧ console st' = console st ∧
  loadedAssets st' =
    foldl (λ m b, foldl (λ m a, <[key a := mkLoaded (key a) (type a) now]> m) m b)
          (loadedAssets st) bs.
Proof.
  revert st. induction bs as [|b bs IH]; intros st; [done|].
  cbn [foldl]. destruct (IH (onLoadComplete now b st)) as (H1 & H2 & H3 & H4 & H5 & H6).
  cbv zeta. rewrite H1, H2, H3, H4, H5, H6. done.
Qed.

Lemma loader_complete_frame now st :
  let st' := loader_complete now st in
  assetRegistry st' = assetRegistry st ∧ loadQueue st' = loadQueue st ∧
  isLoading st' = isLoading st ∧ console st' = console st ∧
  running (load st') = false ∧ once_complete (load st') = [] ∧
  loadedAssets st' =
    foldl (λ m b, foldl (λ m a, <[key a := mkLoaded (key a) (type a) now]> m) m b)
          (loadedAssets st) (once_complete (load st)).
Proof.
  unfold loader_complete.
  set (st0 := set_load _ st).
  destruct (onLoadComplete_fold_frame now (once_complete (load st)) st0)
    as (H1 & H2 & H3 & H4 & H5 & H6).
  cbv zeta. rewrite H1, H2, H3, H4, H5, H6. done.
Qed.

Lemma loader_error_frame file st :
  let st' := loader_error file st in
  assetRegistry st' = assetRegistry st ∧ loadedAssets st' = loadedAssets st ∧
  isLoading st' = isLoading st ∧
  once_complete (load st') = once_complete (load st) ∧
  ∀ line, line ∈ console st' →
          line ∈ console st ∨ line = "Failed to load asset: " +:+ file.
Proof.
  unfold loader_error. generalize (once_loaderror (load st)). intros n.
  induction n as [|n IH]; cbn [Nat.iter].
  - cbn. repeat split. auto.
  - destruct IH as (H1 & H2 & H3 & H4 & H5). cbn. repeat split; try done.
    intros line Hin. apply elem_of_app in Hin as [Hin|Hin]; [by apply H5|].
    apply list_elem_of_singleton in Hin. by right.
Qed.

(** A batch in which a key stands for one asset only. *)
Lemma batch_lookup now (b : list AssetConfig) (m : gmap string LoadedInfo) a :
  (∀ x y, x ∈ b → y ∈ b → key x = key y → x = y) → a ∈ b →
  foldl (λ m a, <[key a := mkLoaded (key a) (type a) now]> m) m b !! key a
    = Some (mkLoaded (key a) (type a) now).
Proof.
  induction b as [|x b IH] using rev_ind; intros Hone Hin; [by apply elem_of_nil in Hin|].
  rewrite foldl_app. cbn [foldl].
  destruct (decide (key x = key a)) as [Hk|Hk].
  - assert (x = a) as ->.
    { apply Hone; [apply elem_of_app; right; apply list_elem_of_singleton; done|done|done]. }
    apply lookup_insert_eq.
  - rewrite lookup_insert_ne by done.
    apply elem_of_app in Hin as [Hin|Hin].
    + apply IH; [|done]. intros x' y' Hx Hy. apply Hone; apply elem_of_app; by left.
    + apply list_elem_of_singleton in Hin. by subst.
Qed.

Lemma selected_registered keys st a :
  registry_ok (assetRegistry st) → a ∈ selected keys st →
  (key a, a) ∈ assetRegistry st.
Proof.
  intros Hok Hin. destruct keys as [ks|]; cbn [selected] in Hin.
  - apply list_elem_of_omap in Hin as (k & _ & Hget).
    apply map_get_Some in Hget. by rewrite (proj2 Hok k a Hget).
  - apply list_elem_of_fmap in Hin as ([k a'] & -> & Hin). cbn.
    by rewrite (proj2 Hok k a' Hin).
Qed.

Lemma steps_invariant (P : State → Prop) :
  (∀ ev w, P (manager w) → P (manager (step ev w))) →
  ∀ evs w, P (manager w) → P (manager (steps evs w)).
Proof.
  intros Hstep evs. induction evs as [|ev evs IH]; intros w Hw; [done|].
  apply IH, Hstep, Hw.
Qed.

Lemma preload_state keys cb o st :
  (preloadEssentialAssets keys cb o st).2 = st ∨
  (preloadEssentialAssets keys cb o st).2 = (loadAssets (Some keys) cb o st).2.
Proof.
  unfold preloadEssentialAssets.
  destruct (omap _ keys); [by left|right].
  by destruct (loadAssets (Some keys) cb o st).
Qed.

Lemma loader_complete_quiet now st : quiet st → quiet (loader_complete now st).
Proof. rewrite loader_complete_eq. by intros [? ?]. Qed.

Lemma loadAssets_quiet keys cb o st : quiet st → quiet (loadAssets keys cb o st).2.
Proof.
  intros [Hst Hcon].
  assert (H : quiet (loadAssets keys cb Loads st).2).
  { destruct (loadAssets_spec keys cb st Hst)
      as (p & st' & -> & _ & _ & _ & Hl & _ & _ & Hcase).
    split; [exact Hl|]. cbn [snd].
    destruct (selected keys st).
    - destruct Hcase as (_ & -> & _). intros Hin.
      apply elem_of_app in Hin as [Hin|Hin]; [done|].
      apply list_elem_of_singleton in Hin. discriminate Hin.
    - destruct Hcase as (-> & _). exact Hcon. }
  destruct o as [|now]; [exact H|].
  rewrite loadAssets_completes.
  destruct (loadAssets keys cb Loads st) as [[] st1]; cbn [snd] in *; [done|].
  by apply loader_complete_quiet.
Qed.

Lemma step_quiet ev w : quiet (manager w) → quiet (manager (step ev w)).
Proof.
  intros Hq. destruct ev; cbn [step on_manager manager]; try exact Hq.
  - destruct (registerAssets_frame assets (manager w)) as (_ & _ & H3 & _ & H5).
    unfold quiet. by rewrite H3, H5.
  - by apply loadAssets_quiet.
  - destruct (preload_state keys onProgress start (manager w)) as [-> | ->]; [done|].
    by apply loadAssets_quiet.
  - unfold loadLevelAssets. apply loadAssets_quiet.
    destruct Hq as [Hl Hc]. split; [exact Hl|]. cbn. intros Hin.
    apply elem_of_app in Hin as [Hin|Hin]; [done|].
    apply list_elem_of_singleton in Hin. discriminate Hin.
  - destruct (loader_error_frame file (manager w)) as (_ & _ & H3 & _ & H5).
    destruct Hq as [Hl Hc]. split; [by rewrite H3|].
    intros Hin. apply H5 in Hin as [Hin|Hin]; [done|discriminate Hin].
  - by apply loader_complete_quiet.
Qed.

Lemma step_registry_ok ev w :
  registry_ok (assetRegistry (manager w)) →
  registry_ok (assetRegistry (manager (step ev w))).
Proof.
  intros Hok. destruct ev; cbn [step on_manager manager];
    try (by apply (registry_ok_set _ (mkAsset _ _ _ _))).
  - by apply registerAssets_registry_ok.
  - by rewrite loadAssets_registry.
  - destruct (preload_state keys onProgress start (manager w)) as [-> | ->]; [done|].
    by rewrite loadAssets_registry.
  - unfold loadLevelAssets. by rewrite loadAssets_registry.
  - by apply registry_ok_delete.
  - split; [constructor|]. intros k a Hin. by apply elem_of_nil in Hin.
  - exact Hok.
  - by rewrite (proj1 (loader_error_frame _ _)).
  - by rewrite (proj1 (loader_complete_frame _ _)).
Qed.

Lemma registry_ok_nil : registry_ok [].
Proof. split; [constructor|]. intros k a Hin. by apply elem_of_nil in Hin. Qed.

Lemma two_images_ok : registry_ok (assetRegistry two_images).
Proof.
  apply (registry_ok_set _ (mkAsset "b" IMAGE ["b.png"] None)).
  apply (registry_ok_set _ (mkAsset "a" IMAGE ["a.png"] None)).
  apply registry_ok_nil.
Qed.

(** *** Loading *)

(** Property X7.  In no history of calls and loader events (each call
    running to its return before the next one starts) is the warning of the
    [isLoading] guard written, and between two calls the flag is always
    down: whatever is called while a load is in progress passes the guard. *)
Theorem already_loading_never_logged (l : Loader) (h : Caches) (evs : list Event) :
  let st := manager (steps evs (new_world l h)) in
  isLoading st = false ∧ "Already loading assets" ∉ console st.
Proof.
  cbv zeta. apply (steps_invariant quiet); [apply step_quiet|].
  split; [reflexivity|]. cbn. apply not_elem_of_nil.
Qed.

(** Property X8.  When [loadAssets] returns, the progress callback it was
    given is no longer subscribed to the loader, also when the promise it
    returns is still waiting for the loader; every subscription of the same
    callback made before the call is gone too. *)
Theorem loadAssets_detaches_progress keys (cb : nat) o st :
  isLoading st = false →
  ∃ p st', loadAssets keys (Some cb) o st = (p, st') ∧
    cb ∉ on_progress (load st') ∧
    on_progress (load st') = filter (λ c, c ≠ cb) (on_progress (load st)).
Proof.
  intros Hst.
  assert (H : ∃ p st', loadAssets keys (Some cb) o st = (p, st') ∧
                on_progress (load st') = filter (λ c, c ≠ cb) (on_progress (load st))).
  { destruct (loadAssets_spec keys (Some cb) st Hst)
      as (p & st' & Heq & _ & _ & _ & _ & _ & Hop & _).
    destruct o as [|now]; [by exists p, st'|].
    rewrite loadAssets_completes, Heq. destruct p.
    - by exists Fulfilled, st'.
    - exists Fulfilled, (loader_complete now st'). split; [done|].
      by rewrite loader_complete_eq. }
  destruct H as (p & st' & Heq & Hop).
  exists p, st'. split; [exact Heq|]. split; [|exact Hop].
  rewrite Hop. intros Hin. apply list_elem_of_filter in Hin as [Hne _]. by apply Hne.
Qed.

(** Property X8, on a load that is still running. *)
Lemma loadAssets_detaches_progress_witness :
  ∃ st', loadAssets None (Some 7%nat) Loads two_images = (AwaitingLoader, st') ∧
         running (load st') = true ∧ on_progress (load st') = [].
Proof.
  destruct (loadAssets_detaches_progress None 7%nat Loads two_images eq_refl)
    as (p & st' & Heq & _ & Hop).
  exists st'. vm_compute in Heq. injection Heq as <- <-. repeat split.
Defined.

(** Property X9.  A call of [loadAssets] that passes the guard leaves the
    registry alone and selects the registered assets among the keys it was
    given, in the order of the keys (all registered assets when no keys are
    given).  When there is none it writes a warning, touches neither the
    loader nor the loaded assets, and returns a settled promise.  Otherwise
    it writes nothing.  If the loader is running already, or begins to load
    when the call starts it, the selected files have been handed to the
    loader, after those handed over before, and the loader is running when
    the call returns; the promise waits for the loader only in the second
    case.  If the loader is idle and completes within [start], having
    nothing to fetch, the promise is settled and the loader is idle, with
    no file left, when the call returns. *)
Theorem loadAssets_hands_over_selected keys cb o st :
  isLoading st = false →
  ∃ p st', loadAssets keys cb o st = (p, st') ∧
    assetRegistry st' = assetRegistry st ∧
    (selected keys st = [] →
       p = Fulfilled ∧ console st' = console st ++ ["No assets to load"] ∧
       files (load st') = files (load st) ∧ running (load st') = running (load st) ∧
       loadedAssets st' = loadedAssets st) ∧
    (selected keys st ≠ [] →
       console st' = console st ∧
       match running (load st), o with
       | true, _ =>
           p = Fulfilled ∧ running (load st') = true ∧
           files (load st') =
             files (load st) ++ map (λ a, (type a, key a)) (selected keys st) ∧
           loadedAssets st' = loadedAssets st
       | false, Loads =>
           p = AwaitingLoader ∧ running (load st') = true ∧
           files (load st') =
             files (load st) ++ map (λ a, (type a, key a)) (selected keys st) ∧
           loadedAssets st' = loadedAssets st
       | false, CompletesAt _ =>
           p = Fulfilled ∧ running (load st') = false ∧ files (load st') = []
       end).
Proof.
  intros Hst.
  destruct (loadAssets_spec keys cb st Hst)
    as (p & st1 & Heq & Hreg & Hld & _ & _ & Hfiles & _ & Hcase).
  assert (Hp : selected keys st ≠ [] → running (load st) = false → p = AwaitingLoader).
  { intros Hsel Hrun. destruct (selected keys st); [done|].
    rewrite Hrun in Hcase. by destruct Hcase as (_ & -> & _). }
  assert (Hq : selected keys st = [] ∨ running (load st) = true → p = Fulfilled).
  { intros Hor. destruct (selected keys st).
    - by destruct Hcase as (-> & _).
    - destruct Hor as [|Hrun]; [done|]. rewrite Hrun in Hcase.
      by destruct Hcase as (_ & -> & _). }
  assert (Hsame : selected keys st = [] ∨ running (load st) = true →
                  loadAssets keys cb o st = (p, st1)).
  { intros Hor. destruct o as [|now]; [exact Heq|].
    rewrite loadAssets_completes, Heq. by rewrite (Hq Hor). }
  destruct (selected keys st) as [|a l] eqn:Hsel.
  - exists p, st1. split; [by apply Hsame; left|]. split; [exact Hreg|].
    split; [|done]. intros _. destruct Hcase as (-> & -> & -> & _).
    rewrite Hfiles, app_nil_r. done.
  - destruct Hcase as (Hcon & Hrun).
    destruct (running (load st)) eqn:Hr.
    + exists p, st1. split; [by apply Hsame; right|]. split; [exact Hreg|].
      split; [done|]. intros _. destruct Hrun as (-> & -> & _). done.
    + destruct Hrun as (-> & Hr1 & _).
      destruct o as [|now].
      * exists AwaitingLoader, st1. split; [exact Heq|]. split; [exact Hreg|].
        split; [done|]. intros _. done.
      * exists Fulfilled, (loader_complete now st1).
        split; [by rewrite loadAssets_completes, Heq|].
        rewrite loader_complete_eq. cbn. split; [exact Hreg|].
        split; [done|]. intros _. done.
Qed.

(** Property X9, with a key that is not registered among the keys. *)
Lemma loadAssets_hands_over_selected_witness :
  ∃ st', loadAssets (Some ["b"; "missing"; "a"]) None Loads two_images
           = (AwaitingLoader, st') ∧
         files (load st') = [(IMAGE, "b"); (IMAGE, "a")] ∧ console st' = [].
Proof.
  destruct (loadAssets_hands_over_selected (Some ["b"; "missing"; "a"]) None Loads
              two_images eq_refl) as (p & st' & Heq & _).
  exists st'. vm_compute in Heq. injection Heq as <- <-. repeat split.
Defined.

Lemma selected_one_per_key keys st x y :
  registry_ok (assetRegistry st) →
  x ∈ selected keys st → y ∈ selected keys st → key x = key y → x = y.
Proof.
  intros Hok Hx Hy Hk.
  apply (selected_registered _ _ _ Hok) in Hx, Hy. rewrite Hk in Hx.
  exact (registry_ok_unique _ _ _ _ Hok Hx Hy).
Qed.

(** Property X10.  A call of [loadAssets] that finds the loader idle and
    selects an asset starts the loader.  If the loader begins to load, the
    promise waits for it and the loader is running; once it completes, every
    selected asset is recorded as loaded, under its key and with its type.
    If the loader completes within [start], the promise is settled, the
    loader is idle and no [complete] listener is left when the call returns,
    and every selected asset is recorded by then. *)
Theorem loader_completion_records_batch keys cb o st :
  registry_ok (assetRegistry st) →
  isLoading st = false →
  running (load st) = false →
  selected keys st ≠ [] →
  ∃ p st1, loadAssets keys cb o st = (p, st1) ∧
    match o with
    | Loads =>
        p = AwaitingLoader ∧ running (load st1) = true ∧
        ∀ now,
          running (load (loader_complete now st1)) = false ∧
          ∀ a, a ∈ selected keys st →
               ∃ info, loadedAssets (loader_complete now st1) !! key a = Some info ∧
                       l_key info = key a ∧ l_type info = type a
    | CompletesAt _ =>
        p = Fulfilled ∧ running (load st1) = false ∧ once_complete (load st1) = [] ∧
        ∀ a, a ∈ selected keys st →
             ∃ info, loadedAssets st1 !! key a = Some info ∧
                     l_key info = key a ∧ l_type info = type a
    end.
Proof.
  intros Hok Hst Hrun Hsel.
  destruct (loadAssets_spec keys cb st Hst)
    as (p & st1 & Heq & _ & _ & _ & _ & _ & _ & Hcase).
  assert (Hp : p = AwaitingLoader ∧ running (load st1) = true ∧
               once_complete (load st1) = once_complete (load st) ++ [selected keys st]).
  { destruct (selected keys st); [done|].
    rewrite Hrun in Hcase. destruct Hcase as (_ & -> & H1 & H2 & _). done. }
  destruct Hp as (-> & Hr1 & Hoc).
  assert (Hrec : ∀ now a, a ∈ selected keys st →
            ∃ info, loadedAssets (loader_complete now st1) !! key a = Some info ∧
                    l_key info = key a ∧ l_type info = type a).
  { intros now a Hin. exists (mkLoaded (key a) (type a) now). split; [|done].
    rewrite loader_complete_eq. cbn [loadedAssets]. rewrite Hoc, foldl_app.
    generalize (foldl (λ m b, foldl (λ m a, <[key a := mkLoaded (key a) (type a) now]> m) m b)
                      (loadedAssets st1) (once_complete (load st))).
    intros m0. cbn [foldl].
    apply batch_lookup; [|exact Hin].
    intros x y. by apply selected_one_per_key. }
  destruct o as [|now].
  - exists AwaitingLoader, st1. split; [exact Heq|]. split; [done|]. split; [exact Hr1|].
    intros now. split; [by rewrite loader_complete_eq|]. apply Hrec.
  - exists Fulfilled, (loader_complete now st1).
    split; [by rewrite loadAssets_completes, Heq|]. split; [done|].
    split; [by rewrite loader_complete_eq|]. split; [by rewrite loader_complete_eq|].
    apply Hrec.
Qed.

(** Property X10, for the two images: on a loader that begins to load, and
    on one that completes within [start]. *)
Lemma loader_completion_records_batch_witness :
  (∃ st1, loadAssets None None Loads two_images = (AwaitingLoader, st1) ∧
     (∃ info, loadedAssets (loader_complete 5 st1) !! "a" = Some info ∧
              l_type info = IMAGE) ∧
     (∃ info, loadedAssets (loader_complete 5 st1) !! "b" = Some info ∧
              l_type info = IMAGE)) ∧
  (∃ st1, loadAssets None None (CompletesAt 5) two_images = (Fulfilled, st1) ∧
     running (load st1) = false ∧
     (∃ info, loadedAssets st1 !! "b" = Some info ∧ l_type info = IMAGE)).
Proof.
  split.
  - destruct (loader_completion_records_batch None None Loads two_images two_images_ok
                eq_refl eq_refl ltac:(discriminate)) as (p & st1 & Heq & -> & _ & Hall).
    exists st1. split; [exact Heq|].
    destruct (Hall 5) as [_ Hrec]. split.
    + destruct (Hrec (mkAsset "a" IMAGE ["a.png"] None)) as (info & Hi & _ & Ht).
      * cbn. apply list_elem_of_here.
      * exists info. split; [exact Hi|exact Ht].
    + destruct (Hrec (mkAsset "b" IMAGE ["b.png"] None)) as (info & Hi & _ & Ht).
      * cbn. apply list_elem_of_further, list_elem_of_here.
      * exists info. split; [exact Hi|exact Ht].
  - destruct (loader_completion_records_batch None None (CompletesAt 5) two_images
                two_images_ok eq_refl eq_refl ltac:(discriminate))
      as (p & st1 & Heq & -> & Hr & _ & Hrec).
    exists st1. split; [exact Heq|]. split; [exact Hr|].
    destruct (Hrec (mkAsset "b" IMAGE ["b.png"] None)) as (info & Hi & _ & Ht).
    + cbn. apply list_elem_of_further, list_elem_of_here.
    + exists info. split; [exact Hi|exact Ht].
Defined.

(** Property X11.  A call of [loadAssets] that finds the loader running
    returns a settled promise and installs no listener: when the loader
    finishes, the loaded assets are what they would be had the call not
    been made, although its files were handed to the loader. *)
Theorem loadAssets_while_loader_runs_not_recorded keys cb o st :
  isLoading st = false →
  running (load st) = true →
  ∃ st1, loadAssets keys cb o st = (Fulfilled, st1) ∧
    files (load st1) = files (load st) ++ map (λ a, (type a, key a)) (selected keys st) ∧
    once_complete (load st1) = once_complete (load st) ∧
    ∀ now, loadedAssets (loader_complete now st1) = loadedAssets (loader_complete now st).
Proof.
  intros Hst Hrun.
  destruct (loadAssets_spec keys cb st Hst)
    as (p & st1 & Heq & _ & Hld & _ & _ & Hfiles & _ & Hcase).
  assert (Hp : p = Fulfilled ∧ once_complete (load st1) = once_complete (load st)).
  { destruct (selected keys st).
    - destruct Hcase as (-> & _ & _ & -> & _). done.
    - rewrite Hrun in Hcase. destruct Hcase as (_ & -> & _ & -> & _). done. }
  destruct Hp as [-> Hoc]. exists st1.
  split; [|split; [exact Hfiles|split; [exact Hoc|]]].
  - destruct o as [|now]; [exact Heq|]. by rewrite loadAssets_completes, Heq.
  - intros now.
    destruct (loader_complete_frame now st1) as (_ & _ & _ & _ & _ & _ & ->).
    destruct (loader_complete_frame now st) as (_ & _ & _ & _ & _ & _ & ->).
    by rewrite Hld, Hoc.
Qed.

(** Property X11, for an image asked for while the loader is running. *)
Lemma loadAssets_while_loader_runs_not_recorded_witness :
  let st := registerImage "a" "a.png" (init busy_loader) in
  ∃ st1, loadAssets (Some ["a"]) None Loads st = (Fulfilled, st1) ∧
         files (load st1) = [(IMAGE, "a")] ∧
         loadedAssets (loader_complete 5 st1) !! "a" = None.
Proof.
  cbv zeta.
  destruct (loadAssets_while_loader_runs_not_recorded (Some ["a"]) None Loads
              (registerImage "a" "a.png" (init busy_loader)) eq_refl eq_refl)
    as (st1 & Heq & Hfiles & _ & Hsame).
  exists st1. split; [exact Heq|]. split; [exact Hfiles|].
  rewrite Hsame. reflexivity.
Defined.

(** *** The registry over histories *)

Lemma map_get_is_Some {V} (k : string) (m : list (string * V)) :
  is_Some (map_get k m) ↔ k ∈ m.*1.
Proof.
  destruct (map_get k m) eqn:H.
  - split; [intros _|by eauto]. apply map_get_Some in H.
    apply list_elem_of_fmap. by exists (k, v).
  - apply map_get_None in H. split; [by intros [? ?]|done].
Qed.

(** Property X12.  In every history of a manager the registry holds each
    key once, and the asset stored under a key carries that key; so
    [getRegisteredAssets] has no repetition and lists exactly the keys for
    which [isRegistered] holds. *)
Theorem registry_keys_unique (l : Loader) (h : Caches) (evs : list Event) :
  let st := manager (steps evs (new_world l h)) in
  NoDup (getRegisteredAssets st) ∧
  (∀ k, isRegistered k st = true ↔ k ∈ getRegisteredAssets st) ∧
  (∀ k a, map_get k (assetRegistry st) = Some a → key a = k).
Proof.
  cbv zeta.
  assert (Hok : registry_ok (assetRegistry (manager (steps evs (new_world l h))))).
  { apply (steps_invariant (λ st, registry_ok (assetRegistry st)));
      [apply step_registry_ok|apply registry_ok_nil]. }
  destruct Hok as [Hnd Hkey]. split; [exact Hnd|]. split.
  - intros k. unfold isRegistered, getRegisteredAssets.
    rewrite bool_decide_eq_true. apply map_get_is_Some.
  - intros k a Hget. apply Hkey. by apply map_get_Some.
Qed.

Lemma last_with_key_snoc k l a :
  last_with_key k (l ++ [a]) = if decide (key a = k) then Some a else last_with_key k l.
Proof.
  unfold last_with_key. rewrite filter_app, filter_cons, filter_nil.
  destruct (decide (key a = k)).
  - apply last_snoc.
  - by rewrite app_nil_r.
Qed.

(** Property X13.  [registerAssets] registers its entries from first to
    last: afterwards a key holds the last entry of the list with that key,
    stored with the type it names, and with the [atlasPath] only if that
    type is the atlas; keys the list does not mention keep what they had,
    and nothing but the registry changes. *)
Theorem registerAssets_last_wins (assets : list AssetConfig) (st : State) (k : string) :
  let st' := registerAssets assets st in
  map_get k (assetRegistry st') =
    match last_with_key k assets with
    | Some a => Some (stored a)
    | None => map_get k (assetRegistry st)
    end ∧
  loadedAssets st' = loadedAssets st ∧ load st' = load st ∧ console st' = console st.
Proof.
  cbv zeta. split.
  - induction assets as [|a l IH] using rev_ind; [done|].
    rewrite registerAssets_snoc, last_with_key_snoc. cbn [register assetRegistry].
    rewrite map_get_set. change (key (stored a)) with (key a).
    destruct (decide (key a = k)); [done|exact IH].
  - destruct (registerAssets_frame assets st) as (H1 & _ & _ & H4 & H5). done.
Qed.

(** *** Removal *)

(** Property X14.  After [removeAsset k] the key is neither registered nor
    loaded, whatever the host caches held; every other key keeps its entry,
    its place in the order of registration and its loaded state. *)
Theorem removeAsset_forgets_one_key (k : string) (w : World) :
  let w' := removeAsset k w in
  isRegistered k (manager w') = false ∧ isLoaded k w' = false ∧
  getRegisteredAssets (manager w') = filter (λ k', k' ≠ k) (getRegisteredAssets (manager w)) ∧
  ∀ k', k' ≠ k →
    map_get k' (assetRegistry (manager w')) = map_get k' (assetRegistry (manager w)) ∧
    isLoaded k' w' = isLoaded k' w.
Proof.
  cbv zeta. split; [|split; [|split]].
  - unfold isRegistered. cbn. rewrite map_get_delete, decide_True by done.
    apply bool_decide_eq_false. by intros [? ?].
  - unfold isLoaded. cbn. rewrite lookup_delete_eq.
    rewrite bool_decide_eq_false_2 by (by intros [? ?]). done.
  - unfold getRegisteredAssets, map_delete. cbn.
    induction (assetRegistry (manager w)) as [|[k0 a0] reg IH]; [done|].
    unfold map_delete in *. rewrite fmap_cons, !filter_cons. cbn [fst].
    destruct (decide (k0 ≠ k)); [rewrite fmap_cons; cbn [fst]|]; by rewrite IH.
  - intros k' Hne. split.
    + cbn. rewrite map_get_delete. by rewrite decide_False.
    + unfold isLoaded. cbn. rewrite lookup_delete_ne by done.
      f_equal. repeat f_equal; apply bool_decide_ext; set_solver.
Qed.

(** *** What the loaded assets are *)

Lemma register_tracked a st : tracked st → tracked (register a st).
Proof.
  intros (Hok & Hl & Hb). split; [by apply registry_ok_set|].
  assert (Hmono : ∀ k, is_Some (map_get k (assetRegistry st)) →
                       is_Some (map_get k (map_set (key a) a (assetRegistry st)))).
  { intros k Hk. rewrite map_get_set. destruct (decide (key a = k)); [by eexists|done]. }
  split.
  - intros k Hk. apply Hmono. by apply Hl.
  - intros b x Hin Hx. apply Hmono. by apply (Hb b).
Qed.

Lemma registerAssets_tracked l st : tracked st → tracked (registerAssets l st).
Proof.
  intros H. induction l as [|a l IH] using rev_ind; [done|].
  rewrite registerAssets_snoc. by apply register_tracked.
Qed.

Lemma tracked_frame st st' :
  assetRegistry st' = assetRegistry st → loadedAssets st' = loadedAssets st →
  once_complete (load st') = once_complete (load st) →
  tracked st → tracked st'.
Proof. unfold tracked. by intros -> -> ->. Qed.

Lemma loadAssets_tracked_loads keys cb st :
  tracked st → tracked (loadAssets keys cb Loads st).2.
Proof.
  intros Ht. destruct (isLoading st) eqn:Hst.
  - rewrite loadAssets_busy by done. by apply (tracked_frame st).
  - destruct (loadAssets_spec keys cb st Hst)
      as (p & st' & -> & Hreg & Hld & _ & _ & _ & _ & Hcase). cbn [snd].
    destruct Ht as (Hok & Hl & Hb).
    unfold tracked. rewrite Hreg, Hld. split; [done|]. split; [done|].
    intros b a Hin Ha.
    assert (Hcases : b ∈ once_complete (load st) ∨ b = selected keys st).
    { destruct (selected keys st) eqn:Hs.
      - destruct Hcase as (_ & _ & _ & Hoc & _). rewrite Hoc in Hin. by left.
      - destruct Hcase as (_ & Hrun). destruct (running (load st)).
        + destruct Hrun as (_ & _ & Hoc & _). rewrite Hoc in Hin. by left.
        + destruct Hrun as (_ & _ & Hoc & _). rewrite Hoc in Hin.
          apply elem_of_app in Hin as [Hin|Hin]; [by left|].
          apply list_elem_of_singleton in Hin. by right. }
    destruct Hcases as [Hold| ->]; [by apply (Hb b)|].
    apply (selected_registered _ _ _ Hok) in Ha.
    apply map_get_is_Some, list_elem_of_fmap. by exists (key a, a).
Qed.

Lemma batches_lookup now (bs : list (list AssetConfig)) (m : gmap string LoadedInfo) k :
  is_Some (foldl (λ m b, foldl (λ m a, <[key a := mkLoaded (key a) (type a) now]> m) m b)
                 m bs !! k) →
  is_Some (m !! k) ∨ ∃ b a, b ∈ bs ∧ a ∈ b ∧ key a = k.
Proof.
  revert m. induction bs as [|b bs IH] using rev_ind; intros m; [by left|].
  rewrite foldl_app. cbn [foldl].
  generalize (foldl (λ m b, foldl (λ m a, <[key a := mkLoaded (key a) (type a) now]> m) m b)
                    m bs) (IH m).
  intros m1 IH1 H.
  assert (Hb : is_Some (m1 !! k) ∨ ∃ a, a ∈ b ∧ key a = k).
  { clear IH IH1. revert H. generalize m1. clear m1.
    induction b as [|x b IHb] using rev_ind; intros m1 H; [by left|].
    rewrite foldl_app in H. cbn [foldl] in H.
    destruct (decide (key x = k)) as [Hk|Hk].
    - right. exists x. split; [|done]. apply elem_of_app. right.
      by apply list_elem_of_singleton.
    - rewrite lookup_insert_ne in H by done.
      destruct (IHb m1 H) as [?|(a & Ha & Hka)]; [by left|].
      right. exists a. split; [|done]. apply elem_of_app. by left. }
  destruct Hb as [Hm1|(a & Ha & Hka)].
  - destruct (IH1 Hm1) as [?|(b' & a & Hb' & Ha & Hka)]; [by left|].
    right. exists b', a. split; [|done]. apply elem_of_app. by left.
  - right. exists b, a. split; [|done]. apply elem_of_app. right.
    by apply list_elem_of_singleton.
Qed.

Lemma loader_complete_tracked now st : tracked st → tracked (loader_complete now st).
Proof.
  intros (Hok & Hl & Hb). rewrite loader_complete_eq. unfold tracked. cbn.
  split; [done|]. split.
  - intros k Hk.
    apply batches_lookup in Hk as [Hk|(b & a & Hin & Ha & <-)]; [by apply Hl|].
    by apply (Hb b).
  - intros b a Hin. by apply elem_of_nil in Hin.
Qed.

Lemma loadAssets_tracked keys cb o st : tracked st → tracked (loadAssets keys cb o st).2.
Proof.
  intros Ht. pose proof (loadAssets_tracked_loads keys cb st Ht) as H.
  destruct o as [|now]; [exact H|].
  rewrite loadAssets_completes.
  destruct (loadAssets keys cb Loads st) as [[] st1]; cbn [snd] in *; [done|].
  by apply loader_complete_tracked.
Qed.

Lemma step_tracked ev w :
  forgets ev = false → tracked (manager w) → tracked (manager (step ev w)).
Proof.
  intros Hev Ht. destruct ev; try discriminate Hev; cbn [step on_manager manager];
    try (by apply (register_tracked (mkAsset _ _ _ _))).
  - by apply registerAssets_tracked.
  - by apply loadAssets_tracked.
  - destruct (preload_state keys onProgress start (manager w)) as [-> | ->]; [done|].
    by apply loadAssets_tracked.
  - unfold loadLevelAssets. apply loadAssets_tracked. by apply (tracked_frame (manager w)).
  - by apply (tracked_frame (manager w)).
  - destruct (loader_error_frame file (manager w)) as (H1 & H2 & _ & H4 & _).
    by apply (tracked_frame (manager w)).
  - by apply loader_complete_tracked.
Qed.

Lemma steps_tracked evs w :
  Forall (λ ev, forgets ev = false) evs → tracked (manager w) →
  tracked (manager (steps evs w)).
Proof.
  intros Hall. revert w. induction Hall as [|ev evs Hev _ IH]; intros w Hw; [done|].
  apply IH. by apply step_tracked.
Qed.

(** Property X15.  As long as nothing is removed from the registry, every
    asset recorded as loaded is registered, so the number of loaded assets
    in [getLoadProgress] is at most the total. *)
Theorem loaded_assets_are_registered (l : Loader) (h : Caches) (evs : list Event) :
  once_complete l = [] →
  Forall (λ ev, forgets ev = false) evs →
  let st := manager (steps evs (new_world l h)) in
  (∀ k, is_Some (loadedAssets st !! k) → isRegistered k st = true) ∧
  (size (loadedAssets st) ≤ List.length (assetRegistry st))%nat.
Proof.
  intros Hl Hevs. cbv zeta.
  assert (Ht : tracked (manager (steps evs (new_world l h)))).
  { apply steps_tracked; [exact Hevs|].
    split; [apply registry_ok_nil|]. split.
    - intros k Hk. cbn in Hk. rewrite lookup_empty in Hk. by destruct Hk.
    - intros b a Hin. cbn in Hin. rewrite Hl in Hin. by apply elem_of_nil in Hin. }
  set (st := manager (steps evs (new_world l h))) in *.
  destruct Ht as ((Hnd & _) & Hreg & _).
  split.
  - intros k Hk. unfold isRegistered. apply bool_decide_eq_true. by apply Hreg.
  - rewrite <- size_dom, <- (length_fmap fst).
    rewrite <- (size_list_to_set (C := gset string)) by exact Hnd.
    apply subseteq_size. intros k Hk. apply elem_of_dom in Hk.
    apply elem_of_list_to_set. apply map_get_is_Some. by apply Hreg.
Qed.

(** Property X15, on a history that loads two images. *)
Lemma loaded_assets_are_registered_witness :
  let st := manager (steps [RegisterImage "a" "a.png"; RegisterImage "b" "b.png";
                            LoadAssets None None Loads; LoaderDone 5 empty_caches]
                           (new_world idle_loader empty_caches)) in
  size (loadedAssets st) = 2%nat ∧
  (size (loadedAssets st) ≤ List.length (assetRegistry st))%nat.
Proof.
  cbv zeta. split; [reflexivity|].
  refine (proj2 (loaded_assets_are_registered idle_loader empty_caches _ eq_refl _)).
  repeat constructor.
Defined.

(** Once the registry is cleared while the loader runs, the batch that was
    waiting is still recorded: two assets are loaded, none is registered. *)
Example loaded_outlives_clear :
  let st := manager (steps cleared_while_loading (new_world idle_loader empty_caches)) in
  size (loadedAssets st) = 2%nat ∧ assetRegistry st = [].
Proof. split; reflexivity. Qed.

(** *** Estimated size *)

Lemma size_fold (reg : list (string * AssetConfig)) (a : Z) (g : AssetType → Z) :
  let r := foldl (λ (acc : Z * (AssetType → Z)) (e : string * AssetConfig),
                    let t := type e.2 in
                    (acc.1 + estimatedSize t,
                     λ t', if decide (t' = t) then acc.2 t' + estimatedSize t
                           else acc.2 t'))
                 (a, g) reg in
  (∀ t, r.2 t = g t + estimatedSize t *
                      Z.of_nat (List.length (filter (λ x, type x.2 = t) reg))) ∧
  r.1 - a = (r.2 IMAGE - g IMAGE) + (r.2 SPRITESHEET - g SPRITESHEET) +
            (r.2 ATLAS - g ATLAS) + (r.2 AUDIO - g AUDIO) + (r.2 JSON - g JSON) +
            (r.2 XML - g XML) + (r.2 FONT - g FONT) ∧
  a + 10 * Z.of_nat (List.length reg) ≤ r.1 ≤ a + 500 * Z.of_nat (List.length reg).
Proof.
  revert a g. induction reg as [|e reg IH]; intros a g.
  - cbn. repeat split; intros; lia.
  - cbn [foldl]. cbv zeta. cbn [fst snd].
    specialize (IH (a + estimatedSize (type e.2))
                   (λ t', if decide (t' = type e.2) then g t' + estimatedSize (type e.2)
                          else g t')).
    cbv zeta in IH. destruct IH as (IH1 & IH2 & IH3).
    set (r := foldl _ _ reg) in *.
    split; [|split].
    + intros t. rewrite IH1, filter_cons.
      destruct (decide (t = type e.2)) as [->|Hne].
      * rewrite decide_True by done. cbn [List.length]. lia.
      * rewrite decide_False by done. lia.
    + revert IH2. destruct (type e.2); cbn [estimatedSize];
        repeat (destruct (decide _) as [?|?]; try discriminate; try done); lia.
    + cbn [List.length]. assert (10 ≤ estimatedSize (type e.2) ≤ 500)
        by (destruct (type e.2); cbn; lia). lia.
Qed.

(** Property X16.  In the result of [getEstimatedSize] the total is the sum
    of the sizes by type, the size of a type is its assumed size times the
    number of registered assets of that type, the count is the number of
    registered keys, and the total lies between 10 KB and 500 KB an asset. *)
Theorem estimated_size_adds_up (st : State) :
  let e := getEstimatedSize st in
  totalSizeKB e = sizeByType e IMAGE + sizeByType e SPRITESHEET + sizeByType e ATLAS +
                  sizeByType e AUDIO + sizeByType e JSON + sizeByType e XML +
                  sizeByType e FONT ∧
  (∀ t, sizeByType e t =
        estimatedSize t *
        Z.of_nat (List.length (filter (λ x, type x.2 = t) (assetRegistry st)))) ∧
  assetCount e = List.length (getRegisteredAssets st) ∧
  10 * Z.of_nat (assetCount e) ≤ totalSizeKB e ≤ 500 * Z.of_nat (assetCount e).
Proof.
  cbv zeta. unfold getEstimatedSize.
  pose proof (size_fold (assetRegistry st) 0 (λ _, 0)) as H. cbv zeta in H.
  destruct (foldl _ _ (assetRegistry st)) as [total byType].
  cbn [fst snd totalSizeKB sizeByType assetCount] in *.
  destruct H as (H1 & H2 & H3). split; [lia|]. split.
  - intros t. rewrite H1. lia.
  - split; [|lia]. unfold getRegisteredAssets. by rewrite length_fmap.
Qed.

End AssetLoadingSpec.

